(** * GameOverlayService: a shallow embedding of
      [src/app/services/game-overlay/index.ts]

    The service is a singleton object holding a persisted state record,
    two tables of Electron windows and a subscription on a readiness
    subject.  Its methods mutate that object and call into the native
    [overlay] module.  Here the object is a record [GameOverlayService],
    methods are state transformers (with a JavaScript exception where the
    source can throw), and every call that leaves the service (to the
    [overlay] module or to a window) is appended to a call log.

    Conventions.
    - JavaScript numbers are rationals ([Q]).  The product
      [percentage * 2.55] sent to the compositor is the binary64 product
      of the source: the exact product with the double nearest to 2.55,
      rounded to nearest, ties to even, an infinity on overflow
      ([js_mul]); it is checked against the binary64 numbers of the
      Standard Library.  A percentage is any rational, so more inputs
      than the doubles; [NaN] is not modelled.  Pixel arithmetic
      ([workArea.height / 2 + 200] and the like) is done on rationals,
      which is exact for the integer coordinates Electron reports.
      Surface ids returned by the native module are integers; [null] and
      [undefined] are [None].
    - A method runs to its end as one step.  An [await] on a value that
      is not a pending request resumes within the same turn of the event
      loop, so the calls after it are logged in program order; the one
      place where a caller goes on before the resumption,
      [toggleOverlay] calling [setPreviewMode(false)], is modelled as
      such.  The chat URL lookup awaited by [configureWindows] is taken
      to answer at once.
    - Calls into Electron and into the [overlay] module return normally;
      the exceptions modelled are those of the JavaScript of the source
      itself (a property read on [undefined], the explicit [throw]).
    - Time is counted in milliseconds; the [take] and [delay] operators
      follow rxjs 6.
    - A one-shot [did-finish-load] listener that is still waiting may run
      at any time, also on a window that [createBrowserWindows] has
      replaced in the table, and also after [destroy()] was called on
      its window: nothing in the source removes a listener. *)

From Stdlib Require Import ZArith QArith Qround Qabs Bool List String Lia Lqa.
From Stdlib Require Floats.
Import ListNotations.

Local Open Scope Q_scope.

(** ** JavaScript numbers *)

(** [a < b] on numbers, as a boolean. *)
Definition Qltb (a b : Q) : bool :=
  match a ?= b with Lt => true | _ => false end.

(** What a binary64 operation on numbers gives: a finite value, kept in
    lowest terms, or an infinity. *)
Inductive JsNumber : Type :=
| finite (q : Q)
| infinite (negative : bool).

(** [a * 2^e] *)
Definition mul_pow2 (a : Q) (e : Z) : Q :=
  if (0 <=? e)%Z then a * inject_Z (2 ^ e) else a / inject_Z (2 ^ (- e)).

(** The exponent [k] with [2^k <= a < 2^(k+1)], for [a > 0]. *)
Definition floor_log2 (a : Q) : Z :=
  let k := (Z.log2 (Qnum a) - Z.log2 (Zpos (Qden a)))%Z in
  if Qle_bool (mul_pow2 1 k) a then k else (k - 1)%Z.

(** The nearest integer, the even one of two equally near. *)
Definition round_half_even (q : Q) : Z :=
  let f := Qfloor q in
  match Qcompare (q - inject_Z f) (1 # 2) with
  | Lt => f
  | Gt => (f + 1)%Z
  | Eq => if Z.even f then f else (f + 1)%Z
  end.

(** The binary64 number nearest to [x] (53 significant bits, the least
    exponent of a unit in the last place -1074, round to nearest, ties
    to even); an infinity when the rounded value reaches [2^1024]. *)
Definition round64 (x : Q) : JsNumber :=
  match Qnum x with
  | Z0 => finite 0
  | _ =>
      let a := Qabs x in
      let e := Z.max (floor_log2 a - 52) (-1074) in
      let m := round_half_even (mul_pow2 a (- e)) in
      let v := mul_pow2 (inject_Z m) e in
      let negative := match Qnum x with Zneg _ => true | _ => false end in
      if Qle_bool (inject_Z (2 ^ 1024)) v then infinite negative
      else finite (Qred (if negative then - v else v))
  end.

(** The literal [2.55] of the source: the binary64 number nearest to
    255/100, which is [2871044762448691 / 2^50]. *)
Definition c2_55 : Q := 2871044762448691 # 1125899906842624.

(** [a * b] on doubles: the exact product, rounded. *)
Definition js_mul (a b : Q) : JsNumber := round64 (a * b).
Arguments js_mul : simpl never.

(** The same product on the binary64 numbers of the Standard Library,
    for the comparison with [js_mul]. *)
Definition binary64_value (f : PrimFloat.float) : option JsNumber :=
  match FloatOps.Prim2SF f with
  | SpecFloat.S754_zero _ => Some (finite 0)
  | SpecFloat.S754_infinity negative => Some (infinite negative)
  | SpecFloat.S754_nan => None
  | SpecFloat.S754_finite negative m e =>
      Some (finite (Qred (mul_pow2
                            (inject_Z (if negative then Zneg m else Zpos m)) e)))
  end.

(** An integer of absolute value below [2^53] as a binary64 number. *)
Definition binary64_of_Z (n : Z) : PrimFloat.float :=
  match n with
  | Zneg p => PrimFloat.opp (PrimFloat.of_uint63 (Uint63.of_Z (Zpos p)))
  | _ => PrimFloat.of_uint63 (Uint63.of_Z n)
  end.

Definition binary64_2_55 : PrimFloat.float :=
  PrimFloat.div (binary64_of_Z 2871044762448691) (binary64_of_Z 1125899906842624).

(** [f * 2.55] computed on binary64 numbers. *)
Definition binary64_times_2_55 (f : PrimFloat.float) : option JsNumber :=
  binary64_value (PrimFloat.mul f binary64_2_55).

(** [n / 16], which is exact on binary64 numbers for small [n]. *)
Definition binary64_sixteenths (n : Z) : PrimFloat.float :=
  PrimFloat.div (binary64_of_Z n) (binary64_of_Z 16).

(** The sixteenths from -100 to 100. *)
Definition sixteenths : list Z :=
  map (fun n => (Z.of_nat n - 1600)%Z) (seq 0 3201).

(** The same number, numerator for numerator and denominator for
    denominator. *)
Definition same_number (a : option JsNumber) (b : JsNumber) : bool :=
  match a, b with
  | Some (finite p), finite q =>
      Z.eqb (Qnum p) (Qnum q) && Pos.eqb (Qden p) (Qden q)
  | Some (infinite n), infinite m => Bool.eqb n m
  | _, _ => false
  end.

(** ** Data model *)

(** The two overlay windows.  [Object.keys(this.windows)] lists them in
    insertion order, which [createBrowserWindows] fixes as
    [recentEvents], [chat]. *)
Inductive OverlayWindowKey : Type := recentEvents | chat.

Definition key_eqb (a b : OverlayWindowKey) : bool :=
  match a, b with
  | recentEvents, recentEvents | chat, chat => true
  | _, _ => false
  end.

Record IVec2 : Type := mkVec { x : Q; y : Q }.

Record Size : Type := mkSize { width : Q; height : Q }.

(** An Electron rectangle [{ x, y, width, height }]; the source builds
    one as [{ ...position, ...size }]. *)
Record Rectangle : Type := mkRect { origin : IVec2; extent : Size }.

(** [{ position: IVec2; id: number }], both [null] in the default state. *)
Record WindowProps : Type := mkProps { position : option IVec2; id : option Z }.

Record IWindowProperties : Type := mkWindowProperties {
  chat_props : WindowProps;
  recentEvents_props : WindowProps
}.

Record GameOverlayState : Type := mkState {
  isEnabled : bool;
  isShowing : bool;
  isPreviewEnabled : bool;
  previewMode : bool;
  opacity : Q;
  windowProperties : IWindowProperties
}.

Definition defaultState : GameOverlayState :=
  {| isEnabled := false;
     isShowing := false;
     isPreviewEnabled := true;
     previewMode := false;
     opacity := 100;
     windowProperties :=
       {| chat_props := {| position := None; id := None |};
          recentEvents_props := {| position := None; id := None |} |} |}.

(** [this.state.windowProperties[key]] *)
Definition props (st : GameOverlayState) (key : OverlayWindowKey) : WindowProps :=
  match key with
  | chat => chat_props (windowProperties st)
  | recentEvents => recentEvents_props (windowProperties st)
  end.

Definition set_props (key : OverlayWindowKey) (p : WindowProps)
    (wp : IWindowProperties) : IWindowProperties :=
  match key with
  | chat => {| chat_props := p; recentEvents_props := recentEvents_props wp |}
  | recentEvents => {| chat_props := chat_props wp; recentEvents_props := p |}
  end.

(** ** Mutations of the persisted state *)

Definition SET_PREVIEW_ENABLED (b : bool) (st : GameOverlayState) : GameOverlayState :=
  {| isEnabled := isEnabled st; isShowing := isShowing st;
     isPreviewEnabled := b; previewMode := previewMode st;
     opacity := opacity st; windowProperties := windowProperties st |}.

Definition TOGGLE_OVERLAY (b : bool) (st : GameOverlayState) : GameOverlayState :=
  {| isEnabled := isEnabled st; isShowing := b;
     isPreviewEnabled := isPreviewEnabled st; previewMode := previewMode st;
     opacity := opacity st; windowProperties := windowProperties st |}.

Definition SET_ENABLED (b : bool) (st : GameOverlayState) : GameOverlayState :=
  {| isEnabled := b; isShowing := isShowing st;
     isPreviewEnabled := isPreviewEnabled st; previewMode := previewMode st;
     opacity := opacity st; windowProperties := windowProperties st |}.

Definition SET_PREVIEW_MODE (b : bool) (st : GameOverlayState) : GameOverlayState :=
  {| isEnabled := isEnabled st; isShowing := isShowing st;
     isPreviewEnabled := isPreviewEnabled st; previewMode := b;
     opacity := opacity st; windowProperties := windowProperties st |}.

Definition with_windowProperties (wp : IWindowProperties)
    (st : GameOverlayState) : GameOverlayState :=
  {| isEnabled := isEnabled st; isShowing := isShowing st;
     isPreviewEnabled := isPreviewEnabled st; previewMode := previewMode st;
     opacity := opacity st; windowProperties := wp |}.

Definition SET_WINDOW_ID (window : OverlayWindowKey) (i : option Z)
    (st : GameOverlayState) : GameOverlayState :=
  with_windowProperties
    (set_props window {| position := position (props st window); id := i |}
       (windowProperties st)) st.

Definition SET_WINDOW_POSITION (window : OverlayWindowKey) (p : option IVec2)
    (st : GameOverlayState) : GameOverlayState :=
  with_windowProperties
    (set_props window {| position := p; id := id (props st window) |}
       (windowProperties st)) st.

Definition SET_OPACITY (val : Q) (st : GameOverlayState) : GameOverlayState :=
  {| isEnabled := isEnabled st; isShowing := isShowing st;
     isPreviewEnabled := isPreviewEnabled st; previewMode := previewMode st;
     opacity := val; windowProperties := windowProperties st |}.

(** ** The service object *)

(** Windows the service talks to: the off-screen source window and the
    on-screen preview window of a key, and [this.overlayWindow]. *)
Inductive WindowRef : Type :=
| sourceWindow (key : OverlayWindowKey)
| previewWindow (key : OverlayWindowKey)
| theOverlayWindow.

(** Calls that leave the service, in the order they are made. *)
Inductive Call : Type :=
| overlay_start
| overlay_stop
| overlay_show
| overlay_hide
| overlay_addHWND (key : OverlayWindowKey)
| overlay_setPosition (overlayId : option Z) (px py w h : Q)
| overlay_setTransparency (overlayId : option Z) (v : JsNumber)
| new_BrowserWindow (w : WindowRef) (r : Rectangle)
| win_setBounds (w : WindowRef) (r : Rectangle)
| win_show (w : WindowRef)
| win_hide (w : WindowRef)
| win_destroy (w : WindowRef)
| win_invalidate (w : WindowRef)
| win_loadURL (w : WindowRef)
| win_onPaint (w : WindowRef) (overlayId : option Z) (sz : Size)
| win_setFrameRate (w : WindowRef) (fps : Z).

(** What the code reads back from an Electron window: its bounds
    ([getBounds], [getPosition]); and whether the one-shot
    [did-finish-load] listener of [configureWindows] is still waiting.
    The listener belongs to the window, not to its place in a table. *)
Record BrowserWindow : Type := mkWindow {
  getBounds : Rectangle;
  onceDidFinishLoad : bool
}.

(** [win.setBounds(r)] *)
Definition setBounds (r : Rectangle) (win : BrowserWindow) : BrowserWindow :=
  {| getBounds := r; onceDidFinishLoad := onceDidFinishLoad win |}.

(** [win.getPosition()] *)
Definition getPosition_of (win : BrowserWindow) : IVec2 := origin (getBounds win).

(** [win.webContents.once('did-finish-load', ...)] *)
Definition once_did_finish_load (win : BrowserWindow) : BrowserWindow :=
  {| getBounds := getBounds win; onceDidFinishLoad := true |}.

(** The listener has run (or was never set). *)
Definition listener_done (win : BrowserWindow) : BrowserWindow :=
  {| getBounds := getBounds win; onceDidFinishLoad := false |}.

(** One subscription to [onWindowsReady.pipe(take(n), delay(5000))]
    with a [complete] handler only.  rxjs 6: [take(0)] is the empty
    stream, which completes on subscription; [take(n)] completes with the
    n-th value and then ignores the source; [delay] forwards every
    notification, completion included, 5000 ms after it arrives;
    [unsubscribe] cancels what is pending. *)
Record Subscription : Type := mkSubscription {
  takeCount : nat;          (* [Object.keys(this.windows).length] when the pipe is built *)
  taken : nat;              (* values that went through [take] *)
  completeIn : option N;    (* ms left before [complete] is delivered *)
  closed : bool             (* completed or unsubscribed *)
}.

Inductive JsError : Type :=
| TypeError (what : string)
| Error (message : string).

(** A JavaScript object used as a table from window key to window:
    keys in insertion order, re-assignment keeps the key's place. *)
Definition Table (A : Type) : Type := list (OverlayWindowKey * A).

Fixpoint lookup {A} (key : OverlayWindowKey) (t : Table A) : option A :=
  match t with
  | [] => None
  | (k, v) :: t' => if key_eqb key k then Some v else lookup key t'
  end.

Fixpoint assign {A} (key : OverlayWindowKey) (v : A) (t : Table A) : Table A :=
  match t with
  | [] => [(key, v)]
  | (k, v') :: t' =>
      if key_eqb key k then (k, v) :: t' else (k, v') :: assign key v t'
  end.

Definition keys {A} (t : Table A) : list OverlayWindowKey := map fst t.

Record GameOverlayService : Type := mkService {
  state : GameOverlayState;
  windows : Table BrowserWindow;          (* [{}] until [createBrowserWindows] *)
  previewWindows : Table BrowserWindow;   (* [{}] until [createPreviewWindows] *)
  replacedWindows : list BrowserWindow;   (* source windows that
                                             [createBrowserWindows] has
                                             overwritten in [windows],
                                             oldest first *)
  overlayWindow : option BrowserWindow;   (* declared, never assigned *)
  subscriptions : list Subscription;      (* newest first; the head is
                                             [this.onWindowsReadySubscription] *)
  calls : list Call
}.

Definition newService (st : GameOverlayState) : GameOverlayService :=
  {| state := st; windows := []; previewWindows := []; replacedWindows := [];
     overlayWindow := None; subscriptions := []; calls := [] |}.

Definition with_state (f : GameOverlayState -> GameOverlayState)
    (s : GameOverlayService) : GameOverlayService :=
  {| state := f (state s); windows := windows s;
     previewWindows := previewWindows s; replacedWindows := replacedWindows s;
     overlayWindow := overlayWindow s;
     subscriptions := subscriptions s; calls := calls s |}.

Definition with_windows (f : Table BrowserWindow -> Table BrowserWindow)
    (s : GameOverlayService) : GameOverlayService :=
  {| state := state s; windows := f (windows s);
     previewWindows := previewWindows s; replacedWindows := replacedWindows s;
     overlayWindow := overlayWindow s;
     subscriptions := subscriptions s; calls := calls s |}.

Definition with_previewWindows (f : Table BrowserWindow -> Table BrowserWindow)
    (s : GameOverlayService) : GameOverlayService :=
  {| state := state s; windows := windows s;
     previewWindows := f (previewWindows s);
     replacedWindows := replacedWindows s; overlayWindow := overlayWindow s;
     subscriptions := subscriptions s; calls := calls s |}.

Definition with_replacedWindows (f : list BrowserWindow -> list BrowserWindow)
    (s : GameOverlayService) : GameOverlayService :=
  {| state := state s; windows := windows s;
     previewWindows := previewWindows s;
     replacedWindows := f (replacedWindows s); overlayWindow := overlayWindow s;
     subscriptions := subscriptions s; calls := calls s |}.

Definition with_subscriptions (f : list Subscription -> list Subscription)
    (s : GameOverlayService) : GameOverlayService :=
  {| state := state s; windows := windows s;
     previewWindows := previewWindows s; replacedWindows := replacedWindows s;
     overlayWindow := overlayWindow s;
     subscriptions := f (subscriptions s); calls := calls s |}.

(** Record one outgoing call. *)
Definition call (c : Call) (s : GameOverlayService) : GameOverlayService :=
  {| state := state s; windows := windows s;
     previewWindows := previewWindows s; replacedWindows := replacedWindows s;
     overlayWindow := overlayWindow s;
     subscriptions := subscriptions s; calls := calls s ++ [c] |}.

(** ** Methods that can throw: state plus exception *)

Inductive Outcome (A : Type) : Type :=
| Returned (a : A) (s : GameOverlayService)
| Thrown (e : JsError) (s : GameOverlayService).
Arguments Returned {A} a s.
Arguments Thrown {A} e s.

Definition M (A : Type) : Type := GameOverlayService -> Outcome A.

Definition ret {A} (a : A) : M A := fun s => Returned a s.

Definition bind {A B} (c : M A) (k : A -> M B) : M B :=
  fun s => match c s with
           | Returned a s' => k a s'
           | Thrown e s' => Thrown e s'
           end.

Definition throw {A} (e : JsError) : M A := fun s => Thrown e s.

Definition gets {A} (f : GameOverlayService -> A) : M A := fun s => Returned (f s) s.

Definition modify (f : GameOverlayService -> GameOverlayService) : M unit :=
  fun s => Returned tt (f s).

(** The service as the method leaves it, returned or thrown. *)
Definition service_after {A} (o : Outcome A) : GameOverlayService :=
  match o with Returned _ s => s | Thrown _ s => s end.

Definition threw {A} (o : Outcome A) : bool :=
  match o with Returned _ _ => false | Thrown _ _ => true end.

Declare Scope js_scope.
Delimit Scope js_scope with js.
Notation "v <- c ;; k" := (bind c (fun v => k))
  (at level 61, c at next level, right associativity) : js_scope.
Notation "c ;; k" := (bind c (fun _ => k))
  (at level 61, right associativity) : js_scope.

(** [list.forEach(f)]: an exception thrown by [f] ends the loop. *)
Fixpoint forEach {A} (l : list A) (f : A -> M unit) : M unit :=
  match l with
  | [] => ret tt
  | a :: l' => bind (f a) (fun _ => forEach l' f)
  end.

(** ** What the service reads from outside *)

(** An Electron display: full bounds and the work area (bounds minus
    task bar and docks). *)
Record Display : Type := mkDisplay { bounds : Rectangle; workArea : Rectangle }.

(** Modelled from the spec: the [OverlayThreadStatus] enumeration of the
    native module is not part of the sources; the spec gives
    [status() -> {stopped, running}]. *)
Inductive OverlayThreadStatus : Type := Running | Stopped.

Definition status_eqb (a b : OverlayThreadStatus) : bool :=
  match a, b with
  | Running, Running | Stopped, Stopped => true
  | _, _ => false
  end.

(** The answers of the collaborators at the time of a call. *)
Record World : Type := mkWorld {
  getAllDisplays : list Display;            (* [electron.screen.getAllDisplays()] *)
  getMainWindowDisplay : Display;           (* [windowsService.getMainWindowDisplay()] *)
  getStatus : OverlayThreadStatus;          (* [overlay.getStatus()] *)
  addHWND : OverlayWindowKey -> option Z    (* result of [overlay.addHWND] for the
                                               handle of that key's source window *)
}.

(** ** Methods *)

Section Methods.

Variable w : World.

Local Open Scope js_scope.

Definition getWindowContainerStartingPosition : Q * Q :=
  let display := getMainWindowDisplay w in
  (height (extent (workArea display)) / 2 + 200,
   height (extent (workArea display)) / 2 - 300).

Definition defaultPosition (key : OverlayWindowKey) : IVec2 :=
  let '(containerX, containerY) := getWindowContainerStartingPosition in
  {| x := match key with recentEvents => containerX - 600 | chat => containerX end;
     y := containerY |}.

(** [key === 'chat' ? { width: 300, height: 600 } : { width: 600, height: 300 }] *)
Definition windowSize (key : OverlayWindowKey) : Size :=
  match key with
  | chat => {| width := 300; height := 600 |}
  | recentEvents => {| width := 600; height := 300 |}
  end.

(** The predicate of [getAllDisplays().find(...)] in
    [determineStartPosition]. *)
Definition insideBounds (pos : IVec2) (display : Display) : bool :=
  let b := bounds display in
  let intBounds := Qltb (x (origin b)) (x pos) && Qltb (y (origin b)) (y pos) in
  let extBounds :=
    Qltb (x pos) (x (origin b) + width (extent b))
    && Qltb (y pos) (y (origin b) + height (extent b)) in
  intBounds && extBounds.

Definition determineStartPosition (window : OverlayWindowKey)
    (s : GameOverlayService) : IVec2 * GameOverlayService :=
  let fallback :=
    (defaultPosition window, with_state (SET_WINDOW_POSITION window None) s) in
  match position (props (state s) window) with
  | Some pos =>
      match find (insideBounds pos) (getAllDisplays w) with
      | Some _ => (pos, s)
      | None => fallback
      end
  | None => fallback
  end.

(** [this.windows[key].m(...)]: a [TypeError] when the table has no such
    window, otherwise the window is updated and the call logged. *)
Definition onSourceWindow (key : OverlayWindowKey)
    (f : BrowserWindow -> BrowserWindow) (c : list Call) : M unit :=
  fun s =>
    match lookup key (windows s) with
    | Some win =>
        Returned tt (fold_left (fun s' c' => call c' s') c
                       (with_windows (assign key (f win)) s))
    | None => Thrown (TypeError "this.windows[key] is undefined") s
    end.

Definition onPreviewWindow (key : OverlayWindowKey)
    (f : BrowserWindow -> BrowserWindow) (c : list Call) : M unit :=
  fun s =>
    match lookup key (previewWindows s) with
    | Some win =>
        Returned tt (fold_left (fun s' c' => call c' s') c
                       (with_previewWindows (assign key (f win)) s))
    | None => Thrown (TypeError "this.previewWindows[key] is undefined") s
    end.

(** [!overlayId]: [null], [undefined] and [0] are falsy. *)
Definition falsy (overlayId : option Z) : bool :=
  match overlayId with
  | None => true
  | Some i => Z.eqb i 0
  end.

(** The callback of the loop of [resetPosition]. *)
Definition resetPosition_key (key : OverlayWindowKey) : M unit :=
  overlayId <- gets (fun s => id (props (state s) key)) ;;
  if falsy overlayId then ret tt
  else
    modify (with_state (SET_WINDOW_POSITION key None)) ;;
    let pos := defaultPosition key in
    let size := windowSize key in
    let r := {| origin := pos; extent := size |} in
    onSourceWindow key (setBounds r) [win_setBounds (sourceWindow key) r] ;;
    onPreviewWindow key (setBounds r) [win_setBounds (previewWindow key) r] ;;
    modify (call (overlay_setPosition overlayId (x pos) (y pos)
                    (width size) (height size))).

Definition resetPosition : M unit :=
  ks <- gets (fun s => keys (windows s)) ;;
  forEach ks resetPosition_key.

Definition hideOverlay (s : GameOverlayService) : GameOverlayService :=
  with_state (TOGGLE_OVERLAY false) (call overlay_hide s).

Definition showOverlay (s : GameOverlayService) : GameOverlayService :=
  let s1 := with_state (TOGGLE_OVERLAY true) (call overlay_show s) in
  fold_left (fun s' key => call (win_invalidate (sourceWindow key)) s')
    (keys (windows s1)) s1.

(** One iteration of the loop of [setPreviewMode(false)], up to its
    [await]. *)
Definition leavePreview (s : GameOverlayService) (key : OverlayWindowKey)
    : GameOverlayService :=
  match lookup key (previewWindows s) with
  | Some win =>
      let overlayId := id (props (state s) key) in
      let pos := getPosition_of win in
      let s1 := with_state (SET_WINDOW_POSITION key (Some pos)) s in
      let sz := extent (getBounds win) in
      call (overlay_setPosition overlayId (x pos) (y pos) (width sz) (height sz)) s1
  | None => s
  end.

(** [setPreviewMode] as far as it runs before handing control back to
    its caller: everything but the [win.hide()] that follows each
    [await overlay.setPosition(...)]. *)
Definition setPreviewMode_sync (preview : bool) (s : GameOverlayService)
    : GameOverlayService :=
  let s1 := if isShowing (state s) then hideOverlay s else s in
  if negb (isEnabled (state s1)) then s1
  else
    let s2 := with_state (SET_PREVIEW_MODE preview) s1 in
    if preview then
      fold_left (fun s' key => call (win_show (previewWindow key)) s')
        (keys (previewWindows s2)) s2
    else
      fold_left leavePreview (keys (previewWindows s2)) s2.

(** The resumptions after the [await]s: one [win.hide()] per preview
    window, when the loop of [setPreviewMode(false)] ran. *)
Definition setPreviewMode_resume (preview : bool) (s : GameOverlayService)
    : GameOverlayService :=
  if negb (isEnabled (state s)) || preview then s
  else
    fold_left (fun s' key => call (win_hide (previewWindow key)) s')
      (keys (previewWindows s)) s.

Definition setPreviewMode (preview : bool) (s : GameOverlayService)
    : GameOverlayService :=
  setPreviewMode_resume preview (setPreviewMode_sync preview s).

(** [toggleOverlay] calls [setPreviewMode(false)] without awaiting it:
    the resumptions run once [toggleOverlay] itself has returned. *)
Definition toggleOverlay (s : GameOverlayService) : GameOverlayService :=
  if negb (status_eqb (getStatus w) Running) || negb (isEnabled (state s)) then s
  else
    let s1 := if previewMode (state s) then setPreviewMode_sync false s else s in
    let s2 := if isShowing (state s1) then hideOverlay s1 else showOverlay s1 in
    if previewMode (state s) then setPreviewMode_resume false s2 else s2.

Definition setOverlayOpacity (percentage : Q) (s : GameOverlayService)
    : GameOverlayService :=
  let s1 := with_state (SET_OPACITY percentage) s in
  if negb (isEnabled (state s1)) then s1
  else
    fold_left
      (fun s' key =>
         let overlayId := id (props (state s') key) in
         call (overlay_setTransparency overlayId (js_mul percentage c2_55)) s')
      (keys (windows s1)) s1.

Definition setPreviewEnabled (shouldEnable : bool) (s : GameOverlayService)
    : GameOverlayService :=
  with_state (SET_PREVIEW_ENABLED shouldEnable) s.

(** [subscription.unsubscribe()] *)
Definition unsubscribe (sub : Subscription) : Subscription :=
  {| takeCount := takeCount sub; taken := taken sub;
     completeIn := None; closed := true |}.

Definition destroyOverlay (s : GameOverlayService) : GameOverlayService :=
  let s1 :=
    if isEnabled (state s) then
      let s2 := call overlay_stop s in
      let s3 :=
        with_subscriptions
          (fun subs => match subs with
                       | [] => []
                       | sub :: rest => unsubscribe sub :: rest
                       end) s2 in
      let s4 :=
        fold_left (fun s' key => call (win_destroy (sourceWindow key)) s')
          (keys (windows s3)) s3 in
      fold_left (fun s' key => call (win_destroy (previewWindow key)) s')
        (keys (previewWindows s4)) s4
    else s in
  with_state (TOGGLE_OVERLAY false) (with_state (SET_PREVIEW_MODE false) s1).

(** [{ ...this.commonWindowOptions, width/height override }] as the
    rectangle a window is created with. *)
Definition commonWindowOptions : Rectangle :=
  let '(containerX, containerY) := getWindowContainerStartingPosition in
  {| origin := {| x := containerX; y := containerY |};
     extent := {| width := 300; height := 300 |} |}.

Definition optionsFor (key : OverlayWindowKey) : Rectangle :=
  let o := commonWindowOptions in
  {| origin := origin o;
     extent := match key with
               | recentEvents => {| width := 600; height := height (extent o) |}
               | chat => {| width := width (extent o); height := 600 |}
               end |}.

Definition newWindow (r : Rectangle) : BrowserWindow :=
  {| getBounds := r; onceDidFinishLoad := false |}.

(** The window that [this.windows[key] = new BrowserWindow(...)] takes
    out of the table, if the table held one. *)
Definition overwritten (key : OverlayWindowKey) (s : GameOverlayService)
    : list BrowserWindow :=
  match lookup key (windows s) with
  | Some old => [old]
  | None => []
  end.

(** The assignment replaces the reference in the table and nothing
    else: the window that was there stays alive with its listeners. *)
Definition createBrowserWindows (s : GameOverlayService) : GameOverlayService :=
  let mk key s' :=
    call (new_BrowserWindow (sourceWindow key) (optionsFor key))
      (with_windows (assign key (newWindow (optionsFor key)))
         (with_replacedWindows (fun ws => ws ++ overwritten key s') s')) in
  mk chat (mk recentEvents s).

Definition createPreviewWindows (s : GameOverlayService) : GameOverlayService :=
  let mk key s' :=
    call (new_BrowserWindow (previewWindow key) (optionsFor key))
      (with_previewWindows (assign key (newWindow (optionsFor key))) s') in
  mk chat (mk recentEvents s).

(** [configureWindows]; the chat URL lookup it awaits is taken to
    answer at once, so [chat.loadURL] is logged right after
    [recentEvents.loadURL]. *)
Definition configureWindow (key : OverlayWindowKey) : M unit :=
  onSourceWindow key once_did_finish_load [] ;;
  position <- (fun s => let '(p, s') := determineStartPosition key s in
                        Returned p s') ;;
  let size := windowSize key in
  let r := {| origin := position; extent := size |} in
  onSourceWindow key (setBounds r) [win_setBounds (sourceWindow key) r] ;;
  onPreviewWindow key (setBounds r) [win_setBounds (previewWindow key) r].

Definition configureWindows : M unit :=
  ks <- gets (fun s => keys (windows s)) ;;
  forEach ks configureWindow ;;
  onSourceWindow recentEvents (fun win => win) [win_loadURL (sourceWindow recentEvents)] ;;
  onSourceWindow chat (fun win => win) [win_loadURL (sourceWindow chat)].

(** [onWindowsReady.pipe(take(n), delay(5000)).subscribe(...)] *)
Definition subscribe (n : nat) : Subscription :=
  {| takeCount := n; taken := 0;
     completeIn := match n with O => Some 5000%N | S _ => None end;
     closed := false |}.

Definition initializeOverlay : M unit :=
  modify (call overlay_start) ;;
  modify (fun s =>
            with_subscriptions
              (fun subs => subscribe (List.length (keys (windows s))) :: subs) s) ;;
  modify createBrowserWindows ;;
  modify createPreviewWindows ;;
  configureWindows.

Definition setEnabled (shouldEnable : bool) : M unit :=
  enabled <- gets (fun s => isEnabled (state s)) ;;
  let shouldStart := shouldEnable && negb enabled in
  let shouldStop := negb shouldEnable && enabled in
  (if shouldStart then initializeOverlay else ret tt) ;;
  (if shouldStop then modify destroyOverlay else ret tt) ;;
  modify (with_state (SET_ENABLED shouldEnable)).

(** [overlayId === -1 || overlayId == null] *)
Definition invalidId (overlayId : option Z) : bool :=
  match overlayId with
  | None => true
  | Some i => Z.eqb i (-1)
  end.

(** [this.getPosition(key, win)] *)
Definition getPosition (key : OverlayWindowKey) (win : BrowserWindow)
    (s : GameOverlayService) : IVec2 :=
  match position (props (state s) key) with
  | Some p => p
  | None => getPosition_of win
  end.

(** [this.overlayWindow.hide()] *)
Definition overlayWindow_hide : M unit :=
  fun s =>
    match overlayWindow s with
    | Some _ => Returned tt (call (win_hide theOverlayWindow) s)
    | None => Thrown (TypeError "this.overlayWindow is undefined") s
    end.

(** The callback of the loop of [createWindowOverlays]. *)
Definition createWindowOverlay (key : OverlayWindowKey) : M unit :=
  found <- gets (fun s => lookup key (windows s)) ;;
  match found with
  | None => throw (TypeError "this.windows[key] is undefined")
  | Some win =>
      modify (call (overlay_addHWND key)) ;;
      let overlayId := addHWND w key in
      if invalidId overlayId then
        overlayWindow_hide ;;
        throw (Error "Error creating overlay")
      else
        modify (with_state (SET_WINDOW_ID key overlayId)) ;;
        position <- gets (getPosition key win) ;;
        let sz := extent (getBounds win) in
        modify (call (overlay_setPosition overlayId (x position) (y position)
                        (width sz) (height sz))) ;;
        opa <- gets (fun s => opacity (state s)) ;;
        modify (call (overlay_setTransparency overlayId (js_mul opa c2_55))) ;;
        modify (call (win_onPaint (sourceWindow key) overlayId sz)) ;;
        modify (call (win_setFrameRate (sourceWindow key) 1))
  end.

Definition createWindowOverlays : M unit :=
  ks <- gets (fun s => keys (windows s)) ;;
  forEach ks createWindowOverlay.

(** ** The readiness pipeline *)

(** [onWindowsReady.next(win)] as one subscription sees it. *)
Definition next (sub : Subscription) : Subscription :=
  if closed sub then sub
  else
    match completeIn sub with
    | Some _ => sub       (* [take] already completed *)
    | None =>
        let n := S (taken sub) in
        {| takeCount := takeCount sub; taken := n;
           completeIn := if Nat.eqb n (takeCount sub) then Some 5000%N else None;
           closed := false |}
    end.

(** The [did-finish-load] event of the source window that the table
    holds for [key]: the one-shot listener, if still waiting, pushes the
    window on [onWindowsReady]. *)
Definition didFinishLoad (key : OverlayWindowKey) (s : GameOverlayService)
    : GameOverlayService :=
  match lookup key (windows s) with
  | Some win =>
      if onceDidFinishLoad win then
        with_subscriptions (map next)
          (with_windows (assign key (listener_done win)) s)
      else s
  | None => s
  end.

(** [l] with its [n]-th element replaced. *)
Fixpoint replace_nth {A} (n : nat) (a : A) (l : list A) : list A :=
  match l, n with
  | [], _ => []
  | _ :: l', O => a :: l'
  | b :: l', S n' => b :: replace_nth n' a l'
  end.

(** The [did-finish-load] event of a source window that the table no
    longer holds, the [n]-th of those replaced: its listener, if still
    waiting, pushes on the same subject [onWindowsReady]. *)
Definition replacedDidFinishLoad (n : nat) (s : GameOverlayService)
    : GameOverlayService :=
  match nth_error (replacedWindows s) n with
  | Some win =>
      if onceDidFinishLoad win then
        with_subscriptions (map next)
          (with_replacedWindows (replace_nth n (listener_done win)) s)
      else s
  | None => s
  end.

(** One millisecond passes for one subscription; [true] when its
    delayed completion is delivered now. *)
Definition tick_subscription (sub : Subscription) : Subscription * bool :=
  if closed sub then (sub, false)
  else
    match completeIn sub with
    | None => (sub, false)
    | Some d =>
        if (N.pred d =? 0)%N then
          ({| takeCount := takeCount sub; taken := taken sub;
              completeIn := None; closed := true |}, true)
        else
          ({| takeCount := takeCount sub; taken := taken sub;
              completeIn := Some (N.pred d); closed := false |}, false)
    end.

(** One millisecond passes: every completion that falls due runs
    [complete: () => this.createWindowOverlays()], oldest subscription
    first; an exception thrown there does not reach the other handlers. *)
Definition tick (s : GameOverlayService) : GameOverlayService :=
  let ticked := map tick_subscription (subscriptions s) in
  let s1 := with_subscriptions (fun _ => map fst ticked) s in
  fold_right
    (fun (fired : bool) s' =>
       if fired then service_after (createWindowOverlays s') else s')
    s1 (map snd ticked).

Definition elapse (ms : N) (s : GameOverlayService) : GameOverlayService :=
  N.iter ms tick s.

(** ** The service as a transition system *)

Inductive Event : Type :=
| ev_initializeOverlay                         (* login *)
| ev_destroyOverlay                            (* logout *)
| ev_setEnabled (shouldEnable : bool)
| ev_setPreviewMode (preview : bool)
| ev_toggleOverlay
| ev_showOverlay
| ev_hideOverlay
| ev_setOverlayOpacity (percentage : Q)
| ev_setPreviewEnabled (shouldEnable : bool)
| ev_resetPosition
| ev_didFinishLoad (key : OverlayWindowKey)
| ev_replacedDidFinishLoad (n : nat)
| ev_elapse (ms : N)
| ev_dragPreview (key : OverlayWindowKey) (to : IVec2).

(** The user drags a preview window. *)
Definition dragPreview (key : OverlayWindowKey) (to : IVec2)
    (s : GameOverlayService) : GameOverlayService :=
  match lookup key (previewWindows s) with
  | Some win =>
      with_previewWindows
        (assign key (setBounds {| origin := to; extent := extent (getBounds win) |} win)) s
  | None => s
  end.

Definition step (e : Event) (s : GameOverlayService) : GameOverlayService :=
  match e with
  | ev_initializeOverlay => service_after (initializeOverlay s)
  | ev_destroyOverlay => destroyOverlay s
  | ev_setEnabled b => service_after (setEnabled b s)
  | ev_setPreviewMode b => setPreviewMode b s
  | ev_toggleOverlay => toggleOverlay s
  | ev_showOverlay => showOverlay s
  | ev_hideOverlay => hideOverlay s
  | ev_setOverlayOpacity p => setOverlayOpacity p s
  | ev_setPreviewEnabled b => setPreviewEnabled b s
  | ev_resetPosition => service_after (resetPosition s)
  | ev_didFinishLoad key => didFinishLoad key s
  | ev_replacedDidFinishLoad n => replacedDidFinishLoad n s
  | ev_elapse ms => elapse ms s
  | ev_dragPreview key to => dragPreview key to s
  end.

End Methods.

(** A run: each event with the world it meets. *)
Fixpoint run (trace : list (World * Event)) (s : GameOverlayService)
    : GameOverlayService :=
  match trace with
  | [] => s
  | (w, e) :: rest => run rest (step w e s)
  end.

(** Several calls logged at once. *)
Definition append_calls (cs : list Call) (s : GameOverlayService)
    : GameOverlayService :=
  {| state := state s; windows := windows s;
     previewWindows := previewWindows s; replacedWindows := replacedWindows s;
     overlayWindow := overlayWindow s;
     subscriptions := subscriptions s; calls := calls s ++ cs |}.

(** ** Sample worlds and services used by the concrete checks *)

(** One 1920x1080 display whose task bar takes the bottom 40 pixels. *)
Definition display1080 : Display :=
  {| bounds := {| origin := {| x := 0; y := 0 |};
                  extent := {| width := 1920; height := 1080 |} |};
     workArea := {| origin := {| x := 0; y := 0 |};
                    extent := {| width := 1920; height := 1040 |} |} |}.

Definition world_running : World :=
  {| getAllDisplays := [display1080];
     getMainWindowDisplay := display1080;
     getStatus := Running;
     addHWND := fun key => match key with recentEvents => Some 5%Z | chat => Some 7%Z end |}.

Definition world_stopped : World :=
  {| getAllDisplays := [display1080];
     getMainWindowDisplay := display1080;
     getStatus := Stopped;
     addHWND := fun key => match key with recentEvents => Some 5%Z | chat => Some 7%Z end |}.

(** The compositor rejects the recent-events window, the first of a
    pass. *)
Definition world_rejecting : World :=
  {| getAllDisplays := [display1080];
     getMainWindowDisplay := display1080;
     getStatus := Running;
     addHWND := fun key => match key with recentEvents => Some (-1)%Z | chat => Some 7%Z end |}.

(** A fresh service on the default state, then [setEnabled(true)]. *)
Definition enabled_service : GameOverlayService :=
  service_after (setEnabled world_running true (newService defaultState)).

(** A disabled service whose overlay is still marked as showing, in
    preview mode. *)
Definition disabled_showing : GameOverlayService :=
  newService (TOGGLE_OVERLAY true (SET_PREVIEW_MODE true defaultState)).


(** ** Vocabulary of the statements *)

(** Follows the spec's words: a position "lies within" a rectangle (a
    display's work area), borders included. *)
Definition liesWithin (r : Rectangle) (p : IVec2) : Prop :=
  x (origin r) <= x p <= x (origin r) + width (extent r)
  /\ y (origin r) <= y p <= y (origin r) + height (extent r).

(** What [determineStartPosition] tests: strictly inside, on all four
    sides. *)
Definition strictlyInside (r : Rectangle) (p : IVec2) : Prop :=
  x (origin r) < x p /\ y (origin r) < y p
  /\ x p < x (origin r) + width (extent r)
  /\ y p < y (origin r) + height (extent r).

(** A saved chat position over the task bar of [display1080]: inside the
    display bounds, outside its work area. *)
Definition saved_over_taskbar : GameOverlayService :=
  newService (SET_WINDOW_POSITION chat (Some {| x := 100; y := 1060 |}) defaultState).

(** A saved chat position left over from a display that is gone. *)
Definition saved_off_screen : GameOverlayService :=
  newService (SET_WINDOW_POSITION chat (Some {| x := 2500; y := 300 |}) defaultState).

(** The enabled service after the compositor has accepted both source
    windows: recent events is surface 5, chat is surface 7. *)
Definition registered_service : GameOverlayService :=
  service_after (createWindowOverlays world_running enabled_service).

(** The state holds a surface id for [key]. *)
Definition registered (st : GameOverlayState) (key : OverlayWindowKey) : bool :=
  match id (props st key) with
  | Some _ => true
  | None => false
  end.

(** Every call but an opacity call that names no surface. *)
Definition names_a_surface (c : Call) : bool :=
  match c with
  | overlay_setTransparency None _ => false
  | _ => true
  end.

(** Registration calls in a log. *)
Definition is_addHWND (c : Call) : bool :=
  match c with overlay_addHWND _ => true | _ => false end.

Definition registrations (s : GameOverlayService) : list Call :=
  filter is_addHWND (calls s).

(** A call that is neither a geometry update for an unregistered
    surface nor a change of the bounds of a window of [key]. *)
Definition leaves_alone (key : OverlayWindowKey) (c : Call) : Prop :=
  match c with
  | overlay_setPosition i _ _ _ _ => falsy i = false
  | win_setBounds r _ => r <> sourceWindow key /\ r <> previewWindow key
  | _ => True
  end.

(** Nothing that belongs to [key] differs between [s] and [s']. *)
Definition untouched (key : OverlayWindowKey) (s s' : GameOverlayService) : Prop :=
  props (state s') key = props (state s) key
  /\ lookup key (windows s') = lookup key (windows s)
  /\ lookup key (previewWindows s') = lookup key (previewWindows s)
  /\ exists new, calls s' = calls s ++ new /\ Forall (leaves_alone key) new.

(** The enabled service before any surface is registered, after the
    user has entered preview mode, dragged the chat preview window to
    (10, 10) and left preview mode. *)
Definition dragged_service : GameOverlayService :=
  setPreviewMode false
    (dragPreview chat {| x := 10; y := 10 |}
       (setPreviewMode true enabled_service)).

(** The live overlay and the preview are not both on. *)
Definition exclusive (s : GameOverlayService) : Prop :=
  previewMode (state s) && isShowing (state s) = false.

(** A transparency sent to the compositor is the scaled opacity of [st]. *)
Definition transparency_from (st : GameOverlayState) (c : Call) : Prop :=
  match c with
  | overlay_setTransparency _ v => v = js_mul (opacity st) c2_55
  | _ => True
  end.

(** From [s] to [s'] the opacity is kept and the only transparencies
    sent are the scaled current opacity. *)
Definition quiet (s s' : GameOverlayService) : Prop :=
  opacity (state s') = opacity (state s)
  /\ exists new, calls s' = calls s ++ new
                 /\ Forall (transparency_from (state s)) new.

(** [quiet], and the two flags [isShowing] and [previewMode] are kept. *)
Definition same_core (s s' : GameOverlayService) : Prop :=
  isShowing (state s') = isShowing (state s)
  /\ previewMode (state s') = previewMode (state s)
  /\ quiet s s'.

Definition transparency_in_range (c : Call) : Prop :=
  match c with
  | overlay_setTransparency _ (finite v) => 0 <= v <= 255
  | overlay_setTransparency _ (infinite _) => False
  | _ => True
  end.

(** The bounds of C5: persisted opacity in [0,100], every transparency
    the compositor received in [0,255]. *)
Definition opacity_bounded (s : GameOverlayService) : Prop :=
  0 <= opacity (state s) <= 100
  /\ Forall transparency_in_range (calls s).

(** Every [setOverlayOpacity] of a run is given a percentage in [0,100]. *)
Definition percentages_in_range (trace : list (World * Event)) : Prop :=
  Forall (fun we => match snd we with
                    | ev_setOverlayOpacity p => 0 <= p <= 100
                    | _ => True
                    end) trace.

(** No event of a run is a direct call of [showOverlay]. *)
Definition no_direct_show (trace : list (World * Event)) : Prop :=
  Forall (fun we => snd we <> ev_showOverlay) trace.

(** ** One subscription under signals and time *)

(** What one subscription sees: a window pushed on [onWindowsReady], or
    a millisecond passing. *)
Inductive PipeEvent : Type := pe_next | pe_tick.

(** The subscription, and whether its [complete] handler has run. *)
Definition pipe_step (p : Subscription * bool) (ev : PipeEvent)
    : Subscription * bool :=
  match ev with
  | pe_next => (next (fst p), snd p)
  | pe_tick => (fst (tick_subscription (fst p)),
                snd p || snd (tick_subscription (fst p)))
  end.

Definition pipe_run (evs : list PipeEvent) (sub : Subscription)
    : Subscription * bool :=
  fold_left pipe_step evs (sub, false).

Definition nexts (evs : list PipeEvent) : nat :=
  List.length (filter (fun ev => match ev with pe_next => true | pe_tick => false end) evs).

Definition ticks (evs : list PipeEvent) : nat :=
  List.length (filter (fun ev => match ev with pe_tick => true | pe_next => false end) evs).

(** Where a subscription made with [take(n+1)] stands after [evs]:
    still counting signals; or counting down the delay since the
    (n+1)-th signal; or done, the delay having passed in full. *)
Inductive pipe_phase (n : nat) (evs : list PipeEvent)
    : Subscription * bool -> Prop :=
| phase_counting :
    (nexts evs <= n)%nat ->
    pipe_phase n evs
      ({| takeCount := S n; taken := nexts evs; completeIn := None;
          closed := false |}, false)
| phase_delaying pre post :
    evs = pre ++ pe_next :: post ->
    nexts pre = n ->
    (ticks post < 5000)%nat ->
    pipe_phase n evs
      ({| takeCount := S n; taken := S n;
          completeIn := Some (5000 - N.of_nat (ticks post))%N;
          closed := false |}, false)
| phase_done pre post sub fired :
    evs = pre ++ pe_next :: post ->
    nexts pre = n ->
    (5000 <= ticks post)%nat ->
    closed sub = true ->
    pipe_phase n evs (sub, fired).

(** A fresh service whose persisted state says enabled, right after the
    login that makes its first [initializeOverlay]. *)
Definition first_initialization : GameOverlayService :=
  service_after
    (initializeOverlay world_running (newService (SET_ENABLED true defaultState))).

(** ** Vocabulary of the further properties *)

(** The enabled service with the live overlay showing. *)
Definition showing_service : GameOverlayService :=
  toggleOverlay world_running enabled_service.

(** Both tables hold a window for every key. *)
Definition complete (s : GameOverlayService) : Prop :=
  forall key, lookup key (windows s) <> None
              /\ lookup key (previewWindows s) <> None.

(** The start position that [determineStartPosition] gives for [key]. *)
Definition resolved (w : World) (key : OverlayWindowKey)
    (s : GameOverlayService) : IVec2 :=
  fst (determineStartPosition w key s).

(** The source and the preview window of [key] both have bounds [r], and
    the source window waits for its first [did-finish-load]. *)
Definition placed (key : OverlayWindowKey) (r : Rectangle)
    (s : GameOverlayService) : Prop :=
  exists win pwin,
    lookup key (windows s) = Some win
    /\ lookup key (previewWindows s) = Some pwin
    /\ getBounds win = r
    /\ getBounds pwin = r
    /\ onceDidFinishLoad win = true.

(** The pair of [key] sits where [determineStartPosition] resolves it,
    with the size of its kind. *)
Definition placed_at_start (w : World) (key : OverlayWindowKey)
    (s : GameOverlayService) : Prop :=
  placed key {| origin := resolved w key s; extent := windowSize key |} s.

(** What one accepted registration sends, for the window of [key] as it
    is in [s]: the handle, the geometry (the stored position if there is
    one, else the window's own position), the scaled opacity, the paint
    hook and the frame rate. *)
Definition registration_calls (w : World) (s : GameOverlayService)
    (key : OverlayWindowKey) : list Call :=
  match lookup key (windows s) with
  | Some win =>
      let overlayId := addHWND w key in
      let p := getPosition key win s in
      let sz := extent (getBounds win) in
      [overlay_addHWND key;
       overlay_setPosition overlayId (x p) (y p) (width sz) (height sz);
       overlay_setTransparency overlayId (js_mul (opacity (state s)) c2_55);
       win_onPaint (sourceWindow key) overlayId sz;
       win_setFrameRate (sourceWindow key) 1]
  | None => []
  end.

(** The pair of [key] has been put back at its default place: no stored
    position, both windows at the default rectangle, and the compositor
    told so for surface [i]. *)
Definition reset_done (w : World) (key : OverlayWindowKey) (i : option Z)
    (s : GameOverlayService) : Prop :=
  let d := defaultPosition w key in
  let sz := windowSize key in
  position (props (state s) key) = None
  /\ (exists win pwin,
        lookup key (windows s) = Some win
        /\ lookup key (previewWindows s) = Some pwin
        /\ getBounds win = {| origin := d; extent := sz |}
        /\ getBounds pwin = {| origin := d; extent := sz |})
  /\ In (overlay_setPosition i (x d) (y d) (width sz) (height sz)) (calls s).

(** The service after both surfaces were registered (ids 5 and 7), the
    user then having dragged the chat preview to (10, 10). *)
Definition registered_and_dragged : GameOverlayService :=
  setPreviewMode false
    (dragPreview chat {| x := 10; y := 10 |}
       (setPreviewMode true
          (service_after (createWindowOverlays world_running enabled_service)))).

(** The geometry update that leaving preview mode sends for [key]: the
    key's surface id with the position and size of its preview window. *)
Definition preview_geometry (s : GameOverlayService) (key : OverlayWindowKey)
    : list Call :=
  match lookup key (previewWindows s) with
  | Some win =>
      let pos := getPosition_of win in
      let sz := extent (getBounds win) in
      [overlay_setPosition (id (props (state s) key)) (x pos) (y pos)
         (width sz) (height sz)]
  | None => []
  end.

(** Every subscription has completed or was unsubscribed. *)
Definition all_closed (s : GameOverlayService) : Prop :=
  Forall (fun sub => closed sub = true) (subscriptions s).

(** A run made of window loads and passing time only. *)
Definition environment_only (trace : list (World * Event)) : Prop :=
  Forall (fun we => match snd we with
                    | ev_didFinishLoad _ | ev_replacedDidFinishLoad _
                    | ev_elapse _ => True
                    | _ => False
                    end) trace.

(** The enabled service in preview mode with the chat preview window
    dragged to (10, 10). *)
Definition in_preview_dragged : GameOverlayService :=
  dragPreview chat {| x := 10; y := 10 |} (setPreviewMode true enabled_service).

(** ** Readiness of the source windows *)

(** The source window of [key] exists and its one-shot load listener
    has not run yet. *)
Definition armed (s : GameOverlayService) (key : OverlayWindowKey) : bool :=
  match lookup key (windows s) with
  | Some win => onceDidFinishLoad win
  | None => false
  end.

Definition armed_count (s : GameOverlayService) : nat :=
  List.length (filter (armed s) [recentEvents; chat]).

(** Every source window has signalled its first load. *)
Definition all_signalled (s : GameOverlayService) : Prop :=
  forall key, armed s key = false.

(** No replaced source window has a load listener that still waits. *)
Definition replaced_silent (s : GameOverlayService) : Prop :=
  Forall (fun win => onceDidFinishLoad win = false) (replacedWindows s).

(** No load listener of an earlier initialization still waits, neither
    on a source window the table holds nor on a replaced one. *)
Definition no_listener_waiting (s : GameOverlayService) : Prop :=
  all_signalled s /\ replaced_silent s.

(** The replaced source windows are the same in [s'] as in [s]. *)
Definition same_replaced (s s' : GameOverlayService) : Prop :=
  replacedWindows s' = replacedWindows s.

(** Milliseconds that pass in a run. *)
Fixpoint elapsed (trace : list (World * Event)) : N :=
  match trace with
  | [] => 0
  | (_, ev_elapse ms) :: rest => ms + elapsed rest
  | _ :: rest => elapsed rest
  end.

(** Where the readiness pipeline of the newest subscription stands in
    [s], reached from [s1] by [trace]: still counting load signals; or,
    all source windows having signalled at the end of [pre], counting
    down the delay; or done, the whole delay having passed since. *)
Inductive ready_phase (s1 : GameOverlayService) (trace : list (World * Event))
    (s : GameOverlayService) : Prop :=
| ready_counting head rest :
    subscriptions s = head :: rest ->
    closed head = false ->
    completeIn head = None ->
    Forall (fun sub => closed sub = true) rest ->
    (taken head + armed_count s <= takeCount head)%nat ->
    replaced_silent s ->
    registrations s = registrations s1 ->
    ready_phase s1 trace s
| ready_delaying pre post head rest :
    trace = pre ++ post ->
    all_signalled (run pre s1) ->
    (elapsed post < 5000)%N ->
    subscriptions s = head :: rest ->
    closed head = false ->
    completeIn head = Some (5000 - elapsed post)%N ->
    Forall (fun sub => closed sub = true) rest ->
    all_signalled s ->
    replaced_silent s ->
    registrations s = registrations s1 ->
    ready_phase s1 trace s
| ready_done pre post :
    trace = pre ++ post ->
    all_signalled (run pre s1) ->
    (5000 <= elapsed post)%N ->
    all_closed s ->
    ready_phase s1 trace s.

(** The enabled service torn down at logout: both window tables still
    hold their two keys. *)
Definition logged_out_service : GameOverlayService :=
  destroyOverlay enabled_service.

(** A whole session: the service is enabled, both source windows load,
    six seconds pass, and the user logs out. *)
Definition session_over : GameOverlayService :=
  destroyOverlay
    (run [(world_running, ev_didFinishLoad recentEvents);
          (world_running, ev_didFinishLoad chat);
          (world_running, ev_elapse 6000)]
       enabled_service).

(** The first initialization of a service, left alone for five seconds:
    its surfaces are registered, its source windows have not loaded. *)
Definition registered_unloaded : GameOverlayService :=
  elapse world_running 5000 first_initialization.

(** [initializeOverlay()] again on that service; then the two windows
    it replaced finish loading, and five seconds pass. *)
Definition reinitialized_early : GameOverlayService :=
  run [(world_running, ev_replacedDidFinishLoad 0);
       (world_running, ev_replacedDidFinishLoad 1);
       (world_running, ev_elapse 5000)]
    (service_after (initializeOverlay world_running registered_unloaded)).

(** Both window tables have the same keys, in the same order, in [s']
    as in [s]. *)
Definition same_keys (s s' : GameOverlayService) : Prop :=
  keys (windows s') = keys (windows s)
  /\ keys (previewWindows s') = keys (previewWindows s).

(** The write that [determineStartPosition] makes to the persisted
    state: none when the saved position of [key] is inside a display,
    else the position is cleared. *)
Definition settle (w : World) (key : OverlayWindowKey) (st : GameOverlayState)
    : GameOverlayState :=
  match position (props st key) with
  | Some pos =>
      match find (insideBounds pos) (getAllDisplays w) with
      | Some _ => st
      | None => SET_WINDOW_POSITION key None st
      end
  | None => SET_WINDOW_POSITION key None st
  end.

(** The saved position of [key] if it is still on a display. *)
Definition kept_position (w : World) (st : GameOverlayState)
    (key : OverlayWindowKey) : option IVec2 :=
  match position (props st key) with
  | Some pos =>
      match find (insideBounds pos) (getAllDisplays w) with
      | Some _ => Some pos
      | None => None
      end
  | None => None
  end.
(** * Properties *)

Lemma Qltb_lt (a b : Q) : Qltb a b = true <-> a < b.
Proof.
  unfold Qltb. rewrite Qlt_alt. destruct (a ?= b); split; congruence.
Qed.

Lemma key_eqb_eq (a b : OverlayWindowKey) : key_eqb a b = true <-> a = b.
Proof. destruct a, b; simpl; split; congruence. Qed.

Lemma key_eqb_refl (a : OverlayWindowKey) : key_eqb a a = true.
Proof. now destruct a. Qed.

Lemma key_eqb_neq (a b : OverlayWindowKey) : a <> b -> key_eqb a b = false.
Proof. destruct a, b; simpl; congruence. Qed.

Lemma append_calls_nil (s : GameOverlayService) : append_calls [] s = s.
Proof. destruct s; unfold append_calls; simpl. now rewrite app_nil_r. Qed.

Lemma append_calls_app (cs ds : list Call) (s : GameOverlayService) :
  append_calls ds (append_calls cs s) = append_calls (cs ++ ds) s.
Proof. unfold append_calls; simpl. now rewrite app_assoc. Qed.

Lemma call_append (c : Call) (s : GameOverlayService) :
  call c s = append_calls [c] s.
Proof. reflexivity. Qed.

(** A loop that only logs one call per element, computed from the
    persisted state, logs the mapped list. *)
Lemma fold_left_call {K} (g : GameOverlayState -> K -> Call) (ks : list K)
    (s : GameOverlayService) :
  fold_left (fun s' k => call (g (state s') k) s') ks s
  = append_calls (map (g (state s)) ks) s.
Proof.
  revert s. induction ks as [|k ks IH]; intros s; simpl.
  - now rewrite append_calls_nil.
  - rewrite IH. rewrite call_append, append_calls_app. reflexivity.
Qed.

(** ** toggleOverlay, setPreviewMode and destroyOverlay on a disabled or
       stopped subsystem *)

(** C6. When the compositor status is not "running", or the subsystem is
    disabled, [toggleOverlay()] returns at its guard: the whole service,
    hence the whole persisted state, is unchanged and nothing is sent to
    the compositor. *)
Theorem C6_toggleOverlay_refused_is_noop (w : World) (s : GameOverlayService) :
  getStatus w <> Running \/ isEnabled (state s) = false ->
  toggleOverlay w s = s
  /\ state (toggleOverlay w s) = state s
  /\ calls (toggleOverlay w s) = calls s.
Proof.
  intros H.
  assert (E : toggleOverlay w s = s).
  { unfold toggleOverlay. destruct H as [H | H].
    - destruct (getStatus w); [congruence | reflexivity].
    - rewrite H. simpl. now rewrite orb_true_r. }
  now rewrite E.
Qed.

Lemma C6_witness :
  toggleOverlay world_stopped enabled_service = enabled_service
  /\ state (toggleOverlay world_stopped enabled_service) = state enabled_service
  /\ calls (toggleOverlay world_stopped enabled_service) = calls enabled_service.
Proof.
  apply (C6_toggleOverlay_refused_is_noop world_stopped enabled_service).
  left. simpl. discriminate.
Defined.

(** C10. With [isEnabled = false], [setPreviewMode(b)] returns before
    [SET_PREVIEW_MODE]: [previewMode] keeps its value.  The hide that
    precedes the guard still runs: [isShowing] is false afterwards, and
    when it was true the compositor was told to hide. *)
Theorem C10_setPreviewMode_disabled (b : bool) (s : GameOverlayService) :
  isEnabled (state s) = false ->
  previewMode (state (setPreviewMode b s)) = previewMode (state s)
  /\ isShowing (state (setPreviewMode b s)) = false
  /\ (isShowing (state s) = true ->
      calls (setPreviewMode b s) = calls s ++ [overlay_hide]).
Proof.
  intros H. unfold setPreviewMode, setPreviewMode_resume, setPreviewMode_sync.
  destruct (isShowing (state s)) eqn:Hs; repeat (simpl; rewrite ?H).
  - repeat split.
  - rewrite Hs. repeat split. discriminate.
Qed.

Lemma C10_witness :
  previewMode (state (setPreviewMode false disabled_showing)) = true
  /\ isShowing (state (setPreviewMode false disabled_showing)) = false
  /\ (isShowing (state disabled_showing) = true ->
      calls (setPreviewMode false disabled_showing) = [] ++ [overlay_hide]).
Proof.
  apply (C10_setPreviewMode_disabled false disabled_showing). reflexivity.
Defined.

(** C9. [destroyOverlay()] ends with [SET_PREVIEW_MODE(false)] and
    [TOGGLE_OVERLAY(false)] whatever the state.  With [isEnabled = false]
    the guarded block is skipped: no call is made (no compositor stop, no
    window destroyed), the subscription and both window tables are as
    before, and the two flags are reset all the same. *)
Theorem C9_destroyOverlay_resets_flags (s : GameOverlayService) :
  previewMode (state (destroyOverlay s)) = false
  /\ isShowing (state (destroyOverlay s)) = false
  /\ (isEnabled (state s) = false ->
      calls (destroyOverlay s) = calls s
      /\ subscriptions (destroyOverlay s) = subscriptions s
      /\ windows (destroyOverlay s) = windows s
      /\ previewWindows (destroyOverlay s) = previewWindows s
      /\ state (destroyOverlay s)
         = TOGGLE_OVERLAY false (SET_PREVIEW_MODE false (state s))).
Proof.
  unfold destroyOverlay. repeat split.
  all: rewrite H; reflexivity.
Qed.

Lemma C9_witness :
  previewMode (state (destroyOverlay disabled_showing)) = false
  /\ isShowing (state (destroyOverlay disabled_showing)) = false
  /\ calls (destroyOverlay disabled_showing) = calls disabled_showing.
Proof.
  destruct (C9_destroyOverlay_resets_flags disabled_showing) as (Hp & Hs & Hd).
  destruct (Hd eq_refl) as (Hc & _).
  repeat split; assumption.
Defined.

(** ** Binary64 products *)

Lemma round_half_even_bounds (q : Q) (N : Z) :
  0 <= q -> q <= inject_Z N ->
  (0 <= round_half_even q <= N)%Z.
Proof.
  intros H0 HN. unfold round_half_even.
  assert (Hf0 : (0 <= Qfloor q)%Z).
  { change 0%Z with (Qfloor 0). now apply Qfloor_resp_le. }
  assert (HfN : (Qfloor q <= N)%Z).
  { rewrite <- (Qfloor_Z N). now apply Qfloor_resp_le. }
  destruct (Qcompare_spec (q - inject_Z (Qfloor q)) (1 # 2)) as [E | E | E].
  - destruct (Z.even (Qfloor q)); [lia|].
    destruct (Z.eq_dec (Qfloor q) N) as [Heq | Hne]; [|lia].
    exfalso. rewrite Heq in E. revert E HN. generalize (inject_Z N). intros; lra.
  - lia.
  - destruct (Z.eq_dec (Qfloor q) N) as [Heq | Hne]; [|lia].
    exfalso. rewrite Heq in E. revert E HN. generalize (inject_Z N). intros; lra.
Qed.

Lemma floor_log2_le (a : Q) (b : Z) :
  0 < a -> a <= inject_Z (2 ^ b) -> (0 <= b)%Z -> (floor_log2 a <= b)%Z.
Proof.
  intros Ha Hab Hb. destruct a as [n d]. unfold floor_log2. simpl Qnum. simpl Qden.
  assert (Hn : (0 < n)%Z).
  { unfold Qlt in Ha. simpl in Ha. lia. }
  assert (Hle : (n <= Z.pos d * 2 ^ b)%Z).
  { unfold Qle in Hab. simpl in Hab. lia. }
  assert (Hlog : (Z.log2 n <= b + Z.log2 (Z.pos d))%Z).
  { rewrite <- Z.log2_mul_pow2 by lia. now apply Z.log2_le_mono. }
  destruct (Qle_bool _ _); lia.
Qed.

(** Rounding is monotone at the integers below [2^52]: a number between
    0 and such an integer rounds to a finite double between them. *)
Lemma round64_bounded (x : Q) (B : Z) :
  0 <= x -> x <= inject_Z B -> (0 <= B <= 2 ^ 52)%Z ->
  exists v, round64 x = finite v /\ 0 <= v /\ v <= inject_Z B.
Proof.
  intros H0 HB HBr. unfold round64.
  destruct x as [[|n|n] d]; cbn [Qnum].
  - exists 0. split; [reflexivity|]. split; [lra|].
    unfold Qle. simpl. lia.
  - change (Qabs (Z.pos n # d)) with (Z.pos n # d).
    set (x := Z.pos n # d) in *.
    assert (Hpos : 0 < x) by (unfold Qlt; simpl; lia).
    set (e := Z.max (floor_log2 x - 52) (-1074)).
    assert (He : (e <= 0)%Z).
    { assert (floor_log2 x <= 52)%Z; [|lia].
      apply floor_log2_le; [exact Hpos | | lia].
      apply Qle_trans with (inject_Z B); [exact HB|].
      rewrite <- Zle_Qle. lia. }
    set (P := (2 ^ (- e))%Z).
    assert (HP : (0 < P)%Z) by (apply Z.pow_pos_nonneg; lia).
    assert (HPq : 0 < inject_Z P) by (unfold Qlt; simpl; lia).
    assert (Hscaled : mul_pow2 x (- e) == x * inject_Z P).
    { unfold mul_pow2. destruct (Z.leb_spec 0 (- e)); [reflexivity | lia]. }
    set (m := round_half_even (mul_pow2 x (- e))).
    assert (Hm : (0 <= m <= B * P)%Z).
    { apply round_half_even_bounds.
      - rewrite Hscaled. apply Qmult_le_0_compat; lra.
      - rewrite Hscaled, inject_Z_mult. apply Qmult_le_compat_r; lra. }
    assert (Hv : mul_pow2 (inject_Z m) e == inject_Z m / inject_Z P).
    { unfold mul_pow2. destruct (Z.leb_spec 0 e) as [Hge | Hlt].
      - assert (e = 0%Z) by lia. subst P. replace (- e)%Z with 0%Z by lia.
        replace e with 0%Z by lia. simpl. field.
      - reflexivity. }
    assert (Hv0 : 0 <= mul_pow2 (inject_Z m) e).
    { rewrite Hv. apply Qle_shift_div_l; [exact HPq|].
      rewrite Qmult_0_l. unfold Qle. simpl. lia. }
    assert (HvB : mul_pow2 (inject_Z m) e <= inject_Z B).
    { rewrite Hv. apply Qle_shift_div_r; [exact HPq|].
      rewrite <- inject_Z_mult, <- Zle_Qle. lia. }
    destruct (Qle_bool (inject_Z (2 ^ 1024)) (mul_pow2 (inject_Z m) e)) eqn:Hover.
    + exfalso. apply Qle_bool_iff in Hover.
      assert (inject_Z B < inject_Z (2 ^ 1024)).
      { rewrite <- Zlt_Qlt.
        apply Z.le_lt_trans with (2 ^ 52)%Z; [lia|].
        apply Z.pow_lt_mono_r; lia. }
      lra.
    + eexists. split; [reflexivity|]. rewrite Qred_correct. split; assumption.
  - exfalso. unfold Qle in H0. simpl in H0. lia.
Qed.

(** The literal [2.55] denotes [c2_55]. *)
Lemma c2_55_is_the_literal : round64 2.55 = finite c2_55.
Proof. vm_compute. reflexivity. Qed.

(** On every percentage from -100 to 100 in steps of a sixteenth,
    [js_mul] gives the number that the binary64 multiplication of the
    Standard Library gives; so it does at the two ends of the binary64
    range, where the product overflows ([2^1023 * 2.55]) and where it is
    subnormal ([2^-1074 * 2.55]). *)
Lemma js_mul_agrees_with_binary64 :
  forallb (fun n => same_number (binary64_times_2_55 (binary64_sixteenths n))
                      (js_mul (n # 16) c2_55))
    sixteenths = true
  /\ same_number (binary64_times_2_55 (FloatOps.Z.ldexp PrimFloat.one 1023))
       (js_mul (inject_Z (2 ^ 1023)) c2_55) = true
  /\ js_mul (inject_Z (2 ^ 1023)) c2_55 = infinite false
  /\ same_number (binary64_times_2_55 (FloatOps.Z.ldexp PrimFloat.one (-1074)))
       (js_mul (1 / inject_Z (2 ^ 1074)) c2_55) = true.
Proof.
  split; [vm_compute; reflexivity|].
  split; [vm_compute; reflexivity|].
  split; vm_compute; reflexivity.
Qed.

(** The products the statements below name: 50 * 2.55 is the double
    127.49999999999999, 100 * 2.55 is 254.99999999999997, 150 * 2.55 is
    382.5, and a percentage of 10^308 overflows. *)
Lemma js_mul_samples :
  js_mul 50 c2_55 = finite (8972014882652159 # 70368744177664)
  /\ js_mul 100 c2_55 = finite (8972014882652159 # 35184372088832)
  /\ js_mul 150 c2_55 = finite (765 # 2)
  /\ js_mul (inject_Z (10 ^ 308)) c2_55 = infinite false.
Proof. repeat split; vm_compute; reflexivity. Qed.

(** ** setOverlayOpacity *)

Lemma setOverlayOpacity_unfold (percentage : Q) (s : GameOverlayService) :
  setOverlayOpacity percentage s
  = append_calls
      (if isEnabled (state s)
       then map (fun key =>
                   overlay_setTransparency (id (props (state s) key))
                     (js_mul percentage c2_55))
                (keys (windows s))
       else [])
      (with_state (SET_OPACITY percentage) s).
Proof.
  unfold setOverlayOpacity.
  change (isEnabled (state (with_state (SET_OPACITY percentage) s)))
    with (isEnabled (state s)).
  destruct (isEnabled (state s)); simpl negb; cbv iota.
  - rewrite (fold_left_call
               (fun st key => overlay_setTransparency (id (props st key))
                                (js_mul percentage c2_55))).
    reflexivity.
  - now rewrite append_calls_nil.
Qed.

Lemma filter_map_swap {A B} (p : B -> bool) (f : A -> B) (l : list A) :
  filter p (map f l) = map f (filter (fun a => p (f a)) l).
Proof.
  induction l as [|a l IH]; simpl; [reflexivity|].
  destruct (p (f a)); simpl; now rewrite IH.
Qed.

(** C4, as the code has it.  [setOverlayOpacity(p)] persists
    [opacity = p].  When enabled it calls the compositor's opacity
    function once for every key of [this.windows] whose surface id is
    set, in table order, with that id and with the binary64 product
    [p * 2.55] as it is, not rounded to an integer: for [p = 50] the
    double 127.49999999999999, which is [8972014882652159 / 2^46].
    These are all the calls it makes that name a surface.  When disabled
    it makes no call at all.  What it does for a key whose id is [null]
    is left open here. *)
Theorem C4_setOverlayOpacity_calls_registered_surfaces (percentage : Q)
    (s : GameOverlayService) :
  state (setOverlayOpacity percentage s) = SET_OPACITY percentage (state s)
  /\ opacity (state (setOverlayOpacity percentage s)) = percentage
  /\ (exists new,
        calls (setOverlayOpacity percentage s) = calls s ++ new
        /\ filter names_a_surface new
           = (if isEnabled (state s)
              then map (fun key =>
                          overlay_setTransparency (id (props (state s) key))
                            (js_mul percentage c2_55))
                       (filter (registered (state s)) (keys (windows s)))
              else [])
        /\ (isEnabled (state s) = false -> new = []))
  /\ js_mul 50 c2_55 = finite (8972014882652159 # 70368744177664).
Proof.
  rewrite setOverlayOpacity_unfold.
  split; [reflexivity|]. split; [reflexivity|].
  split; [|vm_compute; reflexivity].
  eexists. split; [reflexivity|]. split.
  - destruct (isEnabled (state s)); [|reflexivity].
    rewrite filter_map_swap. reflexivity.
  - now intros ->.
Qed.

(** C4 as stated fails: on the enabled service with both surfaces
    registered, [setOverlayOpacity(50)] sends the compositor neither 127
    nor 128 but the unrounded double 127.49999999999999, for surface 5
    and for surface 7. *)
Lemma C4_counterexample :
  isEnabled (state registered_service) = true
  /\ id (props (state registered_service) recentEvents) = Some 5%Z
  /\ id (props (state registered_service) chat) = Some 7%Z
  /\ calls (setOverlayOpacity 50 registered_service)
     = calls registered_service
       ++ [overlay_setTransparency (Some 5%Z)
             (finite (8972014882652159 # 70368744177664));
           overlay_setTransparency (Some 7%Z)
             (finite (8972014882652159 # 70368744177664))]
  /\ ~ (8972014882652159 # 70368744177664) == 127
  /\ ~ (8972014882652159 # 70368744177664) == 128
  /\ 127 < (8972014882652159 # 70368744177664) < 127.5.
Proof.
  split; [reflexivity|]. split; [reflexivity|]. split; [reflexivity|].
  split; [vm_compute; reflexivity|].
  unfold Qeq, Qlt. simpl. lia.
Qed.

(** ** determineStartPosition *)

Lemma insideBounds_spec (pos : IVec2) (d : Display) :
  insideBounds pos d = true <-> strictlyInside (bounds d) pos.
Proof.
  unfold insideBounds, strictlyInside.
  rewrite !andb_true_iff, !Qltb_lt. tauto.
Qed.

Lemma find_insideBounds (pos : IVec2) (ds : list Display) :
  (exists d, find (insideBounds pos) ds = Some d)
  <-> exists d, In d ds /\ strictlyInside (bounds d) pos.
Proof.
  split.
  - intros [d Hd]. apply find_some in Hd. exists d.
    now rewrite <- insideBounds_spec.
  - intros (d & Hin & Hd). apply insideBounds_spec in Hd.
    destruct (find (insideBounds pos) ds) as [d'|] eqn:E; [now exists d'|].
    pose proof (find_none _ _ E d Hin). congruence.
Qed.

Lemma props_set_props_same (key : OverlayWindowKey) (p : WindowProps)
    (st : GameOverlayState) :
  props (with_windowProperties (set_props key p (windowProperties st)) st) key = p.
Proof. now destruct key. Qed.

Lemma props_set_props_other (key other : OverlayWindowKey) (p : WindowProps)
    (st : GameOverlayState) :
  other <> key ->
  props (with_windowProperties (set_props key p (windowProperties st)) st) other
  = props st other.
Proof. destruct key, other; simpl; congruence. Qed.

Lemma SET_WINDOW_POSITION_twice (key : OverlayWindowKey) (p : option IVec2)
    (st : GameOverlayState) :
  SET_WINDOW_POSITION key p (SET_WINDOW_POSITION key p st)
  = SET_WINDOW_POSITION key p st.
Proof. now destruct key. Qed.

Lemma determineStartPosition_fallback (w : World) (key : OverlayWindowKey)
    (s : GameOverlayService) :
  (forall pos, position (props (state s) key) = Some pos ->
               find (insideBounds pos) (getAllDisplays w) = None) ->
  determineStartPosition w key s
  = (defaultPosition w key, with_state (SET_WINDOW_POSITION key None) s).
Proof.
  intros H. unfold determineStartPosition.
  destruct (position (props (state s) key)) as [pos|]; [|reflexivity].
  now rewrite (H pos eq_refl).
Qed.

(** C7, as the code has it.  A saved position is accepted exactly when
    it is strictly inside the bounds (not the work area) of some attached
    display; then it is returned and nothing is written.  Otherwise, and
    when no position is saved, the stored position of the key is set to
    [null] and the default is returned: with [h] the height of the work
    area of the main window's display, [(h/2 + 200, h/2 - 300)] for chat
    and the same moved 600 to the left for recent events; asking again
    gives the same default and changes nothing more. *)
Theorem C7_determineStartPosition (w : World) (key : OverlayWindowKey)
    (s : GameOverlayService) :
  (forall pos, position (props (state s) key) = Some pos ->
     (determineStartPosition w key s = (pos, s)
      <-> exists d, In d (getAllDisplays w) /\ strictlyInside (bounds d) pos))
  /\ ((forall pos, position (props (state s) key) = Some pos ->
         ~ exists d, In d (getAllDisplays w) /\ strictlyInside (bounds d) pos) ->
      let s' := with_state (SET_WINDOW_POSITION key None) s in
      determineStartPosition w key s = (defaultPosition w key, s')
      /\ position (props (state s') key) = None
      /\ determineStartPosition w key s' = (defaultPosition w key, s'))
  /\ (let h := height (extent (workArea (getMainWindowDisplay w))) in
      defaultPosition w chat = {| x := h / 2 + 200; y := h / 2 - 300 |}
      /\ defaultPosition w recentEvents
         = {| x := h / 2 + 200 - 600; y := h / 2 - 300 |}).
Proof.
  split; [|split].
  - intros pos Hpos. rewrite <- find_insideBounds. split.
    + intros E. unfold determineStartPosition in E. rewrite Hpos in E.
      destruct (find (insideBounds pos) (getAllDisplays w)) as [d|]; [now exists d|].
      exfalso. injection E as _ E.
      apply (f_equal (fun s0 => position (props (state s0) key))) in E.
      simpl in E. unfold SET_WINDOW_POSITION in E.
      rewrite props_set_props_same in E. simpl in E. congruence.
    + intros [d Hd]. unfold determineStartPosition. now rewrite Hpos, Hd.
  - intros Hrej s'.
    assert (Hnone : position (props (state s') key) = None).
    { subst s'. simpl. unfold SET_WINDOW_POSITION.
      now rewrite props_set_props_same. }
    repeat split.
    + apply determineStartPosition_fallback. intros pos Hpos.
      destruct (find (insideBounds pos) (getAllDisplays w)) as [d|] eqn:E;
        [|reflexivity].
      exfalso. apply (Hrej pos Hpos). apply find_insideBounds. now exists d.
    + exact Hnone.
    + rewrite determineStartPosition_fallback by (intros pos; congruence).
      f_equal. subst s'. unfold with_state. simpl.
      now rewrite SET_WINDOW_POSITION_twice.
  - split; reflexivity.
Qed.

Lemma C7_witness :
  determineStartPosition world_running chat saved_off_screen
  = (defaultPosition world_running chat,
     with_state (SET_WINDOW_POSITION chat None) saved_off_screen)
  /\ position (props (state (with_state (SET_WINDOW_POSITION chat None)
                               saved_off_screen)) chat) = None
  /\ determineStartPosition world_running chat
       (with_state (SET_WINDOW_POSITION chat None) saved_off_screen)
     = (defaultPosition world_running chat,
        with_state (SET_WINDOW_POSITION chat None) saved_off_screen).
Proof.
  destruct (C7_determineStartPosition world_running chat saved_off_screen)
    as (_ & H & _).
  apply H. intros pos Hpos (d & Hin & Hd).
  simpl in Hpos. injection Hpos as <-.
  destruct Hin as [<- | []].
  unfold strictlyInside in Hd. simpl in Hd. lra.
Defined.

(** C7 as stated fails: the saved position (100, 1060) lies in no
    display's work area (the only display's work area ends at y = 1040),
    yet it is accepted, being inside the display's bounds. *)
Lemma C7_counterexample :
  position (props (state saved_over_taskbar) chat) = Some {| x := 100; y := 1060 |}
  /\ determineStartPosition world_running chat saved_over_taskbar
     = ({| x := 100; y := 1060 |}, saved_over_taskbar)
  /\ ~ exists d, In d (getAllDisplays world_running)
                 /\ liesWithin (workArea d) {| x := 100; y := 1060 |}.
Proof.
  repeat split.
  intros (d & Hin & Hd). destruct Hin as [<- | []].
  unfold liesWithin in Hd. simpl in Hd. lra.
Qed.

(** ** createWindowOverlays *)

Lemma lookup_keys {A} (key : OverlayWindowKey) (t : Table A) :
  In key (keys t) -> exists v, lookup key t = Some v.
Proof.
  induction t as [|[k v] t IH]; simpl; [tauto|].
  intros [E | Hin].
  - subst k. rewrite key_eqb_refl. now exists v.
  - destruct (key_eqb key k); [now exists v | now apply IH].
Qed.

Lemma registrations_call (c : Call) (s : GameOverlayService) :
  registrations (call c s)
  = registrations s ++ (if is_addHWND c then [c] else []).
Proof.
  unfold registrations, call. simpl. rewrite filter_app. simpl.
  now destruct (is_addHWND c).
Qed.

(** A window the compositor accepts: one registration, one
    [SET_WINDOW_ID], and the loop goes on. *)
Lemma createWindowOverlay_accepted (w : World) (key : OverlayWindowKey)
    (s : GameOverlayService) :
  In key (keys (windows s)) ->
  invalidId (addHWND w key) = false ->
  exists s',
    createWindowOverlay w key s = Returned tt s'
    /\ windows s' = windows s
    /\ state s' = SET_WINDOW_ID key (addHWND w key) (state s)
    /\ registrations s' = registrations s ++ [overlay_addHWND key].
Proof.
  intros Hin Hok. destruct (lookup_keys key (windows s) Hin) as [win Hwin].
  unfold createWindowOverlay, bind, gets, modify. rewrite Hwin, Hok.
  eexists. split; [reflexivity|]. repeat split.
  unfold registrations. simpl. rewrite <- !app_assoc, filter_app. reflexivity.
Qed.

(** A window the compositor rejects: the registration was attempted,
    nothing is stored, and the callback throws. *)
Lemma createWindowOverlay_rejected (w : World) (key : OverlayWindowKey)
    (s : GameOverlayService) :
  In key (keys (windows s)) ->
  invalidId (addHWND w key) = true ->
  exists e s',
    createWindowOverlay w key s = Thrown e s'
    /\ state s' = state s
    /\ registrations s' = registrations s ++ [overlay_addHWND key].
Proof.
  intros Hin Hbad. destruct (lookup_keys key (windows s) Hin) as [win Hwin].
  unfold createWindowOverlay, bind, gets, modify, overlayWindow_hide, throw.
  rewrite Hwin, Hbad. simpl.
  destruct (overlayWindow s); do 2 eexists; (split; [reflexivity|]); split;
    try reflexivity.
  - rewrite !registrations_call. simpl. now rewrite app_nil_r.
  - now rewrite registrations_call.
Qed.

Lemma forEach_createWindowOverlay_stops (w : World)
    (before after : list OverlayWindowKey) (key : OverlayWindowKey) :
  forall s : GameOverlayService,
  (forall k, In k (before ++ key :: after) -> In k (keys (windows s))) ->
  (forall k, In k before -> invalidId (addHWND w k) = false) ->
  invalidId (addHWND w key) = true ->
  let o := forEach (before ++ key :: after) (createWindowOverlay w) s in
  threw o = true
  /\ registrations (service_after o)
     = registrations s ++ map overlay_addHWND (before ++ [key])
  /\ state (service_after o)
     = fold_left (fun st k => SET_WINDOW_ID k (addHWND w k) st) before (state s).
Proof.
  induction before as [|k before IH]; intros s Hkeys Hok Hbad; simpl.
  - destruct (createWindowOverlay_rejected w key s) as (e & s' & E & Hst & Hreg);
      [apply Hkeys; now left | assumption |].
    unfold bind. rewrite E. simpl. auto.
  - destruct (createWindowOverlay_accepted w k s) as (s' & E & Hwin & Hst & Hreg);
      [apply Hkeys; now left | apply Hok; now left |].
    unfold bind. rewrite E.
    destruct (IH s') as (Ht & Hr & Hs).
    + intros k' Hk'. rewrite Hwin. apply Hkeys. now right.
    + intros k' Hk'. apply Hok. now right.
    + assumption.
    + simpl in Ht, Hr, Hs. rewrite Ht, Hr, Hs, Hreg, Hst.
      rewrite <- app_assoc. auto.
Qed.

(** Without the assumption on the earlier windows: the pass ends at the
    first rejected window, which is [key] or comes before it. *)
Lemma forEach_createWindowOverlay_prefix (w : World)
    (before after : list OverlayWindowKey) (key : OverlayWindowKey) :
  forall s : GameOverlayService,
  (forall k, In k (before ++ key :: after) -> In k (keys (windows s))) ->
  invalidId (addHWND w key) = true ->
  let o := forEach (before ++ key :: after) (createWindowOverlay w) s in
  threw o = true
  /\ exists n,
       (n <= List.length before)%nat
       /\ registrations (service_after o)
          = registrations s
            ++ map overlay_addHWND (firstn (S n) (before ++ key :: after))
       /\ state (service_after o)
          = fold_left (fun st k => SET_WINDOW_ID k (addHWND w k) st)
              (firstn n (before ++ key :: after)) (state s).
Proof.
  induction before as [|k before IH]; intros s Hkeys Hbad.
  - destruct (forEach_createWindowOverlay_stops w [] after key s Hkeys)
      as (Ht & Hr & Hs); [intros k [] | assumption |].
    split; [exact Ht|]. exists 0%nat. repeat split; [lia | exact Hr | exact Hs].
  - destruct (invalidId (addHWND w k)) eqn:Hk.
    + destruct (forEach_createWindowOverlay_stops w [] (before ++ key :: after) k s)
        as (Ht & Hr & Hs); [exact Hkeys | intros k' [] | assumption |].
      split; [exact Ht|]. exists 0%nat.
      repeat split; [simpl; lia | exact Hr | exact Hs].
    + destruct (createWindowOverlay_accepted w k s) as (s' & E & Hwin & Hst & Hreg);
        [apply Hkeys; now left | assumption |].
      destruct (IH s') as (Ht & n & Hn & Hr & Hs).
      * intros k' Hk'. rewrite Hwin. apply Hkeys. now right.
      * assumption.
      * simpl. unfold bind. rewrite E. split; [exact Ht|].
        exists (S n). repeat split.
        -- simpl. lia.
        -- simpl in Hr. rewrite Hr, Hreg, <- app_assoc. reflexivity.
        -- simpl in Hs. rewrite Hs, Hst. reflexivity.
Qed.

(** C8. If the compositor returns an invalid id ([-1] or [null]) for
    some window, then [createWindowOverlays()] throws, and the windows
    offered to the compositor in the pass are a prefix of the windows that
    ends at that window or before it: no later one is registered, and
    [SET_WINDOW_ID] was applied only to the windows of the prefix but its
    last.  When every earlier window was accepted, the prefix ends at
    that very window. *)
Theorem C8_createWindowOverlays_stops_at_invalid_id (w : World)
    (s : GameOverlayService) (before after : list OverlayWindowKey)
    (key : OverlayWindowKey) :
  keys (windows s) = before ++ key :: after ->
  invalidId (addHWND w key) = true ->
  threw (createWindowOverlays w s) = true
  /\ (exists n,
        (n <= List.length before)%nat
        /\ registrations (service_after (createWindowOverlays w s))
           = registrations s
             ++ map overlay_addHWND (firstn (S n) (keys (windows s)))
        /\ state (service_after (createWindowOverlays w s))
           = fold_left (fun st k => SET_WINDOW_ID k (addHWND w k) st)
               (firstn n (keys (windows s))) (state s))
  /\ ((forall k, In k before -> invalidId (addHWND w k) = false) ->
      registrations (service_after (createWindowOverlays w s))
      = registrations s ++ map overlay_addHWND (before ++ [key])
      /\ state (service_after (createWindowOverlays w s))
         = fold_left (fun st k => SET_WINDOW_ID k (addHWND w k) st)
             before (state s)).
Proof.
  intros Hkeys Hbad.
  assert (Hin : forall k, In k (before ++ key :: after) -> In k (keys (windows s)))
    by (intros k Hk; now rewrite Hkeys).
  unfold createWindowOverlays, bind, gets. rewrite Hkeys.
  destruct (forEach_createWindowOverlay_prefix w before after key s Hin Hbad)
    as (Ht & Hex).
  split; [exact Ht|]. split; [exact Hex|].
  intros Hok.
  now destruct (forEach_createWindowOverlay_stops w before after key s Hin Hok Hbad)
    as (_ & Hr & Hs).
Qed.

(** The compositor rejects the first window of the pass: the second is
    never offered to it and no id is stored. *)
Lemma C8_witness :
  threw (createWindowOverlays world_rejecting enabled_service) = true
  /\ registrations
       (service_after (createWindowOverlays world_rejecting enabled_service))
     = registrations enabled_service
       ++ map overlay_addHWND ([] ++ [recentEvents])
  /\ state (service_after (createWindowOverlays world_rejecting enabled_service))
     = fold_left (fun st k => SET_WINDOW_ID k (addHWND world_rejecting k) st)
         [] (state enabled_service).
Proof.
  destruct (C8_createWindowOverlays_stops_at_invalid_id
              world_rejecting enabled_service [] [chat] recentEvents
              eq_refl eq_refl) as (Ht & _ & Hexact).
  destruct (Hexact (fun k (H : In k []) => match H with end)) as (Hr & Hs).
  split; [exact Ht|]. split; [exact Hr | exact Hs].
Defined.

(** ** Loops in the exception monad *)

Section Loop.

Context {A : Type} (f : A -> M unit).
Variable P : GameOverlayService -> Prop.
Variable R : GameOverlayService -> GameOverlayService -> Prop.

Hypothesis R_refl : forall s, R s s.
Hypothesis R_trans : forall s1 s2 s3, R s1 s2 -> R s2 s3 -> R s1 s3.
Hypothesis P_step : forall s s', P s -> R s s' -> P s'.
Hypothesis body : forall a s, P s -> R s (service_after (f a s)).

Lemma forEach_related (l : list A) :
  forall s, P s -> R s (service_after (forEach l f s)).
Proof.
  induction l as [|a l IH]; intros s HP; simpl.
  - apply R_refl.
  - unfold bind. pose proof (body a s HP) as Hb.
    destruct (f a s) as [[] s' | e s']; simpl in Hb.
    + apply R_trans with s'; [assumption|]. apply IH. now apply P_step with s.
    + exact Hb.
Qed.

End Loop.

(** ** resetPosition *)

Lemma lookup_assign_other {A} (key other : OverlayWindowKey) (v : A) (t : Table A) :
  other <> key -> lookup other (assign key v t) = lookup other t.
Proof.
  intros Hne. induction t as [|[k v'] t IH]; simpl.
  - now rewrite key_eqb_neq.
  - destruct (key_eqb key k) eqn:E; simpl.
    + apply key_eqb_eq in E. subst k. now rewrite key_eqb_neq.
    + now rewrite IH.
Qed.

Lemma untouched_refl (key : OverlayWindowKey) (s : GameOverlayService) :
  untouched key s s.
Proof.
  repeat split. exists []. now rewrite app_nil_r.
Qed.

Lemma untouched_trans (key : OverlayWindowKey) (s1 s2 s3 : GameOverlayService) :
  untouched key s1 s2 -> untouched key s2 s3 -> untouched key s1 s3.
Proof.
  intros (Hp & Hw & Hv & n1 & Hc & Hn1) (Hp' & Hw' & Hv' & n2 & Hc' & Hn2).
  repeat split; try congruence.
  exists (n1 ++ n2). split.
  - now rewrite Hc', Hc, app_assoc.
  - apply Forall_app. now split.
Qed.

(** The callback of [resetPosition] returns at once on a falsy id. *)
Lemma resetPosition_key_skips (w : World) (key : OverlayWindowKey)
    (s : GameOverlayService) :
  falsy (id (props (state s) key)) = true ->
  resetPosition_key w key s = Returned tt s.
Proof.
  intros H. unfold resetPosition_key, bind, gets. now rewrite H.
Qed.

(** On another key it changes nothing that belongs to [key]. *)
Lemma resetPosition_key_other (w : World) (key k : OverlayWindowKey)
    (s : GameOverlayService) :
  k <> key ->
  untouched key s (service_after (resetPosition_key w k s)).
Proof.
  intros Hne.
  assert (Hne' : key <> k) by congruence.
  unfold resetPosition_key, bind, gets, modify, ret, onSourceWindow,
    onPreviewWindow.
  destruct (falsy (id (props (state s) k))) eqn:Hid; [apply untouched_refl|].
  simpl.
  destruct (lookup k (windows s)) as [win|]; simpl.
  - destruct (lookup k (previewWindows s)) as [pwin|]; simpl.
    + unfold untouched, SET_WINDOW_POSITION. simpl.
      rewrite props_set_props_other by assumption.
      rewrite !lookup_assign_other by assumption.
      repeat split. eexists. split.
      * rewrite <- !app_assoc. reflexivity.
      * repeat constructor; simpl; congruence.
    + unfold untouched, SET_WINDOW_POSITION. simpl.
      rewrite props_set_props_other by assumption.
      rewrite !lookup_assign_other by assumption.
      repeat split. eexists. split; [reflexivity|].
      repeat constructor; simpl; congruence.
  - unfold untouched, SET_WINDOW_POSITION. simpl.
    rewrite props_set_props_other by assumption.
    repeat split. exists []. now rewrite app_nil_r.
Qed.

(** C1, as the code has it.  A key whose stored surface id is absent is
    skipped by [resetPosition()] altogether: no geometry update reaches
    the compositor for it, and also its stored position is kept and the
    bounds of its source and preview windows are left as they were. *)
Theorem C1_resetPosition_skips_unregistered_key (w : World)
    (key : OverlayWindowKey) (s : GameOverlayService) :
  id (props (state s) key) = None ->
  untouched key s (service_after (resetPosition w s)).
Proof.
  intros Hid. unfold resetPosition, bind, gets.
  apply (forEach_related (resetPosition_key w)
           (fun s0 => id (props (state s0) key) = None) (untouched key)).
  - apply untouched_refl.
  - apply untouched_trans.
  - intros s0 s1 H0 (Hp & _). now rewrite Hp.
  - intros k s0 H0. destruct k, key;
      try (rewrite resetPosition_key_skips by (now rewrite H0);
           apply untouched_refl);
      apply resetPosition_key_other; discriminate.
  - exact Hid.
Qed.

Lemma C1_witness :
  untouched chat dragged_service
    (service_after (resetPosition world_running dragged_service)).
Proof.
  apply (C1_resetPosition_skips_unregistered_key world_running chat dragged_service).
  reflexivity.
Defined.

(** C1 as stated fails: the chat key has no surface id, its saved
    position is (10, 10) and its preview window sits there; after
    [resetPosition()] the saved position is still (10, 10), not cleared,
    and the windows are where they were, not at the default (720, 220):
    the service has not changed at all. *)
Lemma C1_counterexample :
  id (props (state dragged_service) chat) = None
  /\ position (props (state (service_after
                               (resetPosition world_running dragged_service))) chat)
     = Some {| x := 10; y := 10 |}
  /\ option_map getPosition_of
       (lookup chat (previewWindows
                       (service_after (resetPosition world_running dragged_service))))
     = Some {| x := 10; y := 10 |}
  /\ service_after (resetPosition world_running dragged_service) = dragged_service
  /\ ~ x (defaultPosition world_running chat) == 10.
Proof.
  repeat split. vm_compute. discriminate.
Qed.

(** ** Frame properties: what an operation leaves alone *)

Section Seq.

Variable R : GameOverlayService -> GameOverlayService -> Prop.
Hypothesis R_refl : forall s, R s s.
Hypothesis R_trans : forall s1 s2 s3, R s1 s2 -> R s2 s3 -> R s1 s3.

Lemma bind_related {B C} (c : M B) (k : B -> M C) :
  (forall s, R s (service_after (c s))) ->
  (forall b s, R s (service_after (k b s))) ->
  forall s, R s (service_after (bind c k s)).
Proof.
  intros Hc Hk s. unfold bind. pose proof (Hc s) as H.
  destruct (c s) as [b s' | e s']; simpl in H.
  - apply R_trans with s'; [assumption | apply Hk].
  - exact H.
Qed.

Lemma forEach_all_related {A} (f : A -> M unit) (l : list A) :
  (forall a s, R s (service_after (f a s))) ->
  forall s, R s (service_after (forEach l f s)).
Proof.
  intros Hf s.
  apply (forEach_related f (fun _ => True) R); auto.
Qed.

Lemma fold_left_related {A} (f : GameOverlayService -> A -> GameOverlayService)
    (l : list A) :
  (forall s a, R s (f s a)) ->
  forall s, R s (fold_left f l s).
Proof.
  intros Hf. induction l as [|a l IH]; intros s; simpl.
  - apply R_refl.
  - apply R_trans with (f s a); [apply Hf | apply IH].
Qed.

Lemma iter_related (f : GameOverlayService -> GameOverlayService) (n : N) :
  (forall s, R s (f s)) ->
  forall s, R s (N.iter n f s).
Proof.
  intros Hf. induction n as [|n IH] using N.peano_ind; intros s.
  - apply R_refl.
  - rewrite N.iter_succ. apply R_trans with (N.iter n f s); [apply IH | apply Hf].
Qed.

End Seq.

Lemma quiet_refl (s : GameOverlayService) : quiet s s.
Proof. split; [reflexivity|]. exists []. now rewrite app_nil_r. Qed.

Lemma quiet_trans (s1 s2 s3 : GameOverlayService) :
  quiet s1 s2 -> quiet s2 s3 -> quiet s1 s3.
Proof.
  intros (Ho & n1 & Hc & Hn1) (Ho' & n2 & Hc' & Hn2).
  split; [congruence|].
  exists (n1 ++ n2). split.
  - now rewrite Hc', Hc, app_assoc.
  - apply Forall_app. split; [assumption|].
    eapply Forall_impl; [|exact Hn2].
    intros c. unfold transparency_from. destruct c; auto.
    now rewrite Ho.
Qed.

Lemma same_core_refl (s : GameOverlayService) : same_core s s.
Proof. split; [|split]; try reflexivity. apply quiet_refl. Qed.

Lemma same_core_trans (s1 s2 s3 : GameOverlayService) :
  same_core s1 s2 -> same_core s2 s3 -> same_core s1 s3.
Proof.
  intros (Hs & Hp & Hq) (Hs' & Hp' & Hq').
  split; [|split]; try congruence. now apply quiet_trans with s2.
Qed.

(** Building blocks. *)
Lemma quiet_calls (cs : list Call) (s s' : GameOverlayService) :
  opacity (state s') = opacity (state s) ->
  calls s' = calls s ++ cs ->
  Forall (transparency_from (state s)) cs ->
  quiet s s'.
Proof. intros Ho Hc Hcs. split; [assumption|]. now exists cs. Qed.

Lemma same_core_calls (cs : list Call) (s s' : GameOverlayService) :
  isShowing (state s') = isShowing (state s) ->
  previewMode (state s') = previewMode (state s) ->
  opacity (state s') = opacity (state s) ->
  calls s' = calls s ++ cs ->
  Forall (transparency_from (state s)) cs ->
  same_core s s'.
Proof.
  intros Hs Hp Ho Hc Hcs. split; [|split]; try assumption.
  now apply (quiet_calls cs).
Qed.

Lemma same_core_silent (s s' : GameOverlayService) :
  isShowing (state s') = isShowing (state s) ->
  previewMode (state s') = previewMode (state s) ->
  opacity (state s') = opacity (state s) ->
  calls s' = calls s ->
  same_core s s'.
Proof.
  intros Hs Hp Ho Hc. apply (same_core_calls []); try assumption.
  - now rewrite app_nil_r.
  - constructor.
Qed.

Lemma calls_fold_call (cs : list Call) (s : GameOverlayService) :
  fold_left (fun s' c' => call c' s') cs s = append_calls cs s.
Proof.
  revert s. induction cs as [|c cs IH]; intros s; simpl.
  - now rewrite append_calls_nil.
  - now rewrite IH, call_append, append_calls_app.
Qed.

Lemma same_core_determineStartPosition (w : World) (key : OverlayWindowKey)
    (s : GameOverlayService) :
  same_core s (snd (determineStartPosition w key s)).
Proof.
  unfold determineStartPosition.
  destruct (position (props (state s) key)) as [pos|].
  - destruct (find (insideBounds pos) (getAllDisplays w)); simpl.
    + apply same_core_refl.
    + now apply same_core_silent.
  - now apply same_core_silent.
Qed.

Lemma same_core_onSourceWindow (key : OverlayWindowKey)
    (f : BrowserWindow -> BrowserWindow) (cs : list Call) (s : GameOverlayService) :
  Forall (fun c => forall st, transparency_from st c) cs ->
  same_core s (service_after (onSourceWindow key f cs s)).
Proof.
  intros Hcs. unfold onSourceWindow.
  destruct (lookup key (windows s)); simpl; [|apply same_core_refl].
  rewrite calls_fold_call. apply (same_core_calls cs); try reflexivity.
  eapply Forall_impl; [|exact Hcs]. auto.
Qed.

Lemma same_core_onPreviewWindow (key : OverlayWindowKey)
    (f : BrowserWindow -> BrowserWindow) (cs : list Call) (s : GameOverlayService) :
  Forall (fun c => forall st, transparency_from st c) cs ->
  same_core s (service_after (onPreviewWindow key f cs s)).
Proof.
  intros Hcs. unfold onPreviewWindow.
  destruct (lookup key (previewWindows s)); simpl; [|apply same_core_refl].
  rewrite calls_fold_call. apply (same_core_calls cs); try reflexivity.
  eapply Forall_impl; [|exact Hcs]. auto.
Qed.

Lemma same_core_call (c : Call) (s : GameOverlayService) :
  transparency_from (state s) c -> same_core s (call c s).
Proof.
  intros Hc. apply (same_core_calls [c]); try reflexivity. now constructor.
Qed.

Ltac frame_bind :=
  apply (bind_related same_core same_core_trans).

Lemma same_core_resetPosition_key (w : World) (key : OverlayWindowKey)
    (s : GameOverlayService) :
  same_core s (service_after (resetPosition_key w key s)).
Proof.
  revert s. unfold resetPosition_key. frame_bind.
  - intros s. apply same_core_refl.
  - intros overlayId. destruct (falsy overlayId); [intros s; apply same_core_refl|].
    frame_bind.
    { intros s. now apply same_core_silent. }
    intros _. frame_bind.
    { intros s. apply same_core_onSourceWindow. repeat constructor. }
    intros _. frame_bind.
    { intros s. apply same_core_onPreviewWindow. repeat constructor. }
    intros _ s. now apply same_core_call.
Qed.

Lemma same_core_resetPosition (w : World) (s : GameOverlayService) :
  same_core s (service_after (resetPosition w s)).
Proof.
  revert s. unfold resetPosition. frame_bind.
  - intros s. apply same_core_refl.
  - intros ks. apply (forEach_all_related same_core same_core_refl same_core_trans).
    apply same_core_resetPosition_key.
Qed.

Lemma same_core_createWindowOverlay (w : World) (key : OverlayWindowKey)
    (s : GameOverlayService) :
  same_core s (service_after (createWindowOverlay w key s)).
Proof.
  unfold createWindowOverlay, bind, gets, modify, throw, overlayWindow_hide.
  destruct (lookup key (windows s)) as [win|]; [|apply same_core_refl].
  destruct (invalidId (addHWND w key)).
  - simpl. destruct (overlayWindow s); simpl.
    + apply (same_core_calls [overlay_addHWND key; win_hide theOverlayWindow]);
        try reflexivity.
      * simpl. now rewrite <- app_assoc.
      * repeat constructor.
    + now apply same_core_call.
  - simpl. eapply same_core_calls; try reflexivity.
    + simpl. rewrite <- !app_assoc. reflexivity.
    + repeat constructor.
Qed.

Lemma same_core_createWindowOverlays (w : World) (s : GameOverlayService) :
  same_core s (service_after (createWindowOverlays w s)).
Proof.
  revert s. unfold createWindowOverlays. frame_bind.
  - intros s. apply same_core_refl.
  - intros ks. apply (forEach_all_related same_core same_core_refl same_core_trans).
    apply same_core_createWindowOverlay.
Qed.

Lemma same_core_configureWindow (w : World) (key : OverlayWindowKey)
    (s : GameOverlayService) :
  same_core s (service_after (configureWindow w key s)).
Proof.
  revert s. unfold configureWindow. frame_bind.
  { intros s. apply same_core_onSourceWindow. constructor. }
  intros _. frame_bind.
  { intros s. pose proof (same_core_determineStartPosition w key s) as H.
    now destruct (determineStartPosition w key s). }
  intros position. frame_bind.
  { intros s. apply same_core_onSourceWindow. repeat constructor. }
  intros _ s. apply same_core_onPreviewWindow. repeat constructor.
Qed.

Lemma same_core_configureWindows (w : World) (s : GameOverlayService) :
  same_core s (service_after (configureWindows w s)).
Proof.
  revert s. unfold configureWindows. frame_bind.
  { intros s. apply same_core_refl. }
  intros ks. frame_bind.
  { apply (forEach_all_related same_core same_core_refl same_core_trans).
    apply same_core_configureWindow. }
  intros _. frame_bind.
  { intros s. apply same_core_onSourceWindow. repeat constructor. }
  intros _ s. apply same_core_onSourceWindow. repeat constructor.
Qed.

Lemma same_core_initializeOverlay (w : World) (s : GameOverlayService) :
  same_core s (service_after (initializeOverlay w s)).
Proof.
  revert s. unfold initializeOverlay. frame_bind.
  { intros s. now apply same_core_call. }
  intros _. frame_bind.
  { intros s. now apply same_core_silent. }
  intros _. frame_bind.
  { intros s. eapply same_core_calls; try reflexivity.
    - simpl. rewrite <- app_assoc. reflexivity.
    - repeat constructor. }
  intros _. frame_bind.
  { intros s. eapply same_core_calls; try reflexivity.
    - simpl. rewrite <- app_assoc. reflexivity.
    - repeat constructor. }
  intros _. apply same_core_configureWindows.
Qed.

(** ** The operations that never throw *)

Lemma Forall_map_calls {K} (P : Call -> Prop) (g : K -> Call) (ks : list K) :
  (forall k, P (g k)) -> Forall P (map g ks).
Proof. intros H. apply Forall_map, Forall_forall. auto. Qed.

(** Discharges [Forall (transparency_from st) cs] when [cs] is built
    from calls other than [overlay_setTransparency]. *)
Ltac no_transparency :=
  repeat (apply Forall_app; split);
  repeat first [ apply Forall_nil
               | apply Forall_cons; [exact I|]
               | apply Forall_map_calls; intros; exact I ].

Lemma same_core_quiet (s s' : GameOverlayService) : same_core s s' -> quiet s s'.
Proof. now intros (_ & _ & H). Qed.

Lemma hideOverlay_effect (s : GameOverlayService) :
  state (hideOverlay s) = TOGGLE_OVERLAY false (state s)
  /\ quiet s (hideOverlay s).
Proof.
  split; [reflexivity|]. apply (quiet_calls [overlay_hide]); try reflexivity.
  no_transparency.
Qed.

Lemma showOverlay_effect (s : GameOverlayService) :
  state (showOverlay s) = TOGGLE_OVERLAY true (state s)
  /\ quiet s (showOverlay s).
Proof.
  unfold showOverlay.
  rewrite (fold_left_call (fun _ key => win_invalidate (sourceWindow key))).
  split; [reflexivity|].
  eapply quiet_calls; try reflexivity.
  - simpl. rewrite <- app_assoc. reflexivity.
  - no_transparency.
Qed.

Lemma leavePreview_effect (s : GameOverlayService) (key : OverlayWindowKey) :
  same_core s (leavePreview s key)
  /\ isEnabled (state (leavePreview s key)) = isEnabled (state s)
  /\ previewWindows (leavePreview s key) = previewWindows s.
Proof.
  unfold leavePreview. destruct (lookup key (previewWindows s)) as [win|].
  - split; [|split]; try reflexivity.
    eapply same_core_calls; try reflexivity. no_transparency.
  - split; [|split]; try reflexivity. apply same_core_refl.
Qed.

Lemma fold_leavePreview_effect (ks : list OverlayWindowKey) (s : GameOverlayService) :
  same_core s (fold_left leavePreview ks s)
  /\ isEnabled (state (fold_left leavePreview ks s)) = isEnabled (state s)
  /\ previewWindows (fold_left leavePreview ks s) = previewWindows s.
Proof.
  revert s. induction ks as [|k ks IH]; intros s; simpl.
  - split; [apply same_core_refl | split; reflexivity].
  - destruct (IH (leavePreview s k)) as (H1 & H2 & H3).
    destruct (leavePreview_effect s k) as (L1 & L2 & L3).
    split; [now apply same_core_trans with (leavePreview s k)|].
    split; congruence.
Qed.

(** [setPreviewMode] up to its awaits: the overlay is not showing
    afterwards; the flag is written only when enabled. *)
Lemma setPreviewMode_sync_effect (preview : bool) (s : GameOverlayService) :
  isShowing (state (setPreviewMode_sync preview s)) = false
  /\ previewMode (state (setPreviewMode_sync preview s))
     = (if isEnabled (state s) then preview else previewMode (state s))
  /\ isEnabled (state (setPreviewMode_sync preview s)) = isEnabled (state s)
  /\ quiet s (setPreviewMode_sync preview s).
Proof.
  unfold setPreviewMode_sync.
  set (s1 := if isShowing (state s) then hideOverlay s else s).
  assert (H1 : isShowing (state s1) = false
               /\ previewMode (state s1) = previewMode (state s)
               /\ isEnabled (state s1) = isEnabled (state s)
               /\ quiet s s1).
  { subst s1. destruct (isShowing (state s)) eqn:E.
    - split; [|split; [|split]]; try reflexivity. apply hideOverlay_effect.
    - split; [|split; [|split]]; try reflexivity;
        [assumption | apply quiet_refl]. }
  destruct H1 as (Hs & Hp & He & Hq). rewrite He.
  destruct (isEnabled (state s)); simpl negb; cbv iota;
    [|split; [|split; [|split]]; assumption].
  destruct preview.
  - rewrite (fold_left_call (fun _ key => win_show (previewWindow key))).
    split; [|split; [|split]]; try assumption; try reflexivity.
    apply quiet_trans with s1; [assumption|].
    eapply quiet_calls; try reflexivity. no_transparency.
  - destruct (fold_leavePreview_effect
                (keys (previewWindows (with_state (SET_PREVIEW_MODE false) s1)))
                (with_state (SET_PREVIEW_MODE false) s1))
      as ((F1 & F2 & F3) & F4 & _).
    split; [|split; [|split]].
    + now rewrite F1.
    + now rewrite F2.
    + now rewrite F4.
    + apply quiet_trans with s1; [assumption|].
      apply quiet_trans with (with_state (SET_PREVIEW_MODE false) s1);
        [|assumption].
      apply (quiet_calls []); try reflexivity; [|constructor].
      simpl. now rewrite app_nil_r.
Qed.

Lemma setPreviewMode_resume_effect (preview : bool) (s : GameOverlayService) :
  same_core s (setPreviewMode_resume preview s).
Proof.
  unfold setPreviewMode_resume.
  destruct (negb (isEnabled (state s)) || preview); [apply same_core_refl|].
  rewrite (fold_left_call (fun _ key => win_hide (previewWindow key))).
  eapply same_core_calls; try reflexivity. no_transparency.
Qed.

Lemma setPreviewMode_effect (preview : bool) (s : GameOverlayService) :
  isShowing (state (setPreviewMode preview s)) = false
  /\ quiet s (setPreviewMode preview s).
Proof.
  unfold setPreviewMode.
  destruct (setPreviewMode_sync_effect preview s) as (Hs & _ & _ & Hq).
  destruct (setPreviewMode_resume_effect preview (setPreviewMode_sync preview s))
    as (Rs & _ & Rq).
  split; [congruence | now apply quiet_trans with (setPreviewMode_sync preview s)].
Qed.

(** [toggleOverlay] either does nothing or leaves preview mode off. *)
Lemma toggleOverlay_effect (w : World) (s : GameOverlayService) :
  (toggleOverlay w s = s \/ previewMode (state (toggleOverlay w s)) = false)
  /\ quiet s (toggleOverlay w s).
Proof.
  unfold toggleOverlay.
  destruct (negb (status_eqb (getStatus w) Running) || negb (isEnabled (state s)))
    eqn:G; [split; [now left | apply quiet_refl]|].
  apply orb_false_iff in G. destruct G as [_ G]. apply negb_false_iff in G.
  set (s1 := if previewMode (state s) then setPreviewMode_sync false s else s).
  assert (H1 : previewMode (state s1) = false /\ quiet s s1).
  { subst s1. destruct (previewMode (state s)) eqn:E.
    - destruct (setPreviewMode_sync_effect false s) as (_ & Hp & _ & Hq).
      rewrite G in Hp. now split.
    - split; [assumption | apply quiet_refl]. }
  destruct H1 as (Hp1 & Hq1).
  set (s2 := if isShowing (state s1) then hideOverlay s1 else showOverlay s1).
  assert (H2 : previewMode (state s2) = false /\ quiet s1 s2).
  { subst s2. destruct (isShowing (state s1)).
    - destruct (hideOverlay_effect s1) as (E & Hq). rewrite E. now split.
    - destruct (showOverlay_effect s1) as (E & Hq). rewrite E. now split. }
  destruct H2 as (Hp2 & Hq2).
  assert (Hq : quiet s s2) by (now apply quiet_trans with s1).
  destruct (previewMode (state s)).
  - destruct (setPreviewMode_resume_effect false s2) as (_ & Rp & Rq).
    split; [right; congruence | now apply quiet_trans with s2].
  - split; [now right | assumption].
Qed.

Lemma destroyOverlay_quiet (s : GameOverlayService) : quiet s (destroyOverlay s).
Proof.
  unfold destroyOverlay. destruct (isEnabled (state s)).
  - rewrite (fold_left_call (fun _ key => win_destroy (sourceWindow key))).
    rewrite (fold_left_call (fun _ key => win_destroy (previewWindow key))).
    eapply quiet_calls; try reflexivity.
    + simpl. rewrite <- !app_assoc. reflexivity.
    + no_transparency.
  - apply (quiet_calls []); try reflexivity; [|constructor].
    simpl. now rewrite app_nil_r.
Qed.

Lemma didFinishLoad_same_core (key : OverlayWindowKey) (s : GameOverlayService) :
  same_core s (didFinishLoad key s).
Proof.
  unfold didFinishLoad. destruct (lookup key (windows s)) as [win|];
    [|apply same_core_refl].
  destruct (onceDidFinishLoad win); [|apply same_core_refl].
  now apply same_core_silent.
Qed.

Lemma replacedDidFinishLoad_same_core (n : nat) (s : GameOverlayService) :
  same_core s (replacedDidFinishLoad n s).
Proof.
  unfold replacedDidFinishLoad.
  destruct (nth_error (replacedWindows s) n) as [win|];
    [|apply same_core_refl].
  destruct (onceDidFinishLoad win); [|apply same_core_refl].
  now apply same_core_silent.
Qed.

Lemma dragPreview_same_core (key : OverlayWindowKey) (to : IVec2)
    (s : GameOverlayService) :
  same_core s (dragPreview key to s).
Proof.
  unfold dragPreview. destruct (lookup key (previewWindows s));
    [now apply same_core_silent | apply same_core_refl].
Qed.

Lemma tick_same_core (w : World) (s : GameOverlayService) :
  same_core s (tick w s).
Proof.
  unfold tick.
  set (s1 := with_subscriptions _ s).
  assert (H1 : same_core s s1) by (now apply same_core_silent).
  apply same_core_trans with s1; [assumption|]. clear H1.
  induction (map snd (map tick_subscription (subscriptions s))) as [|fired l IH];
    simpl; [apply same_core_refl|].
  destruct fired; [|assumption].
  eapply same_core_trans; [exact IH | apply same_core_createWindowOverlays].
Qed.

Lemma elapse_same_core (w : World) (ms : N) (s : GameOverlayService) :
  same_core s (elapse w ms s).
Proof.
  unfold elapse.
  apply (iter_related same_core same_core_refl same_core_trans).
  apply tick_same_core.
Qed.

(** ** Mutual exclusion of preview mode and the live overlay *)

Lemma exclusive_kept_trans (s1 s2 s3 : GameOverlayService) :
  (exclusive s1 -> exclusive s2) -> (exclusive s2 -> exclusive s3) ->
  exclusive s1 -> exclusive s3.
Proof. auto. Qed.

Lemma same_core_exclusive (s s' : GameOverlayService) :
  same_core s s' -> exclusive s -> exclusive s'.
Proof. intros (Hs & Hp & _). unfold exclusive. now rewrite Hs, Hp. Qed.

Lemma not_showing_exclusive (s : GameOverlayService) :
  isShowing (state s) = false -> exclusive s.
Proof. intros H. unfold exclusive. rewrite H. apply andb_false_r. Qed.

Lemma not_preview_exclusive (s : GameOverlayService) :
  previewMode (state s) = false -> exclusive s.
Proof. intros H. unfold exclusive. now rewrite H. Qed.

Lemma setEnabled_exclusive (w : World) (shouldEnable : bool)
    (s : GameOverlayService) :
  exclusive s -> exclusive (service_after (setEnabled w shouldEnable s)).
Proof.
  revert s. unfold setEnabled.
  apply (bind_related (fun s s' => exclusive s -> exclusive s')
           exclusive_kept_trans); [auto|].
  intros enabled.
  apply (bind_related (fun s s' => exclusive s -> exclusive s')
           exclusive_kept_trans).
  { intros s. destruct (shouldEnable && negb enabled); [|auto].
    apply same_core_exclusive, same_core_initializeOverlay. }
  intros _.
  apply (bind_related (fun s s' => exclusive s -> exclusive s')
           exclusive_kept_trans).
  { intros s. destruct (negb shouldEnable && enabled); [|auto].
    intros _. now apply not_showing_exclusive. }
  intros _ s. auto.
Qed.

Lemma step_exclusive (w : World) (e : Event) (s : GameOverlayService) :
  e <> ev_showOverlay -> exclusive s -> exclusive (step w e s).
Proof.
  intros Hne Hex. destruct e; simpl.
  - eapply same_core_exclusive; [apply same_core_initializeOverlay | assumption].
  - now apply not_showing_exclusive.
  - now apply setEnabled_exclusive.
  - apply not_showing_exclusive, setPreviewMode_effect.
  - destruct (toggleOverlay_effect w s) as ([E | E] & _).
    + now rewrite E.
    + now apply not_preview_exclusive.
  - congruence.
  - now apply not_showing_exclusive.
  - rewrite setOverlayOpacity_unfold. exact Hex.
  - exact Hex.
  - eapply same_core_exclusive; [apply same_core_resetPosition | assumption].
  - eapply same_core_exclusive; [apply didFinishLoad_same_core | assumption].
  - eapply same_core_exclusive;
      [apply replacedDidFinishLoad_same_core | assumption].
  - eapply same_core_exclusive; [apply elapse_same_core | assumption].
  - eapply same_core_exclusive; [apply dragPreview_same_core | assumption].
Qed.

(** C3, as the code has it.  Along any run of the service in which
    [showOverlay] is not called directly, a state with [previewMode] and
    [isShowing] both true is never reached from one where they are not
    both true: [setPreviewMode], [toggleOverlay], [hideOverlay],
    [destroyOverlay] and every other operation keep the exclusion.
    [showOverlay] itself keeps it when called with [previewMode = false],
    which is how [toggleOverlay] calls it.  Entering preview mode leaves
    [isShowing = false]. *)
Theorem C3_preview_and_showing_exclusive :
  (forall trace s, exclusive s -> no_direct_show trace -> exclusive (run trace s))
  /\ (forall s, previewMode (state s) = false -> exclusive (showOverlay s))
  /\ (forall s, isShowing (state (setPreviewMode true s)) = false
                /\ exclusive (setPreviewMode true s)).
Proof.
  split; [|split].
  - induction trace as [|[w e] trace IH]; intros s Hex Hno; simpl; [assumption|].
    inversion Hno as [|? ? Hhd Htl]; subst. apply IH; [|assumption].
    now apply step_exclusive.
  - intros s H. apply not_preview_exclusive.
    destruct (showOverlay_effect s) as (E & _). now rewrite E.
  - intros s. destruct (setPreviewMode_effect true s) as (H & _).
    split; [assumption | now apply not_showing_exclusive].
Qed.

Lemma C3_witness :
  exclusive
    (run [(world_running, ev_setEnabled true);
          (world_running, ev_toggleOverlay);
          (world_running, ev_setPreviewMode true);
          (world_running, ev_toggleOverlay);
          (world_running, ev_destroyOverlay)]
       (newService defaultState)).
Proof.
  apply (proj1 C3_preview_and_showing_exclusive).
  - reflexivity.
  - repeat constructor; simpl; discriminate.
Defined.

(** C3 as stated fails, [showOverlay] being among the public
    operations: enable, enter preview mode, call [showOverlay]. *)
Lemma C3_counterexample :
  previewMode
    (state (run [(world_running, ev_setEnabled true);
                 (world_running, ev_setPreviewMode true);
                 (world_running, ev_showOverlay)]
              (newService defaultState))) = true
  /\ isShowing
       (state (run [(world_running, ev_setEnabled true);
                    (world_running, ev_setPreviewMode true);
                    (world_running, ev_showOverlay)]
                 (newService defaultState))) = true.
Proof. split; reflexivity. Qed.

(** ** Bounds on the opacity *)

Lemma scaled_in_range (o : Q) :
  0 <= o <= 100 -> exists v, js_mul o c2_55 = finite v /\ 0 <= v <= 255.
Proof.
  intros Ho. unfold js_mul.
  destruct (round64_bounded (o * c2_55) 255) as (v & E & H0 & H255).
  - apply Qmult_le_0_compat; [lra|]. unfold c2_55, Qle. simpl. lia.
  - assert (Hc : c2_55 <= 255 # 100) by (unfold c2_55, Qle; simpl; lia).
    assert (Hc0 : 0 <= c2_55) by (unfold c2_55, Qle; simpl; lia).
    apply Qle_trans with (100 * c2_55).
    + apply Qmult_le_compat_r; lra.
    + setoid_replace (inject_Z 255) with (100 * (255 # 100)) by reflexivity.
      apply Qmult_le_l; [reflexivity | exact Hc].
  - split; [lia | now vm_compute].
  - exists v. auto.
Qed.

Lemma quiet_opacity_bounded (s s' : GameOverlayService) :
  quiet s s' -> opacity_bounded s -> opacity_bounded s'.
Proof.
  intros (Ho & new & Hc & Hnew) (Hb & Hcalls). split.
  - now rewrite Ho.
  - rewrite Hc. apply Forall_app. split; [assumption|].
    eapply Forall_impl; [|exact Hnew].
    intros c. destruct c; simpl; auto.
    intros ->. now destruct (scaled_in_range _ Hb) as (v & -> & Hv).
Qed.

Lemma setOverlayOpacity_in_range (p : Q) (s : GameOverlayService) :
  0 <= p <= 100 ->
  0 <= opacity (state (setOverlayOpacity p s)) <= 100
  /\ exists new, calls (setOverlayOpacity p s) = calls s ++ new
                 /\ Forall transparency_in_range new.
Proof.
  intros Hp. rewrite setOverlayOpacity_unfold. split; [exact Hp|].
  eexists. split; [reflexivity|].
  destruct (isEnabled (state s)); [|constructor].
  apply Forall_map_calls. intros k. simpl.
  now destruct (scaled_in_range p Hp) as (v & -> & Hv).
Qed.

Lemma setEnabled_quiet (w : World) (shouldEnable : bool) (s : GameOverlayService) :
  quiet s (service_after (setEnabled w shouldEnable s)).
Proof.
  revert s. unfold setEnabled.
  apply (bind_related quiet quiet_trans); [intros s; apply quiet_refl|].
  intros enabled. apply (bind_related quiet quiet_trans).
  { intros s. destruct (shouldEnable && negb enabled); [|apply quiet_refl].
    apply same_core_quiet, same_core_initializeOverlay. }
  intros _. apply (bind_related quiet quiet_trans).
  { intros s. destruct (negb shouldEnable && enabled); [|apply quiet_refl].
    apply destroyOverlay_quiet. }
  intros _ s. apply (quiet_calls []); try reflexivity; [|constructor].
  simpl. now rewrite app_nil_r.
Qed.

(** Every event but [setOverlayOpacity] keeps the opacity and sends no
    transparency other than the scaled current opacity. *)
Lemma step_quiet (w : World) (e : Event) (s : GameOverlayService) :
  (forall p, e <> ev_setOverlayOpacity p) -> quiet s (step w e s).
Proof.
  intros Hne. destruct e; simpl.
  - apply same_core_quiet, same_core_initializeOverlay.
  - apply destroyOverlay_quiet.
  - apply setEnabled_quiet.
  - apply setPreviewMode_effect.
  - apply toggleOverlay_effect.
  - apply showOverlay_effect.
  - apply hideOverlay_effect.
  - now elim (Hne percentage).
  - apply (quiet_calls []); try reflexivity; [|constructor].
    simpl. now rewrite app_nil_r.
  - apply same_core_quiet, same_core_resetPosition.
  - apply same_core_quiet, didFinishLoad_same_core.
  - apply same_core_quiet, replacedDidFinishLoad_same_core.
  - apply same_core_quiet, elapse_same_core.
  - apply same_core_quiet, dragPreview_same_core.
Qed.

Lemma step_opacity_bounded (w : World) (e : Event) (s : GameOverlayService) :
  match e with ev_setOverlayOpacity p => 0 <= p <= 100 | _ => True end ->
  opacity_bounded s -> opacity_bounded (step w e s).
Proof.
  intros He Hb.
  destruct e;
    try (apply (quiet_opacity_bounded s); [apply step_quiet; discriminate | exact Hb]).
  simpl. destruct (setOverlayOpacity_in_range percentage s He) as (Ho & new & Hc & Hn).
  split; [exact Ho|]. rewrite Hc. apply Forall_app. split; [apply Hb | exact Hn].
Qed.

(** C5, as the code has it.  Nothing clamps: [SET_OPACITY] stores its
    argument.  When every percentage given to [setOverlayOpacity] lies in
    [0,100], the persisted opacity stays in [0,100] and every transparency
    the compositor receives lies in [0,255], along any run from a state
    where this holds, the default state in particular; and for such a
    percentage [setOverlayOpacity] establishes both bounds. *)
Theorem C5_opacity_bounded_for_percentages_in_range :
  (forall trace s, opacity_bounded s -> percentages_in_range trace ->
                   opacity_bounded (run trace s))
  /\ (forall p s, 0 <= p <= 100 ->
        0 <= opacity (state (setOverlayOpacity p s)) <= 100
        /\ exists new, calls (setOverlayOpacity p s) = calls s ++ new
                       /\ Forall transparency_in_range new)
  /\ opacity_bounded (newService defaultState).
Proof.
  split; [|split].
  - induction trace as [|[w e] trace IH]; intros s Hb Hp; simpl; [assumption|].
    inversion Hp as [|? ? Hhd Htl]; subst. apply IH; [|assumption].
    now apply step_opacity_bounded.
  - apply setOverlayOpacity_in_range.
  - split; [simpl; lra | constructor].
Qed.

Lemma C5_witness :
  opacity_bounded
    (run [(world_running, ev_setEnabled true);
          (world_running, ev_setOverlayOpacity 50);
          (world_running, ev_elapse 5000);
          (world_running, ev_setOverlayOpacity 0)]
       (newService defaultState)).
Proof.
  apply (proj1 C5_opacity_bounded_for_percentages_in_range).
  - apply (proj2 (proj2 C5_opacity_bounded_for_percentages_in_range)).
  - repeat constructor; simpl; lra.
Defined.

(** C5 as stated fails: [setOverlayOpacity(150)] on the enabled service
    persists 150 and sends 382.5 to the compositor (the product is exact
    on doubles: 765/2). *)
Lemma C5_counterexample :
  opacity
    (state (run [(world_running, ev_setEnabled true);
                 (world_running, ev_setOverlayOpacity 150)]
              (newService defaultState))) = 150
  /\ ~ 150 <= 100
  /\ In (overlay_setTransparency None (js_mul 150 c2_55))
       (calls (run [(world_running, ev_setEnabled true);
                    (world_running, ev_setOverlayOpacity 150)]
                 (newService defaultState)))
  /\ js_mul 150 c2_55 = finite (765 # 2)
  /\ ~ (765 # 2) <= 255.
Proof.
  split; [reflexivity|]. split; [lra|].
  split; [|split; [vm_compute; reflexivity | lra]].
  simpl. auto 20.
Qed.

(** ** The readiness pipeline *)

Lemma nexts_snoc (evs : list PipeEvent) (ev : PipeEvent) :
  nexts (evs ++ [ev])
  = (nexts evs + match ev with pe_next => 1 | pe_tick => 0 end)%nat.
Proof.
  unfold nexts. rewrite filter_app, length_app. now destruct ev.
Qed.

Lemma ticks_snoc (evs : list PipeEvent) (ev : PipeEvent) :
  ticks (evs ++ [ev])
  = (ticks evs + match ev with pe_tick => 1 | pe_next => 0 end)%nat.
Proof.
  unfold ticks. rewrite filter_app, length_app. now destruct ev.
Qed.

Lemma pipe_phase_step (n : nat) (evs : list PipeEvent) (p : Subscription * bool)
    (ev : PipeEvent) :
  pipe_phase n evs p -> pipe_phase n (evs ++ [ev]) (pipe_step p ev).
Proof.
  assert (Hassoc : forall pre post : list PipeEvent,
             (pre ++ pe_next :: post) ++ [ev] = pre ++ pe_next :: post ++ [ev]).
  { intros pre post. now rewrite <- app_assoc. }
  intros H.
  destruct H as [Hle | pre post Hevs Hn Ht | pre post sub fired Hevs Hn Ht Hc].
  - destruct ev; simpl; unfold next, tick_subscription; simpl.
    + destruct (Nat.eqb_spec (nexts evs) n) as [E | E].
      * rewrite E.
        change (Some 5000%N)
          with (Some (5000 - N.of_nat (ticks (@nil PipeEvent)))%N).
        apply phase_delaying with (pre := evs);
          [reflexivity | assumption | unfold ticks; simpl; lia].
      * replace (S (nexts evs)) with (nexts (evs ++ [pe_next]))
          by (rewrite nexts_snoc; lia).
        apply phase_counting. rewrite nexts_snoc. lia.
    + replace (nexts evs) with (nexts (evs ++ [pe_tick]))
        by (rewrite nexts_snoc; lia).
      apply phase_counting. rewrite nexts_snoc. lia.
  - subst evs. rewrite Hassoc.
    remember (5000 - N.of_nat (ticks post))%N as d eqn:Hd.
    destruct ev; simpl; unfold next, tick_subscription; simpl; subst d.
    + replace (ticks post) with (ticks (post ++ [pe_next]))
        by (rewrite ticks_snoc; lia).
      apply phase_delaying with (pre := pre);
        [reflexivity | assumption | rewrite ticks_snoc; lia].
    + destruct (N.eqb_spec (N.pred (5000 - N.of_nat (ticks post))) 0) as [E | E];
        cbn [fst snd orb].
      * apply phase_done with (pre := pre) (post := post ++ [pe_tick]);
          [reflexivity | assumption | rewrite ticks_snoc; lia | reflexivity].
      * replace (N.pred (5000 - N.of_nat (ticks post)))
          with (5000 - N.of_nat (ticks (post ++ [pe_tick])))%N
          by (rewrite ticks_snoc; lia).
        apply phase_delaying with (pre := pre);
          [reflexivity | assumption | rewrite ticks_snoc; lia].
  - subst evs. rewrite Hassoc.
    assert (Hsub : fst (pipe_step (sub, fired) ev) = sub).
    { destruct ev; simpl; unfold next, tick_subscription; now rewrite Hc. }
    destruct (pipe_step (sub, fired) ev) as [sub' fired'] eqn:E.
    simpl in Hsub. subst sub'.
    apply phase_done with (pre := pre) (post := post ++ [ev]);
      [reflexivity | assumption | rewrite ticks_snoc; lia | assumption].
Qed.

Lemma pipe_phase_run (n : nat) (evs : list PipeEvent) :
  pipe_phase n evs (pipe_run evs (subscribe (S n))).
Proof.
  induction evs as [|ev evs IH] using rev_ind.
  - apply (phase_counting n []). unfold nexts. simpl. lia.
  - unfold pipe_run in *. rewrite fold_left_app. simpl.
    now apply pipe_phase_step.
Qed.

(** With [take(n+1)] the [complete] handler, which registers the
    surfaces, runs only once [n+1] windows have signalled and 5000 ms
    have passed since the last of these signals. *)
Lemma completion_waits_for_signals_and_delay (n : nat) (evs : list PipeEvent) :
  snd (pipe_run evs (subscribe (S n))) = true ->
  exists pre post,
    evs = pre ++ pe_next :: post /\ nexts pre = n /\ (5000 <= ticks post)%nat.
Proof.
  intros Hfired. pose proof (pipe_phase_run n evs) as H.
  destruct (pipe_run evs (subscribe (S n))) as [sub fired]. simpl in Hfired.
  subst fired. inversion H; subst. now exists pre, post.
Qed.

(** With [take(0)] it runs after 5000 ms, no signal needed. *)
Lemma completion_of_take_0_needs_no_signal :
  snd (pipe_run (repeat pe_tick 5000) (subscribe 0)) = true
  /\ nexts (repeat pe_tick 5000) = 0%nat.
Proof. split; vm_compute; reflexivity. Qed.

(** C2 fails on the first [initializeOverlay] of a service: the pipe is
    built while [this.windows] is still empty, so it is [take(0)], and
    [createWindowOverlays] runs 5000 ms after the initialization whatever
    the windows do.  Here no source window has signalled (both one-shot
    listeners are still waiting) and both surfaces get registered; after
    4999 ms nothing is registered yet. *)
Theorem C2_first_initialization_registers_before_readiness :
  map takeCount (subscriptions first_initialization) = [0%nat]
  /\ keys (windows first_initialization) = [recentEvents; chat]
  /\ registrations (elapse world_running 4999 first_initialization) = []
  /\ map (fun kw => onceDidFinishLoad (snd kw))
       (windows (elapse world_running 5000 first_initialization))
     = [true; true]
  /\ registrations (elapse world_running 5000 first_initialization)
     = [overlay_addHWND recentEvents; overlay_addHWND chat].
Proof. repeat split; vm_compute; reflexivity. Qed.

(** * Further properties of the service *)

(** ** toggleOverlay on a running, enabled subsystem *)

Lemma with_state_id (f : GameOverlayState -> GameOverlayState)
    (s : GameOverlayService) :
  f (state s) = state s -> with_state f s = s.
Proof. intros H. destruct s. unfold with_state. simpl in *. now rewrite H. Qed.

Lemma TOGGLE_OVERLAY_same (st : GameOverlayState) :
  TOGGLE_OVERLAY (isShowing st) st = st.
Proof. now destruct st. Qed.

Lemma toggleOverlay_state_outside_preview (w : World) (s : GameOverlayService) :
  getStatus w = Running ->
  isEnabled (state s) = true ->
  previewMode (state s) = false ->
  state (toggleOverlay w s) = TOGGLE_OVERLAY (negb (isShowing (state s))) (state s).
Proof.
  intros Hrun Hen Hpm. unfold toggleOverlay. rewrite Hrun, Hen, Hpm. simpl.
  destruct (isShowing (state s)).
  - apply hideOverlay_effect.
  - apply showOverlay_effect.
Qed.

(** When the compositor runs and the subsystem is enabled,
    [toggleOverlay()] always ends outside preview mode; it flips
    [isShowing], except that from preview mode it always ends showing;
    the other fields of the persisted flags stay. *)
Theorem toggleOverlay_flips_or_leaves_preview (w : World) (s : GameOverlayService) :
  getStatus w = Running ->
  isEnabled (state s) = true ->
  previewMode (state (toggleOverlay w s)) = false
  /\ isShowing (state (toggleOverlay w s))
     = (if previewMode (state s) then true else negb (isShowing (state s)))
  /\ isEnabled (state (toggleOverlay w s)) = true
  /\ opacity (state (toggleOverlay w s)) = opacity (state s).
Proof.
  intros Hrun Hen.
  destruct (previewMode (state s)) eqn:Hpm.
  - unfold toggleOverlay. rewrite Hrun, Hen, Hpm. simpl.
    destruct (setPreviewMode_sync_effect false s) as (Hs & Hp & He & Ho & _).
    rewrite Hen in Hp, He. rewrite Hs.
    destruct (setPreviewMode_resume_effect false
                (showOverlay (setPreviewMode_sync false s)))
      as (Rs & Rp & Ro & _).
    destruct (showOverlay_effect (setPreviewMode_sync false s)) as (E & _).
    rewrite Rs, Rp, Ro, E. simpl. rewrite Hp, Ho.
    unfold setPreviewMode_resume. rewrite E. simpl. rewrite He. simpl.
    rewrite (fold_left_call (fun _ key => win_hide (previewWindow key))).
    simpl. rewrite E. simpl. now rewrite He.
  - rewrite (toggleOverlay_state_outside_preview w s Hrun Hen Hpm). simpl.
    now rewrite Hen, Hpm.
Qed.

Lemma toggleOverlay_flips_witness :
  previewMode (state (toggleOverlay world_running enabled_service)) = false
  /\ isShowing (state (toggleOverlay world_running enabled_service))
     = (if previewMode (state enabled_service) then true
        else negb (isShowing (state enabled_service)))
  /\ isEnabled (state (toggleOverlay world_running enabled_service)) = true
  /\ opacity (state (toggleOverlay world_running enabled_service))
     = opacity (state enabled_service).
Proof.
  apply (toggleOverlay_flips_or_leaves_preview world_running enabled_service);
    reflexivity.
Defined.

(** Outside preview mode, toggling twice gives back the persisted state
    (the compositor running and the subsystem enabled throughout). *)
Theorem toggleOverlay_twice_restores_state (w : World) (s : GameOverlayService) :
  getStatus w = Running ->
  isEnabled (state s) = true ->
  previewMode (state s) = false ->
  state (toggleOverlay w (toggleOverlay w s)) = state s.
Proof.
  intros Hrun Hen Hpm.
  pose proof (toggleOverlay_state_outside_preview w s Hrun Hen Hpm) as H1.
  rewrite toggleOverlay_state_outside_preview; try assumption.
  - rewrite H1.
    change (TOGGLE_OVERLAY (negb (negb (isShowing (state s)))) (state s) = state s).
    rewrite negb_involutive. apply TOGGLE_OVERLAY_same.
  - now rewrite H1.
  - now rewrite H1.
Qed.

Lemma toggleOverlay_twice_witness :
  state (toggleOverlay world_running (toggleOverlay world_running enabled_service))
  = state enabled_service.
Proof.
  apply (toggleOverlay_twice_restores_state world_running enabled_service);
    reflexivity.
Defined.

(** ** The default positions *)

(** The default rectangle of the recent-events window ends where the
    default rectangle of the chat window begins, at the same height: the
    two defaults touch and do not overlap, whatever the display. *)
Theorem default_rectangles_are_adjacent (w : World) :
  x (defaultPosition w recentEvents) + width (windowSize recentEvents)
  == x (defaultPosition w chat)
  /\ y (defaultPosition w recentEvents) = y (defaultPosition w chat)
  /\ x (defaultPosition w recentEvents) < x (defaultPosition w chat).
Proof.
  unfold defaultPosition, getWindowContainerStartingPosition. simpl.
  repeat split; lra.
Qed.

(** ** initializeOverlay: creation and placement of the window pairs *)

Lemma lookup_assign_same {A} (key : OverlayWindowKey) (v : A) (t : Table A) :
  lookup key (assign key v t) = Some v.
Proof.
  induction t as [|[k v'] t IH]; simpl.
  - now rewrite key_eqb_refl.
  - destruct (key_eqb key k) eqn:E; simpl; rewrite E; [reflexivity | exact IH].
Qed.

Lemma lookup_assign {A} (key k : OverlayWindowKey) (v : A) (t : Table A) :
  lookup k (assign key v t) = if key_eqb k key then Some v else lookup k t.
Proof.
  destruct (key_eqb k key) eqn:E.
  - apply key_eqb_eq in E. subst k. apply lookup_assign_same.
  - apply lookup_assign_other. intros ->. now rewrite key_eqb_refl in E.
Qed.

Lemma keys_lookup {A} (key : OverlayWindowKey) (t : Table A) :
  lookup key t <> None -> In key (keys t).
Proof.
  induction t as [|[k v] t IH]; simpl; [congruence|].
  destruct (key_eqb key k) eqn:E.
  - apply key_eqb_eq in E. now left.
  - intros H. right. now apply IH.
Qed.

Lemma resolved_state (w : World) (key : OverlayWindowKey)
    (s s' : GameOverlayService) :
  position (props (state s') key) = position (props (state s) key) ->
  resolved w key s' = resolved w key s.
Proof.
  intros H. unfold resolved, determineStartPosition. rewrite H.
  destruct (position (props (state s) key)) as [pos|]; [|reflexivity].
  now destruct (find (insideBounds pos) (getAllDisplays w)).
Qed.

(** What [determineStartPosition] can do to the service. *)
Lemma determineStartPosition_cases (w : World) (k : OverlayWindowKey)
    (s : GameOverlayService) :
  determineStartPosition w k s = (resolved w k s, s)
  \/ (determineStartPosition w k s
      = (defaultPosition w k, with_state (SET_WINDOW_POSITION k None) s)
      /\ resolved w k s = defaultPosition w k).
Proof.
  unfold resolved, determineStartPosition.
  destruct (position (props (state s) k)) as [pos|]; [|now right].
  destruct (find (insideBounds pos) (getAllDisplays w)); [now left | now right].
Qed.

Lemma resolved_after_clear (w : World) (k key : OverlayWindowKey)
    (s : GameOverlayService) :
  resolved w k s = defaultPosition w k ->
  resolved w key (with_state (SET_WINDOW_POSITION k None) s) = resolved w key s.
Proof.
  intros Hdef. destruct (key_eqb_eq key k) as [_ Heq].
  destruct (key_eqb key k) eqn:E.
  - apply key_eqb_eq in E. subst key. rewrite Hdef.
    unfold resolved, determineStartPosition. simpl.
    unfold SET_WINDOW_POSITION. now rewrite props_set_props_same.
  - apply resolved_state. simpl. unfold SET_WINDOW_POSITION.
    rewrite props_set_props_other; [reflexivity|].
    intros ->. now rewrite key_eqb_refl in E.
Qed.

(** One iteration of [configureWindows] on a pair that exists: it
    returns, puts both windows of the pair at the resolved position with
    the size of the key, arms the one-shot listener, and touches no other
    pair. *)
Lemma configureWindow_returns (w : World) (k : OverlayWindowKey)
    (s : GameOverlayService) (win pwin : BrowserWindow) :
  lookup k (windows s) = Some win ->
  lookup k (previewWindows s) = Some pwin ->
  let r := {| origin := resolved w k s; extent := windowSize k |} in
  exists s',
    configureWindow w k s = Returned tt s'
    /\ (forall key, lookup key (windows s')
                    = if key_eqb key k
                      then Some {| getBounds := r; onceDidFinishLoad := true |}
                      else lookup key (windows s))
    /\ (forall key, lookup key (previewWindows s')
                    = if key_eqb key k then Some (setBounds r pwin)
                      else lookup key (previewWindows s))
    /\ (forall key, resolved w key s' = resolved w key s)
    /\ calls s' = calls s ++ [win_setBounds (sourceWindow k) r;
                              win_setBounds (previewWindow k) r]
    /\ subscriptions s' = subscriptions s
    /\ state s' = settle w k (state s).
Proof.
  intros Hwin Hpwin r.
  set (s1 := with_windows (assign k (once_did_finish_load win)) s).
  assert (Hres1 : forall key, resolved w key s1 = resolved w key s)
    by (intros key; now apply resolved_state).
  assert (Hd : exists s2,
             determineStartPosition w k s1 = (resolved w k s, s2)
             /\ windows s2 = windows s1
             /\ previewWindows s2 = previewWindows s
             /\ calls s2 = calls s
             /\ subscriptions s2 = subscriptions s
             /\ state s2 = settle w k (state s)
             /\ forall key, resolved w key s2 = resolved w key s).
  { exists (snd (determineStartPosition w k s1)).
    assert (Hst : state (snd (determineStartPosition w k s1)) = settle w k (state s)).
    { unfold determineStartPosition, settle. subst s1. simpl.
      destruct (position (props (state s) k)) as [pos|]; [|reflexivity].
      now destruct (find (insideBounds pos) (getAllDisplays w)). }
    destruct (determineStartPosition_cases w k s1) as [E | [E Hdef]];
      rewrite E in *; simpl in *.
    - rewrite Hres1. repeat split; [exact Hst | exact Hres1].
    - rewrite <- Hdef, Hres1. repeat split; [exact Hst|].
      intros key. rewrite resolved_after_clear by exact Hdef. apply Hres1. }
  destruct Hd as (s2 & E & Hw2 & Hp2 & Hc2 & Hs2 & Hst2 & Hr2).
  unfold configureWindow, bind, onSourceWindow, onPreviewWindow.
  rewrite Hwin. cbn [fold_left]. fold s1. rewrite E. fold r.
  rewrite Hw2. subst s1. cbn [windows with_windows].
  rewrite lookup_assign_same. cbn [fold_left previewWindows call with_windows].
  rewrite Hp2, Hpwin. cbn [fold_left].
  eexists. split; [reflexivity|]. split; [|split; [|split; [|split; [|split]]]].
  - intros key. simpl. rewrite Hw2. simpl. rewrite !lookup_assign.
    now destruct (key_eqb key k).
  - intros key. simpl. rewrite Hp2. now rewrite lookup_assign.
  - intros key. rewrite <- (Hr2 key). now apply resolved_state.
  - simpl. rewrite Hc2. now rewrite <- app_assoc.
  - simpl. exact Hs2.
  - simpl. exact Hst2.
Qed.

Lemma configureWindow_step (w : World) (k : OverlayWindowKey)
    (s : GameOverlayService) :
  complete s ->
  exists s',
    configureWindow w k s = Returned tt s'
    /\ complete s'
    /\ (forall key, resolved w key s' = resolved w key s)
    /\ placed_at_start w k s'
    /\ (forall key, placed_at_start w key s -> placed_at_start w key s')
    /\ subscriptions s' = subscriptions s
    /\ state s' = settle w k (state s).
Proof.
  intros Hc.
  destruct (lookup k (windows s)) as [win|] eqn:Hwin; [|now destruct (Hc k)].
  destruct (lookup k (previewWindows s)) as [pwin|] eqn:Hpwin;
    [|now destruct (Hc k)].
  destruct (configureWindow_returns w k s win pwin Hwin Hpwin)
    as (s' & E & Hw & Hp & Hr & _ & Hsub & Hst).
  assert (Hk : placed_at_start w k s').
  { unfold placed_at_start, placed. rewrite Hw, Hp, Hr, key_eqb_refl.
    do 2 eexists. repeat split. }
  exists s'. split; [exact E|].
  split; [|split; [exact Hr | split; [exact Hk | split; [|now split]]]].
  - intros key. rewrite Hw, Hp. destruct (key_eqb key k); [split; discriminate|].
    apply Hc.
  - intros key Hplaced. destruct (key_eqb key k) eqn:Ek.
    + apply key_eqb_eq in Ek. now subst key.
    + unfold placed_at_start, placed in *. now rewrite Hw, Hp, Hr, Ek.
Qed.

Lemma forEach_configureWindow (w : World) (l : list OverlayWindowKey) :
  forall s, complete s ->
  exists s',
    forEach l (configureWindow w) s = Returned tt s'
    /\ complete s'
    /\ (forall key, resolved w key s' = resolved w key s)
    /\ (forall key, In key l \/ placed_at_start w key s ->
                    placed_at_start w key s')
    /\ subscriptions s' = subscriptions s
    /\ state s' = fold_left (fun st k => settle w k st) l (state s).
Proof.
  induction l as [|k l IH]; intros s Hc; simpl.
  - exists s. repeat split; try apply Hc. intros key [[] | H]. exact H.
  - destruct (configureWindow_step w k s Hc)
      as (s1 & E & Hc1 & Hr1 & Hk & Hkeep & Hs1 & Hst1).
    destruct (IH s1 Hc1) as (s' & E' & Hc' & Hr' & Hall & Hs' & Hst').
    exists s'. unfold bind. rewrite E. split; [exact E'|].
    split; [exact Hc'|]. split; [|split; [|split]].
    + intros key. now rewrite Hr', Hr1.
    + intros key [[-> | Hin] | Hplaced]; apply Hall; auto.
    + now rewrite Hs', Hs1.
    + now rewrite Hst', Hst1.
Qed.

(** [loadURL] on an existing source window changes no window. *)
Lemma loadURL_returns (key : OverlayWindowKey) (s : GameOverlayService) :
  complete s ->
  exists s',
    onSourceWindow key (fun win => win) [win_loadURL (sourceWindow key)] s
    = Returned tt s'
    /\ state s' = state s
    /\ previewWindows s' = previewWindows s
    /\ subscriptions s' = subscriptions s
    /\ forall k, lookup k (windows s') = lookup k (windows s).
Proof.
  intros Hc. unfold onSourceWindow.
  destruct (lookup key (windows s)) as [win|] eqn:Hwin; [|now destruct (Hc key)].
  eexists. split; [reflexivity|]. repeat split.
  intros k. simpl. rewrite lookup_assign.
  destruct (key_eqb k key) eqn:E; [|reflexivity].
  apply key_eqb_eq in E. now subst k.
Qed.

Lemma created_is_complete (w : World) (s : GameOverlayService) :
  complete (createPreviewWindows w (createBrowserWindows w s)).
Proof.
  intros key. unfold createPreviewWindows, createBrowserWindows. simpl.
  rewrite !lookup_assign.
  destruct key; simpl; split; discriminate.
Qed.

Lemma initializeOverlay_placement (w : World) (s : GameOverlayService) :
  exists s',
    initializeOverlay w s = Returned tt s'
    /\ (forall key,
          placed key {| origin := resolved w key s; extent := windowSize key |} s')
    /\ (forall key, resolved w key s' = resolved w key s)
    /\ subscriptions s'
       = subscribe (List.length (keys (windows s))) :: subscriptions s
    /\ state s'
       = fold_left (fun st k => settle w k st)
           (keys (windows (createBrowserWindows w s))) (state s).
Proof.
  unfold initializeOverlay, bind, modify.
  set (s4 := createPreviewWindows w (createBrowserWindows w _)).
  assert (Hc4 : complete s4) by apply created_is_complete.
  assert (Hr4 : forall key, resolved w key s4 = resolved w key s)
    by (intros key; now apply resolved_state).
  assert (Hs4 : subscriptions s4
                = subscribe (List.length (keys (windows s))) :: subscriptions s)
    by reflexivity.
  unfold configureWindows, bind, gets.
  destruct (forEach_configureWindow w (keys (windows s4)) s4 Hc4)
    as (s5 & E5 & Hc5 & Hr5 & Hall & Hs5 & Hst5).
  rewrite E5.
  destruct (loadURL_returns recentEvents s5 Hc5)
    as (s6 & E6 & Hst6 & Hp6 & Hs6 & Hw6).
  rewrite E6.
  assert (Hc6 : complete s6).
  { intros key. rewrite Hw6, Hp6. apply Hc5. }
  destruct (loadURL_returns chat s6 Hc6) as (s7 & E7 & Hst7 & Hp7 & Hs7 & Hw7).
  rewrite E7. exists s7. split; [reflexivity|].
  assert (Hr7 : forall key, resolved w key s7 = resolved w key s).
  { intros key. rewrite <- Hr4, <- Hr5. apply resolved_state.
    now rewrite Hst7, Hst6. }
  split; [|split; [exact Hr7 | split]].
  - intros key.
    assert (H5 : placed_at_start w key s5).
    { apply Hall. left. apply keys_lookup, Hc4. }
    unfold placed_at_start, placed in H5. unfold placed.
    rewrite Hw7, Hw6, Hp7, Hp6, <- Hr4, <- Hr5. exact H5.
  - now rewrite Hs7, Hs6, Hs5.
  - rewrite Hst7, Hst6, Hst5. reflexivity.
Qed.

(** [initializeOverlay()] always returns.  Afterwards each key has its
    source and its preview window at the same bounds: the position
    resolved by [determineStartPosition] from the state the method
    started in, and the size of the key (600x300 for recent events,
    300x600 for chat); each source window has its one-shot load listener
    waiting; and resolving again gives the same positions. *)
Theorem initializeOverlay_places_every_pair (w : World) (s : GameOverlayService) :
  exists s',
    initializeOverlay w s = Returned tt s'
    /\ (forall key,
          placed key {| origin := resolved w key s; extent := windowSize key |} s')
    /\ (forall key, resolved w key s' = resolved w key s)
    /\ subscriptions s'
       = subscribe (List.length (keys (windows s))) :: subscriptions s.
Proof.
  destruct (initializeOverlay_placement w s) as (s' & E & Hp & Hr & Hs & _).
  now exists s'.
Qed.

(** ** setEnabled *)

Lemma SET_ENABLED_same (st : GameOverlayState) : SET_ENABLED (isEnabled st) st = st.
Proof. now destruct st. Qed.

(** [setEnabled(b)] always returns and leaves [isEnabled = b]; when the
    subsystem already is in the requested state nothing happens at all:
    no initialization, no teardown, no call, the same service. *)
Theorem setEnabled_reaches_requested_state (w : World) (shouldEnable : bool)
    (s : GameOverlayService) :
  exists s',
    setEnabled w shouldEnable s = Returned tt s'
    /\ isEnabled (state s') = shouldEnable
    /\ (isEnabled (state s) = shouldEnable -> s' = s).
Proof.
  unfold setEnabled, bind, gets, modify, ret.
  destruct shouldEnable, (isEnabled (state s)) eqn:Hen; simpl.
  - eexists. split; [reflexivity|]. split; [reflexivity|]. intros _.
    apply with_state_id. rewrite <- Hen. apply SET_ENABLED_same.
  - destruct (initializeOverlay_placement w s) as (s1 & E & _).
    rewrite E. eexists. split; [reflexivity|]. split; [reflexivity|].
    discriminate.
  - eexists. split; [reflexivity|]. split; [reflexivity|]. discriminate.
  - eexists. split; [reflexivity|]. split; [reflexivity|]. intros _.
    apply with_state_id. rewrite <- Hen. apply SET_ENABLED_same.
Qed.

Lemma setEnabled_reaches_witness :
  exists s',
    setEnabled world_running true enabled_service = Returned tt s'
    /\ isEnabled (state s') = true
    /\ (isEnabled (state enabled_service) = true -> s' = enabled_service).
Proof.
  exact (setEnabled_reaches_requested_state world_running true enabled_service).
Defined.

(** ** createWindowOverlays when every window is accepted *)

Lemma props_SET_WINDOW_ID (k key : OverlayWindowKey) (i : option Z)
    (st : GameOverlayState) :
  props (SET_WINDOW_ID k i st) key
  = if key_eqb key k then {| position := position (props st k); id := i |}
    else props st key.
Proof. now destruct k, key. Qed.

Lemma position_SET_WINDOW_ID (k key : OverlayWindowKey) (i : option Z)
    (st : GameOverlayState) :
  position (props (SET_WINDOW_ID k i st) key) = position (props st key).
Proof. now destruct k, key. Qed.

Lemma registration_calls_stable (w : World) (s s' : GameOverlayService)
    (key : OverlayWindowKey) :
  windows s' = windows s ->
  opacity (state s') = opacity (state s) ->
  (forall k, position (props (state s') k) = position (props (state s) k)) ->
  registration_calls w s' key = registration_calls w s key.
Proof.
  intros Hw Ho Hp. unfold registration_calls, getPosition.
  now rewrite Hw, Ho, Hp.
Qed.

Lemma createWindowOverlay_registers (w : World) (key : OverlayWindowKey)
    (s : GameOverlayService) :
  In key (keys (windows s)) ->
  invalidId (addHWND w key) = false ->
  createWindowOverlay w key s
  = Returned tt
      (append_calls (registration_calls w s key)
         (with_state (SET_WINDOW_ID key (addHWND w key)) s)).
Proof.
  intros Hin Hok. destruct (lookup_keys key (windows s) Hin) as [win Hwin].
  unfold createWindowOverlay, registration_calls, bind, gets, modify.
  rewrite Hwin, Hok. unfold getPosition. simpl.
  rewrite position_SET_WINDOW_ID. unfold append_calls, call. simpl.
  now rewrite <- !app_assoc.
Qed.

Lemma key_eq_dec (a b : OverlayWindowKey) : {a = b} + {a <> b}.
Proof. decide equality. Qed.

Lemma ids_after_registrations (w : World) (l : list OverlayWindowKey)
    (key : OverlayWindowKey) :
  forall st,
    let st' := fold_left (fun st0 k => SET_WINDOW_ID k (addHWND w k) st0) l st in
    position (props st' key) = position (props st key)
    /\ opacity st' = opacity st
    /\ (In key l -> id (props st' key) = addHWND w key)
    /\ (~ In key l -> id (props st' key) = id (props st key)).
Proof.
  induction l as [|k l IH]; intros st; simpl.
  - repeat split; tauto.
  - destruct (IH (SET_WINDOW_ID k (addHWND w k) st)) as (Hp & Ho & Hin & Hout).
    rewrite position_SET_WINDOW_ID in Hp.
    split; [exact Hp|]. split; [exact Ho|]. split.
    + intros [-> | H]; [|now apply Hin].
      destruct (in_dec key_eq_dec key l) as [H | H].
      * now apply Hin.
      * rewrite (Hout H), props_SET_WINDOW_ID, key_eqb_refl. reflexivity.
    + intros H. rewrite Hout by tauto.
      rewrite props_SET_WINDOW_ID, key_eqb_neq; [reflexivity|]. intros ->. tauto.
Qed.

Lemma forEach_createWindowOverlay_all (w : World) (s0 : GameOverlayService)
    (l : list OverlayWindowKey) :
  (forall k, In k l -> In k (keys (windows s0))
                       /\ invalidId (addHWND w k) = false) ->
  forall s,
    windows s = windows s0 ->
    opacity (state s) = opacity (state s0) ->
    (forall k, position (props (state s) k) = position (props (state s0) k)) ->
    forEach l (createWindowOverlay w) s
    = Returned tt
        (append_calls (flat_map (registration_calls w s0) l)
           (with_state
              (fold_left (fun st k => SET_WINDOW_ID k (addHWND w k) st) l) s)).
Proof.
  induction l as [|k l IH]; intros Hl s Hw Ho Hp; simpl.
  - unfold ret. f_equal. rewrite append_calls_nil. now destruct s.
  - destruct (Hl k (or_introl eq_refl)) as (Hin & Hok).
    unfold bind. rewrite createWindowOverlay_registers; [|now rewrite Hw | exact Hok].
    rewrite IH.
    + rewrite (registration_calls_stable w s0 s k Hw Ho Hp).
      f_equal. unfold append_calls, with_state. simpl. now rewrite app_assoc.
    + intros k' Hk'. apply Hl. now right.
    + exact Hw.
    + exact Ho.
    + intros k'. simpl. now rewrite position_SET_WINDOW_ID.
Qed.

(** The pass as one equation, when every window is accepted. *)
Lemma createWindowOverlays_accepted_run (w : World) (s : GameOverlayService) :
  (forall k, In k (keys (windows s)) -> invalidId (addHWND w k) = false) ->
  createWindowOverlays w s
  = Returned tt
      (append_calls (flat_map (registration_calls w s) (keys (windows s)))
         (with_state
            (fold_left (fun st k => SET_WINDOW_ID k (addHWND w k) st)
               (keys (windows s))) s)).
Proof.
  intros Hok. unfold createWindowOverlays, bind, gets.
  apply (forEach_createWindowOverlay_all w s); auto.
Qed.

Lemma flags_after_registrations (w : World) (l : list OverlayWindowKey) :
  forall st,
    let st' := fold_left (fun st0 k => SET_WINDOW_ID k (addHWND w k) st0) l st in
    isEnabled st' = isEnabled st
    /\ isShowing st' = isShowing st
    /\ isPreviewEnabled st' = isPreviewEnabled st
    /\ previewMode st' = previewMode st
    /\ opacity st' = opacity st.
Proof.
  induction l as [|k l IH]; intros st; simpl.
  - repeat split.
  - exact (IH (SET_WINDOW_ID k (addHWND w k) st)).
Qed.

(** When the compositor accepts every window, [createWindowOverlays()]
    returns after one registration per key of [this.windows], in order,
    each followed by its geometry (the stored position when there is one,
    else the window's own), the binary64 product of the persisted opacity
    and 2.55, the paint hook and the frame rate.  Every key of the table
    then holds the id the compositor gave and its position as before;
    the other keys, the five other fields of the persisted state, the
    window tables and the subscriptions are as before. *)
Theorem createWindowOverlays_registers_every_window (w : World)
    (s : GameOverlayService) :
  (forall k, In k (keys (windows s)) -> invalidId (addHWND w k) = false) ->
  exists s',
    createWindowOverlays w s = Returned tt s'
    /\ calls s' = calls s ++ flat_map (registration_calls w s) (keys (windows s))
    /\ (forall key, In key (keys (windows s)) ->
                    props (state s') key
                    = {| position := position (props (state s) key);
                         id := addHWND w key |})
    /\ (forall key, ~ In key (keys (windows s)) ->
                    props (state s') key = props (state s) key)
    /\ (isEnabled (state s') = isEnabled (state s)
        /\ isShowing (state s') = isShowing (state s)
        /\ isPreviewEnabled (state s') = isPreviewEnabled (state s)
        /\ previewMode (state s') = previewMode (state s)
        /\ opacity (state s') = opacity (state s))
    /\ windows s' = windows s
    /\ previewWindows s' = previewWindows s
    /\ replacedWindows s' = replacedWindows s
    /\ subscriptions s' = subscriptions s.
Proof.
  intros Hok.
  rewrite (createWindowOverlays_accepted_run w s Hok) in *.
  eexists. split; [reflexivity|].
  split; [reflexivity|].
  split; [|split; [|split; [|split; [|split; [|split]]]]];
    try reflexivity.
  3: exact (flags_after_registrations w (keys (windows s)) (state s)).
  - intros key Hin. simpl.
    destruct (ids_after_registrations w (keys (windows s)) key (state s))
      as (Hp & _ & Hid & _).
    specialize (Hid Hin).
    destruct (props (fold_left _ _ _) key) as [p i]. simpl in *. congruence.
  - intros key Hout. simpl.
    destruct (ids_after_registrations w (keys (windows s)) key (state s))
      as (Hp & _ & _ & Hid).
    specialize (Hid Hout).
    destruct (props (fold_left _ _ _) key) as [p i].
    destruct (props (state s) key) as [p' i']. simpl in *. congruence.
Qed.

Lemma createWindowOverlays_registers_witness :
  exists s',
    createWindowOverlays world_running enabled_service = Returned tt s'
    /\ calls s' = calls enabled_service
                  ++ flat_map (registration_calls world_running enabled_service)
                       (keys (windows enabled_service))
    /\ (forall key, In key (keys (windows enabled_service)) ->
                    props (state s') key
                    = {| position := position (props (state enabled_service) key);
                         id := addHWND world_running key |})
    /\ (forall key, ~ In key (keys (windows enabled_service)) ->
                    props (state s') key = props (state enabled_service) key)
    /\ (isEnabled (state s') = isEnabled (state enabled_service)
        /\ isShowing (state s') = isShowing (state enabled_service)
        /\ isPreviewEnabled (state s') = isPreviewEnabled (state enabled_service)
        /\ previewMode (state s') = previewMode (state enabled_service)
        /\ opacity (state s') = opacity (state enabled_service))
    /\ windows s' = windows enabled_service
    /\ previewWindows s' = previewWindows enabled_service
    /\ replacedWindows s' = replacedWindows enabled_service
    /\ subscriptions s' = subscriptions enabled_service.
Proof.
  apply (createWindowOverlays_registers_every_window world_running enabled_service).
  intros k _. now destruct k.
Defined.

(** What the registration of the chat window sends on the enabled
    service, whose opacity is the default 100: the product is the double
    254.99999999999997, not 255. *)
Lemma registration_calls_sample :
  nth_error (registration_calls world_running enabled_service chat) 2
  = Some (overlay_setTransparency (Some 7%Z)
            (finite (8972014882652159 # 35184372088832)))
  /\ (8972014882652159 # 35184372088832) < 255.
Proof. split; [vm_compute; reflexivity | unfold Qlt; simpl; lia]. Qed.

(** ** resetPosition on registered surfaces *)

Lemma lookup_assign_none {A} (key k : OverlayWindowKey) (v : A) (t : Table A) :
  lookup key t <> None ->
  (lookup k (assign key v t) = None <-> lookup k t = None).
Proof.
  intros H. rewrite lookup_assign. destruct (key_eqb k key) eqn:E; [|tauto].
  apply key_eqb_eq in E. subst k. split; [discriminate | tauto].
Qed.

Lemma props_SET_WINDOW_POSITION (k key : OverlayWindowKey) (p : option IVec2)
    (st : GameOverlayState) :
  props (SET_WINDOW_POSITION k p st) key
  = if key_eqb key k then {| position := p; id := id (props st k) |}
    else props st key.
Proof. now destruct k, key. Qed.

(** One iteration of [resetPosition] on a key whose windows exist. *)
Lemma resetPosition_key_step (w : World) (k : OverlayWindowKey)
    (s : GameOverlayService) :
  lookup k (windows s) <> None ->
  (falsy (id (props (state s) k)) = false -> lookup k (previewWindows s) <> None) ->
  exists s',
    resetPosition_key w k s = Returned tt s'
    /\ (forall key, id (props (state s') key) = id (props (state s) key))
    /\ (forall key, lookup key (windows s') = None <-> lookup key (windows s) = None)
    /\ (forall key, lookup key (previewWindows s') = None
                    <-> lookup key (previewWindows s) = None)
    /\ (falsy (id (props (state s) k)) = false ->
        reset_done w k (id (props (state s) k)) s')
    /\ (forall key i, reset_done w key i s -> reset_done w key i s').
Proof.
  intros Hwin Hpre.
  destruct (falsy (id (props (state s) k))) eqn:Hid.
  - exists s. rewrite resetPosition_key_skips by exact Hid.
    split; [reflexivity|]. split; [reflexivity|]. split; [tauto|].
    split; [tauto|]. split; [discriminate | auto].
  - specialize (Hpre eq_refl).
    destruct (lookup k (windows s)) as [win|] eqn:Ew; [|congruence].
    destruct (lookup k (previewWindows s)) as [pwin|] eqn:Ep; [|congruence].
    unfold resetPosition_key, bind, gets, modify, onSourceWindow, onPreviewWindow.
    rewrite Hid. simpl. rewrite Ew. simpl. rewrite Ep. simpl.
    eexists. split; [reflexivity|]. simpl.
    split; [|split; [|split; [|split]]].
    + intros key. rewrite props_SET_WINDOW_POSITION.
      destruct (key_eqb key k) eqn:E; [|reflexivity].
      apply key_eqb_eq in E. now subst key.
    + intros key. apply lookup_assign_none. congruence.
    + intros key. apply lookup_assign_none. congruence.
    + intros _. unfold reset_done. simpl.
      rewrite props_SET_WINDOW_POSITION, key_eqb_refl, !lookup_assign_same.
      split; [reflexivity|]. split.
      * do 2 eexists. repeat split.
      * rewrite !in_app_iff. right. now left.
    + intros key i (Hp & (win' & pwin' & Hw' & Hp' & Hb & Hb') & Hcall).
      unfold reset_done. simpl.
      rewrite props_SET_WINDOW_POSITION, !lookup_assign.
      destruct (key_eqb key k) eqn:E.
      * apply key_eqb_eq in E. subst key.
        split; [reflexivity|]. split.
        -- do 2 eexists. repeat split.
        -- rewrite !in_app_iff. tauto.
      * split; [exact Hp|]. split.
        -- exists win', pwin'. repeat split; assumption.
        -- rewrite !in_app_iff. tauto.
Qed.

Lemma forEach_resetPosition_key (w : World) (l : list OverlayWindowKey) :
  forall s,
    (forall k, In k l -> lookup k (windows s) <> None) ->
    (forall k, In k l -> falsy (id (props (state s) k)) = false ->
               lookup k (previewWindows s) <> None) ->
    exists s',
      forEach l (resetPosition_key w) s = Returned tt s'
      /\ (forall key, id (props (state s') key) = id (props (state s) key))
      /\ (forall key i, reset_done w key i s -> reset_done w key i s')
      /\ (forall key, In key l -> falsy (id (props (state s) key)) = false ->
                      reset_done w key (id (props (state s) key)) s').
Proof.
  induction l as [|k l IH]; intros s Hw Hp; simpl.
  - exists s. split; [reflexivity|]. split; [reflexivity|].
    split; [auto|]. intros key [].
  - destruct (resetPosition_key_step w k s) as (s1 & E & Hid & Hw1 & Hp1 & Hk & Hkeep).
    { apply Hw. now left. }
    { apply Hp. now left. }
    destruct (IH s1) as (s' & E' & Hid' & Hkeep' & Hall).
    { intros k' Hk'. rewrite Hw1. apply Hw. now right. }
    { intros k' Hk'. rewrite Hid, Hp1. apply Hp. now right. }
    exists s'. unfold bind. rewrite E. split; [exact E'|]. split; [|split].
    + intros key. now rewrite Hid', Hid.
    + intros key i H. apply Hkeep', Hkeep, H.
    + intros key [-> | Hin] Hf.
      * apply Hkeep', Hk, Hf.
      * rewrite <- Hid. apply Hall; [exact Hin | now rewrite Hid].
Qed.

(** When every registered key of [this.windows] has its preview window,
    [resetPosition()] returns, and afterwards each registered key has no
    stored position, has its source and preview windows both at the
    key's default rectangle, and has had that geometry sent to the
    compositor under its surface id; the ids themselves are kept. *)
Theorem resetPosition_moves_registered_pairs (w : World) (s : GameOverlayService) :
  (forall k, In k (keys (windows s)) ->
             falsy (id (props (state s) k)) = false ->
             lookup k (previewWindows s) <> None) ->
  exists s',
    resetPosition w s = Returned tt s'
    /\ (forall key, id (props (state s') key) = id (props (state s) key))
    /\ (forall key, In key (keys (windows s)) ->
                    falsy (id (props (state s) key)) = false ->
                    reset_done w key (id (props (state s) key)) s').
Proof.
  intros Hpre. unfold resetPosition, bind, gets.
  destruct (forEach_resetPosition_key w (keys (windows s)) s)
    as (s' & E & Hid & _ & Hall).
  - intros k Hk. destruct (lookup_keys k (windows s) Hk) as [win Hwin]. congruence.
  - exact Hpre.
  - exists s'. auto.
Qed.

Lemma resetPosition_moves_witness :
  exists s',
    resetPosition world_running registered_and_dragged = Returned tt s'
    /\ (forall key, id (props (state s') key)
                    = id (props (state registered_and_dragged) key))
    /\ (forall key, In key (keys (windows registered_and_dragged)) ->
                    falsy (id (props (state registered_and_dragged) key)) = false ->
                    reset_done world_running key
                      (id (props (state registered_and_dragged) key)) s').
Proof.
  apply (resetPosition_moves_registered_pairs world_running registered_and_dragged).
  intros k _ _. destruct k; vm_compute; discriminate.
Defined.

(** ** Entering and leaving preview mode *)

Lemma props_windowProperties (st st' : GameOverlayState) (k : OverlayWindowKey) :
  windowProperties st' = windowProperties st -> props st' k = props st k.
Proof. intros H. unfold props. now rewrite H. Qed.

Lemma preview_geometry_stable (s s' : GameOverlayService) (key : OverlayWindowKey) :
  previewWindows s' = previewWindows s ->
  (forall k, id (props (state s') k) = id (props (state s) k)) ->
  preview_geometry s' key = preview_geometry s key.
Proof. intros Hp Hid. unfold preview_geometry. now rewrite Hp, Hid. Qed.

Lemma leavePreview_unfold (s : GameOverlayService) (key : OverlayWindowKey) :
  leavePreview s key
  = append_calls (preview_geometry s key)
      (match lookup key (previewWindows s) with
       | Some win => with_state (SET_WINDOW_POSITION key (Some (getPosition_of win))) s
       | None => s
       end).
Proof.
  unfold leavePreview, preview_geometry.
  destruct (lookup key (previewWindows s)); [reflexivity|].
  now rewrite append_calls_nil.
Qed.

Lemma fold_leavePreview (l : list OverlayWindowKey) :
  forall s,
    let s' := fold_left leavePreview l s in
    calls s' = calls s ++ flat_map (preview_geometry s) l
    /\ previewWindows s' = previewWindows s
    /\ windows s' = windows s
    /\ (forall k, id (props (state s') k) = id (props (state s) k))
    /\ (forall key win, In key l -> lookup key (previewWindows s) = Some win ->
                        position (props (state s') key) = Some (getPosition_of win))
    /\ (forall key, ~ In key l ->
                    position (props (state s') key) = position (props (state s) key)).
Proof.
  induction l as [|k l IH]; intros s; simpl.
  - rewrite app_nil_r. repeat split; tauto.
  - destruct (IH (leavePreview s k)) as (Hc & Hp & Hw & Hid & Hin & Hout).
    assert (Hp1 : previewWindows (leavePreview s k) = previewWindows s).
    { rewrite leavePreview_unfold. now destruct (lookup k (previewWindows s)). }
    assert (Hw1 : windows (leavePreview s k) = windows s).
    { rewrite leavePreview_unfold. now destruct (lookup k (previewWindows s)). }
    assert (Hid1 : forall k', id (props (state (leavePreview s k)) k')
                              = id (props (state s) k')).
    { intros k'. rewrite leavePreview_unfold.
      destruct (lookup k (previewWindows s)); [|reflexivity].
      simpl. rewrite props_SET_WINDOW_POSITION.
      destruct (key_eqb k' k) eqn:E; [|reflexivity].
      apply key_eqb_eq in E. now subst k'. }
    assert (Hc1 : calls (leavePreview s k) = calls s ++ preview_geometry s k).
    { rewrite leavePreview_unfold. now destruct (lookup k (previewWindows s)). }
    split; [|split; [|split; [|split; [|split]]]].
    + rewrite Hc, Hc1, <- app_assoc. f_equal. f_equal.
      apply flat_map_ext. intros key. now apply preview_geometry_stable.
    + congruence.
    + congruence.
    + intros k'. now rewrite Hid, Hid1.
    + intros key win [-> | H] Hl.
      * destruct (in_dec key_eq_dec key l) as [H | H].
        -- apply Hin; [exact H | now rewrite Hp1].
        -- rewrite (Hout key H), leavePreview_unfold, Hl. simpl.
           now rewrite props_SET_WINDOW_POSITION, key_eqb_refl.
      * apply Hin; [exact H | now rewrite Hp1].
    + intros key H. rewrite Hout by tauto.
      rewrite leavePreview_unfold.
      destruct (lookup k (previewWindows s)); [|reflexivity].
      simpl. rewrite props_SET_WINDOW_POSITION, key_eqb_neq; [reflexivity|].
      intros ->. tauto.
Qed.

(** Leaving preview mode on an enabled subsystem: the live overlay is
    hidden first if it was showing; then, for each preview window in
    order and exactly once, its on-screen position becomes the stored
    position of its key and its position and size are sent to the
    compositor under the key's surface id; then each preview window is
    hidden.  The flags end as [previewMode = false], [isShowing = false]. *)
Theorem leaving_preview_persists_and_forwards (s : GameOverlayService) :
  isEnabled (state s) = true ->
  previewMode (state (setPreviewMode false s)) = false
  /\ isShowing (state (setPreviewMode false s)) = false
  /\ calls (setPreviewMode false s)
     = calls s
       ++ (if isShowing (state s) then [overlay_hide] else [])
       ++ flat_map (preview_geometry s) (keys (previewWindows s))
       ++ map (fun key => win_hide (previewWindow key)) (keys (previewWindows s))
  /\ (forall key win, lookup key (previewWindows s) = Some win ->
                      position (props (state (setPreviewMode false s)) key)
                      = Some (getPosition_of win))
  /\ (forall key, id (props (state (setPreviewMode false s)) key)
                  = id (props (state s) key)).
Proof.
  intros Hen.
  destruct (setPreviewMode_sync_effect false s) as (Hs & Hp & He & _).
  rewrite Hen in Hp, He.
  unfold setPreviewMode, setPreviewMode_resume. rewrite He. simpl.
  rewrite (fold_left_call (fun _ key => win_hide (previewWindow key))).
  simpl. split; [exact Hp|]. split; [exact Hs|].
  unfold setPreviewMode_sync in *.
  set (s1 := if isShowing (state s) then hideOverlay s else s) in *.
  assert (H1 : isEnabled (state s1) = true
               /\ previewWindows s1 = previewWindows s
               /\ windowProperties (state s1) = windowProperties (state s)
               /\ calls s1 = calls s
                             ++ (if isShowing (state s) then [overlay_hide] else [])).
  { subst s1. destruct (isShowing (state s)); simpl; repeat split; auto.
    now rewrite app_nil_r. }
  destruct H1 as (He1 & Hp1 & Hwp1 & Hc1). rewrite He1 in *. simpl in *.
  destruct (fold_leavePreview (keys (previewWindows s1))
              (with_state (SET_PREVIEW_MODE false) s1))
    as (Hc & Hpw & _ & Hid & Hin & _).
  simpl in Hc, Hpw, Hid, Hin.
  split; [|split].
  - rewrite Hpw, Hc, Hc1, Hp1, <- !app_assoc. f_equal. f_equal. f_equal.
    apply flat_map_ext. intros key. apply preview_geometry_stable.
    + exact Hp1.
    + intros k. now rewrite (props_windowProperties (state s) _ k).
  - intros key win Hl. apply Hin.
    + rewrite Hp1. apply keys_lookup. congruence.
    + now rewrite Hp1.
  - intros key. rewrite Hid. now rewrite (props_windowProperties (state s) _ key).
Qed.

Lemma leaving_preview_witness :
  previewMode (state (setPreviewMode false in_preview_dragged)) = false
  /\ isShowing (state (setPreviewMode false in_preview_dragged)) = false
  /\ calls (setPreviewMode false in_preview_dragged)
     = calls in_preview_dragged
       ++ (if isShowing (state in_preview_dragged) then [overlay_hide] else [])
       ++ flat_map (preview_geometry in_preview_dragged)
            (keys (previewWindows in_preview_dragged))
       ++ map (fun key => win_hide (previewWindow key))
            (keys (previewWindows in_preview_dragged))
  /\ (forall key win, lookup key (previewWindows in_preview_dragged) = Some win ->
                      position (props (state (setPreviewMode false in_preview_dragged)) key)
                      = Some (getPosition_of win))
  /\ (forall key, id (props (state (setPreviewMode false in_preview_dragged)) key)
                  = id (props (state in_preview_dragged) key)).
Proof.
  apply (leaving_preview_persists_and_forwards in_preview_dragged).
  reflexivity.
Defined.

(** Entering preview mode on an enabled subsystem: the live overlay is
    hidden first if it was showing, then every preview window is shown,
    once and in order; nothing is written to the stored positions or
    ids. *)
Theorem entering_preview_shows_every_preview_window (s : GameOverlayService) :
  isEnabled (state s) = true ->
  previewMode (state (setPreviewMode true s)) = true
  /\ isShowing (state (setPreviewMode true s)) = false
  /\ windowProperties (state (setPreviewMode true s)) = windowProperties (state s)
  /\ calls (setPreviewMode true s)
     = calls s
       ++ (if isShowing (state s) then [overlay_hide] else [])
       ++ map (fun key => win_show (previewWindow key)) (keys (previewWindows s)).
Proof.
  intros Hen. unfold setPreviewMode, setPreviewMode_resume, setPreviewMode_sync.
  destruct (isShowing (state s)) eqn:Hsh; simpl; rewrite Hen; simpl;
    rewrite (fold_left_call (fun _ key => win_show (previewWindow key)));
    simpl; rewrite Hen; simpl;
    (split; [reflexivity|]); (split; [auto|]); (split; [reflexivity|]).
  - now rewrite <- app_assoc.
  - reflexivity.
Qed.

Lemma entering_preview_witness :
  previewMode (state (setPreviewMode true showing_service)) = true
  /\ isShowing (state (setPreviewMode true showing_service)) = false
  /\ windowProperties (state (setPreviewMode true showing_service))
     = windowProperties (state showing_service)
  /\ calls (setPreviewMode true showing_service)
     = calls showing_service
       ++ (if isShowing (state showing_service) then [overlay_hide] else [])
       ++ map (fun key => win_show (previewWindow key))
            (keys (previewWindows showing_service)).
Proof.
  apply (entering_preview_shows_every_preview_window showing_service).
  reflexivity.
Defined.

(** ** Teardown *)

Lemma destroyOverlay_unsubscribes (s : GameOverlayService) :
  isEnabled (state s) = true ->
  subscriptions (destroyOverlay s)
  = match subscriptions s with
    | [] => []
    | sub :: rest => unsubscribe sub :: rest
    end.
Proof.
  intros Hen. unfold destroyOverlay. rewrite Hen.
  rewrite (fold_left_call (fun _ key => win_destroy (sourceWindow key))).
  rewrite (fold_left_call (fun _ key => win_destroy (previewWindow key))).
  reflexivity.
Qed.

(** [destroyOverlay()] on an enabled subsystem stops the compositor
    before it destroys any window, then destroys each source window and
    each preview window once, in table order; it unsubscribes the current
    readiness subscription; and it keeps both window tables as they are,
    keys included. *)
Theorem destroyOverlay_stops_compositor_first (s : GameOverlayService) :
  isEnabled (state s) = true ->
  calls (destroyOverlay s)
  = calls s
    ++ overlay_stop
       :: map (fun key => win_destroy (sourceWindow key)) (keys (windows s))
       ++ map (fun key => win_destroy (previewWindow key)) (keys (previewWindows s))
  /\ subscriptions (destroyOverlay s)
     = match subscriptions s with
       | [] => []
       | sub :: rest => unsubscribe sub :: rest
       end
  /\ windows (destroyOverlay s) = windows s
  /\ previewWindows (destroyOverlay s) = previewWindows s
  /\ state (destroyOverlay s)
     = TOGGLE_OVERLAY false (SET_PREVIEW_MODE false (state s)).
Proof.
  intros Hen. unfold destroyOverlay. rewrite Hen.
  rewrite (fold_left_call (fun _ key => win_destroy (sourceWindow key))).
  rewrite (fold_left_call (fun _ key => win_destroy (previewWindow key))).
  simpl. repeat split. now rewrite <- !app_assoc.
Qed.

Lemma destroyOverlay_stops_witness :
  calls (destroyOverlay enabled_service)
  = calls enabled_service
    ++ overlay_stop
       :: map (fun key => win_destroy (sourceWindow key))
            (keys (windows enabled_service))
       ++ map (fun key => win_destroy (previewWindow key))
            (keys (previewWindows enabled_service))
  /\ subscriptions (destroyOverlay enabled_service)
     = match subscriptions enabled_service with
       | [] => []
       | sub :: rest => unsubscribe sub :: rest
       end
  /\ windows (destroyOverlay enabled_service) = windows enabled_service
  /\ previewWindows (destroyOverlay enabled_service)
     = previewWindows enabled_service
  /\ state (destroyOverlay enabled_service)
     = TOGGLE_OVERLAY false (SET_PREVIEW_MODE false (state enabled_service)).
Proof.
  apply (destroyOverlay_stops_compositor_first enabled_service). reflexivity.
Defined.

(** ** Cancellation of the readiness subscription *)

Lemma closed_next (sub : Subscription) : closed sub = true -> next sub = sub.
Proof. intros H. unfold next. now rewrite H. Qed.

Lemma closed_tick (sub : Subscription) :
  closed sub = true -> tick_subscription sub = (sub, false).
Proof. intros H. unfold tick_subscription. now rewrite H. Qed.

Lemma map_closed {B} (f : Subscription -> B) (g : Subscription -> B)
    (subs : list Subscription) :
  Forall (fun sub => closed sub = true) subs ->
  (forall sub, closed sub = true -> f sub = g sub) ->
  map f subs = map g subs.
Proof.
  intros Hall Hfg. induction Hall as [|sub subs Hsub _ IH]; simpl; [reflexivity|].
  now rewrite IH, Hfg.
Qed.

Lemma with_subscriptions_same (subs : list Subscription) (s : GameOverlayService) :
  subs = subscriptions s -> with_subscriptions (fun _ => subs) s = s.
Proof. intros ->. now destruct s. Qed.

(** With every subscription closed, passing time does nothing. *)
Lemma tick_all_closed (w : World) (s : GameOverlayService) :
  all_closed s -> tick w s = s.
Proof.
  intros Hc. unfold tick. rewrite !map_map.
  rewrite (map_closed (fun sub => snd (tick_subscription sub)) (fun _ => false)
             (subscriptions s) Hc)
    by (intros sub H; now rewrite closed_tick).
  rewrite (map_closed (fun sub => fst (tick_subscription sub)) (fun sub => sub)
             (subscriptions s) Hc)
    by (intros sub H; now rewrite closed_tick).
  rewrite map_id, with_subscriptions_same by reflexivity.
  clear Hc.
  induction (subscriptions s) as [|sub subs IH]; simpl; [reflexivity | exact IH].
Qed.

Lemma elapse_all_closed (w : World) (ms : N) (s : GameOverlayService) :
  all_closed s -> elapse w ms s = s.
Proof.
  intros Hc. unfold elapse.
  induction ms as [|ms IH] using N.peano_ind; [reflexivity|].
  rewrite N.iter_succ, IH. now apply tick_all_closed.
Qed.

Lemma didFinishLoad_all_closed (key : OverlayWindowKey) (s : GameOverlayService) :
  all_closed s ->
  all_closed (didFinishLoad key s) /\ calls (didFinishLoad key s) = calls s
  /\ state (didFinishLoad key s) = state s.
Proof.
  intros Hc. unfold didFinishLoad.
  destruct (lookup key (windows s)) as [win|]; [|now split].
  destruct (onceDidFinishLoad win); [|now split].
  split; [|split; reflexivity]. unfold all_closed. simpl.
  rewrite (map_closed next (fun sub => sub) (subscriptions s) Hc)
    by (intros sub H; now apply closed_next).
  now rewrite map_id.
Qed.

Lemma replacedDidFinishLoad_all_closed (n : nat) (s : GameOverlayService) :
  all_closed s ->
  all_closed (replacedDidFinishLoad n s)
  /\ calls (replacedDidFinishLoad n s) = calls s
  /\ state (replacedDidFinishLoad n s) = state s.
Proof.
  intros Hc. unfold replacedDidFinishLoad.
  destruct (nth_error (replacedWindows s) n) as [win|]; [|now split].
  destruct (onceDidFinishLoad win); [|now split].
  split; [|split; reflexivity]. unfold all_closed. simpl.
  rewrite (map_closed next (fun sub => sub) (subscriptions s) Hc)
    by (intros sub H; now apply closed_next).
  now rewrite map_id.
Qed.

Lemma environment_all_closed (trace : list (World * Event)) :
  forall s, all_closed s -> environment_only trace ->
            calls (run trace s) = calls s /\ state (run trace s) = state s.
Proof.
  induction trace as [|[w e] trace IH]; intros s Hc Henv; simpl; [now split|].
  inversion Henv as [|? ? He Htl]; subst. simpl in He.
  destruct e; try contradiction; simpl.
  - destruct (didFinishLoad_all_closed key s Hc) as (Hc' & Hcalls & Hst).
    destruct (IH (didFinishLoad key s) Hc' Htl) as (H1 & H2).
    split; congruence.
  - destruct (replacedDidFinishLoad_all_closed n s Hc) as (Hc' & Hcalls & Hst).
    destruct (IH (replacedDidFinishLoad n s) Hc' Htl) as (H1 & H2).
    split; congruence.
  - rewrite elapse_all_closed by exact Hc. now apply IH.
Qed.

(** Once [destroyOverlay()] has run on an enabled subsystem whose
    earlier subscriptions, if any, are closed, no window load (of a
    window of the table or of a replaced one) and no amount of time makes
    the service call anything or change its state: the unsubscribed pipe
    never runs [createWindowOverlays]. *)
Theorem destroyOverlay_cancels_registration (s : GameOverlayService)
    (trace : list (World * Event)) :
  isEnabled (state s) = true ->
  Forall (fun sub => closed sub = true) (tl (subscriptions s)) ->
  environment_only trace ->
  calls (run trace (destroyOverlay s)) = calls (destroyOverlay s)
  /\ state (run trace (destroyOverlay s)) = state (destroyOverlay s).
Proof.
  intros Hen Htl Henv. apply environment_all_closed; [|exact Henv].
  unfold all_closed.
  rewrite (destroyOverlay_unsubscribes s Hen). destruct (subscriptions s) as [|sub rest]; [constructor|].
  constructor; [reflexivity | exact Htl].
Qed.

Lemma destroyOverlay_cancels_witness :
  calls (run [(world_running, ev_didFinishLoad recentEvents);
              (world_running, ev_didFinishLoad chat);
              (world_running, ev_elapse 6000)]
           (destroyOverlay enabled_service))
  = calls (destroyOverlay enabled_service)
  /\ state (run [(world_running, ev_didFinishLoad recentEvents);
                 (world_running, ev_didFinishLoad chat);
                 (world_running, ev_elapse 6000)]
              (destroyOverlay enabled_service))
     = state (destroyOverlay enabled_service).
Proof.
  apply (destroyOverlay_cancels_registration enabled_service).
  - reflexivity.
  - constructor.
  - repeat constructor.
Defined.

(** ** The readiness pipeline on a re-initialization *)

Lemma run_app (t1 t2 : list (World * Event)) (s : GameOverlayService) :
  run (t1 ++ t2) s = run t2 (run t1 s).
Proof.
  revert s. induction t1 as [|[w e] t1 IH]; intros s; simpl; [reflexivity|].
  apply IH.
Qed.

Lemma elapsed_app (t1 t2 : list (World * Event)) :
  elapsed (t1 ++ t2) = (elapsed t1 + elapsed t2)%N.
Proof.
  induction t1 as [|[w e] t1 IH]; simpl; [reflexivity|].
  destruct e; rewrite ?IH; try reflexivity. lia.
Qed.

Lemma subscriptions_createWindowOverlays (w : World) (s : GameOverlayService) :
  subscriptions (service_after (createWindowOverlays w s)) = subscriptions s.
Proof.
  unfold createWindowOverlays, bind, gets.
  apply (forEach_related (createWindowOverlay w) (fun _ => True)
           (fun s0 s' => subscriptions s' = subscriptions s0)); auto.
  - intros s1 s2 s3 H12 H23. congruence.
  - intros key s0 _.
    unfold createWindowOverlay, bind, gets, modify, throw, overlayWindow_hide.
    destruct (lookup key (windows s0)); [|reflexivity].
    destruct (invalidId (addHWND w key)); [|reflexivity].
    simpl. now destruct (overlayWindow s0).
Qed.

(** A millisecond for a service whose older subscriptions are closed:
    only the newest subscription can fire. *)
Lemma tick_head (w : World) (s : GameOverlayService) (head : Subscription)
    (rest : list Subscription) :
  subscriptions s = head :: rest ->
  Forall (fun sub => closed sub = true) rest ->
  tick w s
  = let s1 := with_subscriptions
                (fun _ => fst (tick_subscription head) :: rest) s in
    if snd (tick_subscription head)
    then service_after (createWindowOverlays w s1)
    else s1.
Proof.
  intros Hs Hrest. unfold tick. rewrite Hs. simpl. rewrite !map_map.
  rewrite (map_closed (fun sub => snd (tick_subscription sub)) (fun _ => false)
             rest Hrest)
    by (intros sub H; now rewrite closed_tick).
  rewrite (map_closed (fun sub => fst (tick_subscription sub)) (fun sub => sub)
             rest Hrest)
    by (intros sub H; now rewrite closed_tick).
  rewrite map_id.
  assert (Hfalse : forall s0,
             fold_right
               (fun (fired : bool) s' =>
                  if fired then service_after (createWindowOverlays w s') else s')
               s0 (map (fun _ : Subscription => false) rest) = s0).
  { intros s0. clear Hrest Hs. induction rest; simpl; auto. }
  now rewrite Hfalse.
Qed.

(** While the newest subscription still counts signals, time does
    nothing. *)
Lemma elapse_counting (w : World) (ms : N) (s : GameOverlayService)
    (head : Subscription) (rest : list Subscription) :
  subscriptions s = head :: rest ->
  closed head = false ->
  completeIn head = None ->
  Forall (fun sub => closed sub = true) rest ->
  elapse w ms s = s.
Proof.
  intros Hs Hc Hn Hrest. unfold elapse.
  induction ms as [|ms IH] using N.peano_ind; [reflexivity|].
  rewrite N.iter_succ, IH, (tick_head w s head rest Hs Hrest).
  unfold tick_subscription. rewrite Hc, Hn. simpl.
  apply with_subscriptions_same. now rewrite Hs.
Qed.

(** While the newest subscription counts down [d] milliseconds: before
    they have passed only the countdown moves; once they have passed
    every subscription is closed. *)
Lemma elapse_delaying (w : World) (ms : N) (s : GameOverlayService)
    (head : Subscription) (rest : list Subscription) (d : N) :
  subscriptions s = head :: rest ->
  closed head = false ->
  completeIn head = Some d ->
  (1 <= d)%N ->
  Forall (fun sub => closed sub = true) rest ->
  ((ms < d)%N ->
   exists head',
     subscriptions (elapse w ms s) = head' :: rest
     /\ closed head' = false
     /\ completeIn head' = Some (d - ms)%N
     /\ windows (elapse w ms s) = windows s
     /\ replacedWindows (elapse w ms s) = replacedWindows s
     /\ calls (elapse w ms s) = calls s)
  /\ ((d <= ms)%N -> all_closed (elapse w ms s)).
Proof.
  intros Hs Hc Hd Hpos Hrest. unfold elapse.
  induction ms as [|ms IH] using N.peano_ind.
  - split.
    + intros _. exists head. simpl. rewrite N.sub_0_r. auto 10.
    + lia.
  - rewrite N.iter_succ. destruct IH as (IHlt & IHge).
    destruct (N.lt_ge_cases ms d) as [Hlt | Hge].
    + destruct (IHlt Hlt) as (head' & Hs' & Hc' & Hd' & Hw' & Hr' & Hcalls').
      rewrite (tick_head w _ head' rest Hs' Hrest).
      unfold tick_subscription. rewrite Hc', Hd'.
      destruct (N.eqb_spec (N.pred (d - ms)) 0) as [E | E]; cbn [fst snd].
      * split; [lia|]. intros _. unfold all_closed.
        rewrite subscriptions_createWindowOverlays. simpl.
        constructor; [reflexivity | exact Hrest].
      * split; [|lia]. intros _. eexists.
        cbn [subscriptions with_subscriptions windows replacedWindows calls].
        split; [reflexivity|]. cbn [closed completeIn].
        split; [reflexivity|].
        split; [f_equal; lia|]. repeat split; assumption.
    + specialize (IHge Hge). split; [lia|]. intros _.
      now rewrite tick_all_closed.
Qed.

Lemma armed_count_zero (s : GameOverlayService) :
  armed_count s = 0%nat -> all_signalled s.
Proof.
  unfold armed_count, all_signalled. simpl. intros H key.
  destruct (armed s recentEvents) eqn:E1, (armed s chat) eqn:E2;
    simpl in H; try discriminate.
  now destruct key.
Qed.

(** An effective load signal: the listener of that window is done, the
    others are as before, and every subscription sees one [next]. *)
Lemma didFinishLoad_armed (key : OverlayWindowKey) (s : GameOverlayService) :
  armed s key = true ->
  subscriptions (didFinishLoad key s) = map next (subscriptions s)
  /\ calls (didFinishLoad key s) = calls s
  /\ S (armed_count (didFinishLoad key s)) = armed_count s.
Proof.
  intros Ha. unfold armed in Ha. unfold didFinishLoad.
  destruct (lookup key (windows s)) as [win|] eqn:Hl; [|discriminate].
  rewrite Ha. split; [reflexivity|]. split; [reflexivity|].
  unfold armed_count, armed. simpl. rewrite !lookup_assign.
  destruct key; simpl; rewrite Hl, Ha; simpl;
    match goal with
    | |- context [lookup ?k (windows s)] =>
        destruct (lookup k (windows s)) as [win'|]; simpl;
        [destruct (onceDidFinishLoad win')|]; reflexivity
    end.
Qed.

Lemma didFinishLoad_not_armed (key : OverlayWindowKey) (s : GameOverlayService) :
  armed s key = false -> didFinishLoad key s = s.
Proof.
  unfold armed, didFinishLoad.
  destruct (lookup key (windows s)) as [win|]; [|reflexivity].
  now intros ->.
Qed.

Lemma all_signalled_windows (s s' : GameOverlayService) :
  windows s' = windows s -> all_signalled s -> all_signalled s'.
Proof. intros Hw H key. unfold armed. rewrite Hw. apply H. Qed.

Lemma registrations_calls (s s' : GameOverlayService) :
  calls s' = calls s -> registrations s' = registrations s.
Proof. intros H. unfold registrations. now rewrite H. Qed.

Lemma map_next_closed (rest : list Subscription) :
  Forall (fun sub => closed sub = true) rest -> map next rest = rest.
Proof.
  intros H. rewrite (map_closed next (fun sub => sub) rest H)
    by (intros sub Hc; now apply closed_next).
  apply map_id.
Qed.

(** *** Source windows the table no longer holds *)

Lemma replacedDidFinishLoad_silent (n : nat) (s : GameOverlayService) :
  replaced_silent s -> replacedDidFinishLoad n s = s.
Proof.
  intros H. unfold replacedDidFinishLoad.
  destruct (nth_error (replacedWindows s) n) as [win|] eqn:E; [|reflexivity].
  apply nth_error_In in E. unfold replaced_silent in H.
  rewrite Forall_forall in H. now rewrite (H win E).
Qed.

Lemma replaced_silent_didFinishLoad (key : OverlayWindowKey)
    (s : GameOverlayService) :
  replaced_silent s -> replaced_silent (didFinishLoad key s).
Proof.
  unfold replaced_silent, didFinishLoad.
  destruct (lookup key (windows s)) as [win|]; [|auto].
  destruct (onceDidFinishLoad win); auto.
Qed.

Lemma same_replaced_refl (s : GameOverlayService) : same_replaced s s.
Proof. reflexivity. Qed.

Lemma same_replaced_trans (s1 s2 s3 : GameOverlayService) :
  same_replaced s1 s2 -> same_replaced s2 s3 -> same_replaced s1 s3.
Proof. unfold same_replaced. congruence. Qed.

Lemma same_replaced_onSourceWindow (key : OverlayWindowKey)
    (f : BrowserWindow -> BrowserWindow) (cs : list Call) (s : GameOverlayService) :
  same_replaced s (service_after (onSourceWindow key f cs s)).
Proof.
  unfold onSourceWindow.
  destruct (lookup key (windows s)) as [win|]; [|reflexivity].
  simpl. now rewrite calls_fold_call.
Qed.

Lemma same_replaced_onPreviewWindow (key : OverlayWindowKey)
    (f : BrowserWindow -> BrowserWindow) (cs : list Call) (s : GameOverlayService) :
  same_replaced s (service_after (onPreviewWindow key f cs s)).
Proof.
  unfold onPreviewWindow.
  destruct (lookup key (previewWindows s)) as [win|]; [|reflexivity].
  simpl. now rewrite calls_fold_call.
Qed.

Ltac replaced_bind := apply (bind_related same_replaced same_replaced_trans).

(** Only [createBrowserWindows] takes windows out of the table. *)
Lemma same_replaced_configureWindows (w : World) (s : GameOverlayService) :
  same_replaced s (service_after (configureWindows w s)).
Proof.
  revert s. unfold configureWindows. replaced_bind.
  { intros s. apply same_replaced_refl. }
  intros ks. replaced_bind.
  { apply (forEach_all_related same_replaced same_replaced_refl same_replaced_trans).
    intros key. unfold configureWindow. replaced_bind.
    { intros s. apply same_replaced_onSourceWindow. }
    intros _. replaced_bind.
    { intros s. unfold determineStartPosition.
      destruct (position (props (state s) key)) as [pos|];
        [destruct (find (insideBounds pos) (getAllDisplays w))|];
        reflexivity. }
    intros position. replaced_bind.
    { intros s. apply same_replaced_onSourceWindow. }
    intros _ s. apply same_replaced_onPreviewWindow. }
  intros _. replaced_bind.
  { intros s. apply same_replaced_onSourceWindow. }
  intros _ s. apply same_replaced_onSourceWindow.
Qed.

Lemma overwritten_silent (key : OverlayWindowKey) (s : GameOverlayService) :
  armed s key = false ->
  Forall (fun win => onceDidFinishLoad win = false) (overwritten key s).
Proof.
  unfold armed, overwritten.
  destruct (lookup key (windows s)) as [win|]; repeat constructor. assumption.
Qed.

(** An initialization that finds no listener waiting leaves none
    waiting on the windows it replaces. *)
Lemma initializeOverlay_replaced_silent (w : World) (s : GameOverlayService) :
  no_listener_waiting s ->
  replaced_silent (service_after (initializeOverlay w s)).
Proof.
  intros (Hall & Hrep). unfold initializeOverlay, bind, modify.
  set (s4 := createPreviewWindows w (createBrowserWindows w _)).
  unfold replaced_silent.
  rewrite (same_replaced_configureWindows w s4).
  subst s4. unfold createPreviewWindows, createBrowserWindows.
  cbn [replacedWindows call with_previewWindows with_windows with_replacedWindows
       with_subscriptions].
  apply Forall_app. split; [apply Forall_app; split|].
  - exact Hrep.
  - apply overwritten_silent. exact (Hall recentEvents).
  - apply overwritten_silent. unfold armed.
    cbn [windows call with_previewWindows with_windows with_replacedWindows
         with_subscriptions].
    rewrite lookup_assign. cbn [key_eqb]. exact (Hall chat).
Qed.

(** One load signal or one stretch of time moves the pipeline along its
    phases and never backwards. *)
Lemma ready_phase_step (s1 : GameOverlayService) (trace : list (World * Event))
    (w : World) (e : Event) :
  match e with
  | ev_didFinishLoad _ | ev_replacedDidFinishLoad _ | ev_elapse _ => True
  | _ => False
  end ->
  ready_phase s1 trace (run trace s1) ->
  ready_phase s1 (trace ++ [(w, e)]) (run (trace ++ [(w, e)]) s1).
Proof.
  intros He H. rewrite run_app. simpl.
  remember (run trace s1) as s eqn:Hrun.
  destruct H as [head rest Hs Hc Hn Hrest Hcnt Hsil Hreg
                | pre post head rest Ht Hpre Hel Hs Hc Hd Hrest Hall Hsil Hreg
                | pre post Ht Hpre Hel Hclosed].
  - (* counting *)
    destruct e; try contradiction; simpl.
    + destruct (armed s key) eqn:Ha.
      * destruct (didFinishLoad_armed key s Ha) as (Hsub & Hcalls & Hcount).
        pose proof (replaced_silent_didFinishLoad key s Hsil) as Hsil'.
        rewrite Hs in Hsub. simpl in Hsub.
        rewrite (map_next_closed rest Hrest) in Hsub.
        unfold next in Hsub. rewrite Hc, Hn in Hsub.
        destruct (Nat.eqb_spec (S (taken head)) (takeCount head)) as [E | E].
        -- apply ready_delaying
             with (pre := trace ++ [(w, ev_didFinishLoad key)]) (post := [])
                  (head := {| takeCount := takeCount head; taken := S (taken head);
                              completeIn := Some 5000%N; closed := false |})
                  (rest := rest); try reflexivity; try assumption.
           ++ now rewrite app_nil_r.
           ++ rewrite run_app, <- Hrun. simpl.
              apply armed_count_zero. lia.
           ++ apply armed_count_zero. lia.
           ++ rewrite (registrations_calls s _ Hcalls). exact Hreg.
        -- apply ready_counting
             with (head := {| takeCount := takeCount head; taken := S (taken head);
                              completeIn := None; closed := false |})
                  (rest := rest); try reflexivity; try assumption.
           ++ simpl. lia.
           ++ rewrite (registrations_calls s _ Hcalls). exact Hreg.
      * rewrite (didFinishLoad_not_armed key s Ha).
        now apply ready_counting with (head := head) (rest := rest).
    + rewrite (replacedDidFinishLoad_silent n s Hsil).
      now apply ready_counting with (head := head) (rest := rest).
    + rewrite (elapse_counting w ms s head rest Hs Hc Hn Hrest).
      now apply ready_counting with (head := head) (rest := rest).
  - (* delaying *)
    subst trace. rewrite <- app_assoc.
    destruct e; try contradiction; simpl.
    + rewrite (didFinishLoad_not_armed key s (Hall key)).
      apply ready_delaying with (pre := pre) (post := post ++ [(w, ev_didFinishLoad key)])
                                (head := head) (rest := rest);
        try reflexivity; try assumption.
      * rewrite elapsed_app. cbn [elapsed]. lia.
      * rewrite Hd, elapsed_app. cbn [elapsed]. f_equal. lia.
    + rewrite (replacedDidFinishLoad_silent n s Hsil).
      apply ready_delaying
        with (pre := pre) (post := post ++ [(w, ev_replacedDidFinishLoad n)])
             (head := head) (rest := rest);
        try reflexivity; try assumption.
      * rewrite elapsed_app. cbn [elapsed]. lia.
      * rewrite Hd, elapsed_app. cbn [elapsed]. f_equal. lia.
    + destruct (elapse_delaying w ms s head rest (5000 - elapsed post)%N
                  Hs Hc Hd ltac:(lia) Hrest) as (Hlt & Hge).
      destruct (N.lt_ge_cases ms (5000 - elapsed post)) as [Hms | Hms].
      * destruct (Hlt Hms) as (head' & Hs' & Hc' & Hd' & Hw' & Hr' & Hcalls').
        apply ready_delaying with (pre := pre) (post := post ++ [(w, ev_elapse ms)])
                                  (head := head') (rest := rest);
          try reflexivity; try assumption.
        -- rewrite elapsed_app. cbn [elapsed]. lia.
        -- rewrite Hd', elapsed_app. cbn [elapsed]. f_equal. lia.
        -- now apply (all_signalled_windows s).
        -- unfold replaced_silent. now rewrite Hr'.
        -- rewrite (registrations_calls s _ Hcalls'). exact Hreg.
      * apply ready_done with (pre := pre) (post := post ++ [(w, ev_elapse ms)]);
          try reflexivity; try assumption.
        -- rewrite elapsed_app. cbn [elapsed]. lia.
        -- now apply Hge.
  - (* done *)
    subst trace. rewrite <- app_assoc.
    apply ready_done with (pre := pre) (post := post ++ [(w, e)]);
      try reflexivity; try assumption.
    + rewrite elapsed_app. lia.
    + destruct e; try contradiction; simpl.
      * now apply didFinishLoad_all_closed.
      * now apply replacedDidFinishLoad_all_closed.
      * now rewrite elapse_all_closed.
Qed.

Lemma ready_phase_run (s1 : GameOverlayService) (trace : list (World * Event)) :
  environment_only trace ->
  ready_phase s1 [] s1 ->
  ready_phase s1 trace (run trace s1).
Proof.
  intros Henv H0. induction trace as [|[w e] trace IH] using rev_ind.
  - exact H0.
  - apply Forall_app in Henv. destruct Henv as (Henv & Hlast).
    inversion Hlast as [|? ? He _]; subst. simpl in He.
    apply ready_phase_step; [exact He | now apply IH].
Qed.

(** Re-initialization waits.  Take a service whose earlier
    subscriptions are closed, whose [this.windows] already holds both
    keys, as a previous initialization leaves it, and in which no load
    listener of an earlier initialization still waits (every source
    window created so far has loaded), and let [initializeOverlay()]
    run.  Then, whatever the order of window loads, of the table's
    windows or of replaced ones, and of passing time, if any surface has
    been registered with the compositor, there is a point of the run
    where every source window of the table had signalled its load after
    which at least 5000 ms have passed. *)
Theorem reinitialization_waits_for_readiness (w : World) (s : GameOverlayService)
    (trace : list (World * Event)) :
  all_closed s ->
  no_listener_waiting s ->
  (2 <= List.length (keys (windows s)))%nat ->
  environment_only trace ->
  registrations (run trace (service_after (initializeOverlay w s)))
  <> registrations (service_after (initializeOverlay w s)) ->
  exists pre post,
    trace = pre ++ post
    /\ all_signalled (run pre (service_after (initializeOverlay w s)))
    /\ (5000 <= elapsed post)%N.
Proof.
  intros Hclosed Hquiet Hkeys Henv Hreg.
  pose proof (initializeOverlay_replaced_silent w s Hquiet) as Hsil.
  destruct (initializeOverlay_placement w s) as (s1 & E & _ & _ & Hsub & _).
  rewrite E in *. simpl in *.
  assert (H0 : ready_phase s1 [] s1).
  { apply ready_counting
      with (head := subscribe (List.length (keys (windows s))))
           (rest := subscriptions s); try assumption; try reflexivity.
    - destruct (List.length (keys (windows s))); [lia | reflexivity].
    - unfold armed_count. simpl.
      destruct (armed s1 recentEvents), (armed s1 chat); simpl; lia. }
  destruct (ready_phase_run s1 trace Henv H0)
    as [head rest _ _ _ _ _ _ Hsame
       | pre post head rest _ _ _ _ _ _ _ _ _ Hsame
       | pre post Ht Hpre Hel _].
  - contradiction.
  - contradiction.
  - now exists pre, post.
Qed.

(** A second login after a whole session. *)
Lemma reinitialization_waits_witness :
  exists pre post,
    [(world_running, ev_didFinishLoad recentEvents);
     (world_running, ev_didFinishLoad chat);
     (world_running, ev_elapse 5000)] = pre ++ post
    /\ all_signalled
         (run pre (service_after (initializeOverlay world_running session_over)))
    /\ (5000 <= elapsed post)%N.
Proof.
  apply (reinitialization_waits_for_readiness world_running session_over).
  - vm_compute. repeat constructor.
  - split.
    + intros key. destruct key; vm_compute; reflexivity.
    + vm_compute. repeat constructor.
  - vm_compute. lia.
  - repeat constructor.
  - intros H. vm_compute in H. discriminate.
Defined.

(** The hypothesis on the listeners is needed.  [registered_unloaded]
    has no open subscription and both keys, but the load listeners of its
    two source windows still wait.  After a second [initializeOverlay()]
    the loads of these two replaced windows complete the new [take(2)]:
    five seconds later both new source windows are registered though
    neither has loaded. *)
Lemma stale_listeners_complete_the_new_pipe :
  all_closed registered_unloaded
  /\ keys (windows registered_unloaded) = [recentEvents; chat]
  /\ map onceDidFinishLoad
       (replacedWindows
          (service_after (initializeOverlay world_running registered_unloaded)))
     = [true; true]
  /\ registrations reinitialized_early
     = registrations registered_unloaded
       ++ [overlay_addHWND recentEvents; overlay_addHWND chat]
  /\ armed reinitialized_early recentEvents = true
  /\ armed reinitialized_early chat = true.
Proof.
  split; [vm_compute; repeat constructor|].
  split; [vm_compute; reflexivity|].
  split; [vm_compute; reflexivity|].
  split; [vm_compute; reflexivity|].
  split; vm_compute; reflexivity.
Qed.

(** ** The keys of the window tables *)

Lemma keys_assign_present {A} (key : OverlayWindowKey) (v : A) (t : Table A) :
  lookup key t <> None -> keys (assign key v t) = keys t.
Proof.
  induction t as [|[k v'] t IH]; simpl; [congruence|].
  destruct (key_eqb key k) eqn:E; simpl.
  - reflexivity.
  - intros H. now rewrite IH.
Qed.

Lemma same_keys_refl (s : GameOverlayService) : same_keys s s.
Proof. now split. Qed.

Lemma same_keys_trans (s1 s2 s3 : GameOverlayService) :
  same_keys s1 s2 -> same_keys s2 s3 -> same_keys s1 s3.
Proof. intros (H1 & H2) (H3 & H4). split; congruence. Qed.

Lemma same_keys_onSourceWindow (key : OverlayWindowKey)
    (f : BrowserWindow -> BrowserWindow) (cs : list Call) (s : GameOverlayService) :
  same_keys s (service_after (onSourceWindow key f cs s)).
Proof.
  unfold onSourceWindow.
  destruct (lookup key (windows s)) as [win|] eqn:E; [|apply same_keys_refl].
  simpl. rewrite calls_fold_call. split; simpl; [|reflexivity].
  apply keys_assign_present. congruence.
Qed.

Lemma same_keys_onPreviewWindow (key : OverlayWindowKey)
    (f : BrowserWindow -> BrowserWindow) (cs : list Call) (s : GameOverlayService) :
  same_keys s (service_after (onPreviewWindow key f cs s)).
Proof.
  unfold onPreviewWindow.
  destruct (lookup key (previewWindows s)) as [win|] eqn:E; [|apply same_keys_refl].
  simpl. rewrite calls_fold_call. split; simpl; [reflexivity|].
  apply keys_assign_present. congruence.
Qed.

Ltac keys_bind := apply (bind_related same_keys same_keys_trans).

Lemma same_keys_configureWindows (w : World) (s : GameOverlayService) :
  same_keys s (service_after (configureWindows w s)).
Proof.
  revert s. unfold configureWindows. keys_bind.
  { intros s. apply same_keys_refl. }
  intros ks. keys_bind.
  { apply (forEach_all_related same_keys same_keys_refl same_keys_trans).
    intros key. unfold configureWindow. keys_bind.
    { intros s. apply same_keys_onSourceWindow. }
    intros _. keys_bind.
    { intros s. unfold determineStartPosition.
      destruct (position (props (state s) key)) as [pos|];
        [destruct (find (insideBounds pos) (getAllDisplays w))|];
        split; reflexivity. }
    intros position. keys_bind.
    { intros s. apply same_keys_onSourceWindow. }
    intros _ s. apply same_keys_onPreviewWindow. }
  intros _. keys_bind.
  { intros s. apply same_keys_onSourceWindow. }
  intros _ s. apply same_keys_onSourceWindow.
Qed.

(** The first [initializeOverlay()] of a service fills both tables with
    the keys [recentEvents], [chat], in this order, which is the order of
    every later loop over the windows.  An initialization that finds both
    keys in both tables keeps the keys and their order: the windows are
    replaced in place, the tables never grow. *)
Theorem initializeOverlay_table_keys (w : World) (s : GameOverlayService) :
  (windows s = [] -> previewWindows s = [] ->
   keys (windows (service_after (initializeOverlay w s))) = [recentEvents; chat]
   /\ keys (previewWindows (service_after (initializeOverlay w s)))
      = [recentEvents; chat])
  /\ (complete s -> same_keys s (service_after (initializeOverlay w s))).
Proof.
  assert (H : same_keys (createPreviewWindows w (createBrowserWindows w s))
                (service_after (initializeOverlay w s))).
  { unfold initializeOverlay, bind, modify.
    eapply same_keys_trans; [|apply same_keys_configureWindows].
    now split. }
  destruct H as (Hw & Hp). split.
  - intros Ew Ep. rewrite Hw, Hp.
    unfold createPreviewWindows, createBrowserWindows. simpl.
    now rewrite Ew, Ep.
  - intros Hc. split.
    + rewrite Hw. unfold createPreviewWindows, createBrowserWindows. simpl.
      rewrite !keys_assign_present; try reflexivity; try apply Hc.
      rewrite lookup_assign. destruct (key_eqb chat recentEvents); [discriminate|].
      apply Hc.
    + rewrite Hp. unfold createPreviewWindows, createBrowserWindows. simpl.
      rewrite !keys_assign_present; try reflexivity; try apply Hc.
      rewrite lookup_assign. destruct (key_eqb chat recentEvents); [discriminate|].
      apply Hc.
Qed.

Lemma initializeOverlay_table_keys_witness :
  keys (windows (service_after (initializeOverlay world_running
                                  (newService defaultState))))
  = [recentEvents; chat]
  /\ keys (previewWindows (service_after (initializeOverlay world_running
                                            (newService defaultState))))
     = [recentEvents; chat].
Proof.
  apply (proj1 (initializeOverlay_table_keys world_running (newService defaultState)));
    reflexivity.
Defined.

(** ** What initializeOverlay writes to the persisted state *)

Lemma props_settle (w : World) (k key : OverlayWindowKey) (st : GameOverlayState) :
  props (settle w k st) key
  = if key_eqb key k
    then {| position := kept_position w st k; id := id (props st k) |}
    else props st key.
Proof.
  unfold settle, kept_position.
  destruct (position (props st k)) as [pos|] eqn:Hp.
  - destruct (find (insideBounds pos) (getAllDisplays w)).
    + destruct (key_eqb key k) eqn:E; [|reflexivity].
      apply key_eqb_eq in E. subst key.
      destruct (props st k) as [p i]. simpl in *. now subst p.
    + apply props_SET_WINDOW_POSITION.
  - apply props_SET_WINDOW_POSITION.
Qed.

Lemma kept_position_settle (w : World) (k key : OverlayWindowKey)
    (st : GameOverlayState) :
  kept_position w (settle w k st) key = kept_position w st key.
Proof.
  unfold kept_position at 1. rewrite props_settle.
  destruct (key_eqb key k) eqn:E; [|reflexivity].
  apply key_eqb_eq in E. subst key. simpl.
  unfold kept_position.
  destruct (position (props st k)) as [pos|]; [|reflexivity].
  destruct (find (insideBounds pos) (getAllDisplays w)) eqn:F; [|reflexivity].
  now rewrite F.
Qed.

Lemma flags_settle (w : World) (k : OverlayWindowKey) (st : GameOverlayState) :
  isEnabled (settle w k st) = isEnabled st
  /\ isShowing (settle w k st) = isShowing st
  /\ isPreviewEnabled (settle w k st) = isPreviewEnabled st
  /\ previewMode (settle w k st) = previewMode st
  /\ opacity (settle w k st) = opacity st.
Proof.
  unfold settle. destruct (position (props st k)) as [pos|];
    [destruct (find (insideBounds pos) (getAllDisplays w))|]; now repeat split.
Qed.

Lemma fold_settle (w : World) (l : list OverlayWindowKey) (key : OverlayWindowKey) :
  forall st,
    let st' := fold_left (fun st0 k => settle w k st0) l st in
    id (props st' key) = id (props st key)
    /\ kept_position w st' key = kept_position w st key
    /\ (In key l \/ position (props st key) = kept_position w st key ->
        position (props st' key) = kept_position w st key)
    /\ (isEnabled st' = isEnabled st /\ isShowing st' = isShowing st
        /\ isPreviewEnabled st' = isPreviewEnabled st
        /\ previewMode st' = previewMode st /\ opacity st' = opacity st).
Proof.
  induction l as [|k l IH]; intros st; simpl.
  - repeat split. now intros [[] | H].
  - destruct (IH (settle w k st)) as (Hid & Hk & Hpos & Hflags).
    rewrite kept_position_settle in Hk, Hpos.
    destruct (flags_settle w k st) as (F1 & F2 & F3 & F4 & F5).
    split; [|split; [exact Hk | split]].
    + rewrite Hid, props_settle.
      destruct (key_eqb key k) eqn:E; [|reflexivity].
      apply key_eqb_eq in E. now subst key.
    + intros H. apply Hpos.
      destruct (in_dec key_eq_dec key l) as [Hin | Hout]; [now left | right].
      rewrite props_settle. destruct (key_eqb key k) eqn:E.
      * apply key_eqb_eq in E. subst key. reflexivity.
      * destruct H as [[-> | Hin] | H]; [|contradiction | exact H].
        now rewrite key_eqb_refl in E.
    + destruct Hflags as (G1 & G2 & G3 & G4 & G5). repeat split; congruence.
Qed.

(** [initializeOverlay()] writes nothing to the persisted state but
    stale positions: for each key, a saved position that is strictly
    inside the bounds of an attached display is kept, any other is
    cleared; surface ids, flags and opacity are as before. *)
Theorem initializeOverlay_clears_only_stale_positions (w : World)
    (s : GameOverlayService) (key : OverlayWindowKey) :
  let st' := state (service_after (initializeOverlay w s)) in
  position (props st' key) = kept_position w (state s) key
  /\ id (props st' key) = id (props (state s) key)
  /\ isEnabled st' = isEnabled (state s)
  /\ isShowing st' = isShowing (state s)
  /\ isPreviewEnabled st' = isPreviewEnabled (state s)
  /\ previewMode st' = previewMode (state s)
  /\ opacity st' = opacity (state s).
Proof.
  destruct (initializeOverlay_placement w s) as (s' & E & _ & _ & _ & Hst).
  rewrite E. simpl. rewrite Hst.
  destruct (fold_settle w (keys (windows (createBrowserWindows w s))) key (state s))
    as (Hid & _ & Hpos & Hflags).
  split; [|split; [exact Hid | exact Hflags]].
  apply Hpos. left. apply keys_lookup.
  unfold createBrowserWindows. simpl. rewrite !lookup_assign.
  destruct key; simpl; discriminate.
Qed.

(** ** Opacity and registration *)

(** The opacity persisted by [setOverlayOpacity(p)] is what a later
    [createWindowOverlays()] sends for every window the compositor
    accepts: the compositor receives the binary64 product of [p] and 2.55
    under the new id of each key, whether or not the subsystem was
    enabled when the opacity was set. *)
Theorem opacity_is_applied_at_registration (w : World) (p : Q)
    (s : GameOverlayService) (key : OverlayWindowKey) :
  (forall k, In k (keys (windows s)) -> invalidId (addHWND w k) = false) ->
  In key (keys (windows s)) ->
  In (overlay_setTransparency (addHWND w key) (js_mul p c2_55))
     (calls (service_after (createWindowOverlays w (setOverlayOpacity p s)))).
Proof.
  intros Hok Hin.
  assert (Hw : windows (setOverlayOpacity p s) = windows s)
    by (now rewrite setOverlayOpacity_unfold).
  rewrite createWindowOverlays_accepted_run by (now rewrite Hw).
  simpl. rewrite Hw.
  apply in_or_app. right. apply in_flat_map. exists key. split; [exact Hin|].
  unfold registration_calls. rewrite Hw.
  destruct (lookup_keys key (windows s) Hin) as [win ->].
  replace (opacity (state (setOverlayOpacity p s))) with p
    by (now rewrite setOverlayOpacity_unfold).
  simpl. auto.
Qed.

(** The opacity is set to 50 before any surface is registered. *)
Lemma opacity_is_applied_witness :
  In (overlay_setTransparency (addHWND world_running chat) (js_mul 50 c2_55))
     (calls (service_after
               (createWindowOverlays world_running
                  (setOverlayOpacity 50 enabled_service)))).
Proof.
  apply (opacity_is_applied_at_registration world_running 50 enabled_service chat).
  - intros k _. now destruct k.
  - simpl. auto.
Defined.

(** ** The load listener is one-shot *)

(** A source window counts once towards readiness: after its
    [did-finish-load] has been handled, a second one changes nothing. *)
Theorem didFinishLoad_counts_once (key : OverlayWindowKey) (s : GameOverlayService) :
  didFinishLoad key (didFinishLoad key s) = didFinishLoad key s.
Proof.
  apply didFinishLoad_not_armed.
  destruct (armed s key) eqn:Ha.
  - unfold armed in *. unfold didFinishLoad.
    destruct (lookup key (windows s)) as [win|]; [|discriminate].
    rewrite Ha. simpl. now rewrite lookup_assign_same.
  - now rewrite didFinishLoad_not_armed.
Qed.

(** ** One subscription, any take count *)

Lemma completion_waits_witness :
  exists pre post,
    pe_next :: pe_next :: repeat pe_tick 5000 = pre ++ pe_next :: post
    /\ nexts pre = 1%nat
    /\ (5000 <= ticks post)%nat.
Proof.
  apply (completion_waits_for_signals_and_delay 1
           (pe_next :: pe_next :: repeat pe_tick 5000)).
  vm_compute. reflexivity.
Defined.
